(** * Query3: query parsing, operator validation and pagination

    A shallow embedding of [src/query3/query3.ts].  The repository holds two
    revisions of that file: one decodes the query string with [JSON.parse]
    (module [Json] below), the other with [qs.parse] (module [Flat]).  Both
    are embedded, each from its own text.

    Conventions of the embedding:
    - a JavaScript number is a binary64 value: NaN, an infinity, a zero of
      either sign, or a finite value held as the rational it denotes; the
      operations that round ([/] and the conversion of a string) round to
      nearest, ties to even, with overflow to an infinity and underflow
      through the subnormal range to a zero;
    - a string is the sequence of the bytes of its UTF-8 encoding;
    - an object is the list of its own enumerable entries in the order
      [Object.entries] visits them, with pairwise distinct keys; a merge
      lists its entries in insertion order, where JavaScript would move
      integer-like keys to the front, and no statement depends on the order
      of a merged filter;
    - the records handled by [omitFields] live in a store of cells, so that
      aliasing and mutation can be stated. *)

From stdpp Require Import base numbers list strings.
From Stdlib Require Import Ascii String QArith Qcanon Qround DecimalString.
From Stdlib Require Import SpecFloat.

Set Warnings "-register-all".

Local Open Scope string_scope.
Local Open Scope list_scope.

(** ** Numbers *)

(** [Fin q] is the finite number of value [q]; [Fin 0] is the positive zero
    and [NegZero] the negative one. *)
Inductive number : Type :=
| NaN
| PosInf
| NegInf
| NegZero
| Fin (q : Qc).

(** The number of integer value [z]. *)
Definition num (z : Z) : number := Fin (Q2Qc (inject_Z z)).

Definition isNaN (n : number) : bool :=
  match n with NaN => true | _ => false end.

Definition Qc_sign (q : Qc) : comparison := Qccompare q (Q2Qc 0).

(** The sign bit. *)
Definition negative (n : number) : bool :=
  match n with
  | NegInf | NegZero => true
  | Fin q => match Qc_sign q with Lt => true | _ => false end
  | _ => false
  end.

Definition is_zero (n : number) : bool :=
  match n with
  | NegZero => true
  | Fin q => match Qc_sign q with Eq => true | _ => false end
  | _ => false
  end.

Definition zero (neg : bool) : number := if neg then NegZero else num 0.

Definition infinity (neg : bool) : number := if neg then NegInf else PosInf.

(** *** Rounding to binary64

    A finite binary64 value is [m * 2 ^ e] with [m < 2 ^ 53] and
    [-1074 <= e <= 971]. *)

(** [2 ^ e] when [e] is positive, 1 otherwise: a rational [x * 2 ^ e] is
    [(x * pow2 e) / pow2 (- e)]. *)
Definition pow2 (e : Z) : Z := (2 ^ Z.max 0 e)%Z.

(** The integer nearest to [n / d], the even one of the two at a tie. *)
Definition round_half_even (n d : Z) : Z :=
  let k := (n / d)%Z in
  match (2 * (n mod d) ?= d)%Z with
  | Lt => k
  | Gt => (k + 1)%Z
  | Eq => if Z.even k then k else (k + 1)%Z
  end.

(** The exponent [e] with [2 ^ 52 <= (a / b) / 2 ^ e < 2 ^ 53], for positive
    [a] and [b]: the first guess is off by one at most. *)
Definition binade (a b : Z) : Z :=
  let e := (Z.log2 a - Z.log2 b - 53)%Z in
  if (a * pow2 (- e) <? 2 ^ 53 * (b * pow2 e))%Z then e else (e + 1)%Z.

(** The binary64 value nearest to [a / b], for positive [a] and [b], with
    the sign [neg]: the exponent is that of the binade, or -1074 in the
    subnormal range; a magnitude of [2 ^ 1024] or more after rounding is an
    infinity. *)
Definition round_magnitude (neg : bool) (a b : Z) : number :=
  let e := Z.max (binade a b) (-1074) in
  let m := round_half_even (a * pow2 (- e)) (b * pow2 e) in
  if (m =? 0)%Z then zero neg
  else if (971 <? e)%Z || ((e =? 971)%Z && (m =? 2 ^ 53)%Z) then infinity neg
  else Fin (Q2Qc (Qred ((if neg then - (m * pow2 e) else m * pow2 e)%Z
                        # Z.to_pos (pow2 (- e))))).

Definition binary64 (q : Qc) : number :=
  match Qnum q with
  | Z0 => num 0
  | Zpos a => round_magnitude false (Zpos a) (Zpos (Qden q))
  | Zneg a => round_magnitude true (Zpos a) (Zpos (Qden q))
  end.

(** IEEE division, as the [/] operator computes it: the quotient of two
    finite numbers other than zeros is rounded; the sign of a zero or an
    infinity is the product of the signs. *)
Definition js_div (a b : number) : number :=
  let neg := xorb (negative a) (negative b) in
  match a, b with
  | NaN, _ | _, NaN => NaN
  | (PosInf | NegInf), (PosInf | NegInf) => NaN
  | (PosInf | NegInf), _ => infinity neg
  | _, (PosInf | NegInf) => zero neg
  | _, _ =>
      if is_zero b then (if is_zero a then NaN else infinity neg)
      else if is_zero a then zero neg
      else match a, b with
           | Fin p, Fin q => binary64 (p / q)%Qc
           | _, _ => NaN
           end
  end.

(** [Math.ceil]: the ceiling of a number between -1 and 0 is the negative
    zero. *)
Definition Math_ceil (n : number) : number :=
  match n with
  | Fin q =>
      let c := Qceiling q in
      if (c =? 0)%Z && negative n then NegZero else num c
  | _ => n
  end.

(** A number that is greater than zero (the infinity included). *)
Definition positive_number (n : number) : Prop :=
  match n with
  | Fin q => Qc_sign q = Gt
  | PosInf => True
  | _ => False
  end.

(** ** Values *)

Inductive value : Type :=
| VNull
| VBool (b : bool)
| VNum (n : number)
| VStr (s : string)
| VArr (elems : list value)
| VObj (entries : list (string * value)).

(** An object: its own entries in enumeration order. *)
Abbreviation obj := (list (string * value)).

Inductive exn : Type :=
| Error (message : string)
| TypeError
| SyntaxError (message : string).

Inductive result (A : Type) : Type :=
| Ok (a : A)
| Throw (e : exn).
Arguments Ok {A} a.
Arguments Throw {A} e.

Definition rbind {A B} (r : result A) (k : A → result B) : result B :=
  match r with
  | Ok a => k a
  | Throw e => Throw e
  end.

Declare Scope result_scope.
Delimit Scope result_scope with result.
Notation "x <- r ;;; k" := (rbind r (fun x => k))
  (at level 100, r at next level, right associativity) : result_scope.

(** [typeof v === 'object'] *)
Definition typeof_object (v : value) : bool :=
  match v with
  | VNull | VArr _ | VObj _ => true
  | _ => false
  end.

Definition is_null (v : value) : bool :=
  match v with VNull => true | _ => false end.

(** The decimal name of an array index. *)
Definition index_key (i : nat) : string :=
  NilZero.string_of_uint (Nat.to_uint i).

Fixpoint indexed {A} (i : nat) (l : list A) : list (string * A) :=
  match l with
  | [] => []
  | x :: l' => (index_key i, x) :: indexed (S i) l'
  end.

(** The characters of a string, one for each byte: those of a string of
    ASCII characters.  The program reads the entries of objects, arrays and
    [null] only. *)
Fixpoint string_chars (s : string) : list value :=
  match s with
  | EmptyString => []
  | String c s' => VStr (String c EmptyString) :: string_chars s'
  end.

(** The own enumerable entries of a value once it is seen as an object, as
    [Object.entries] and the spread syntax read them ([null] has none). *)
Definition own_entries (v : value) : obj :=
  match v with
  | VObj o => o
  | VArr l => indexed 0 l
  | VStr s => indexed 0 (string_chars s)
  | _ => []
  end.

(** [Object.keys]: a TypeError on [null]. *)
Definition Object_keys (v : value) : result (list string) :=
  match v with
  | VNull => Throw TypeError
  | _ => Ok (map fst (own_entries v))
  end.

Section Entries.
Context {V : Type}.
Implicit Types (o : list (string * V)) (k : string) (v : V).

(** Property read [o.k] on a plain object; [None] is [undefined]. *)
Fixpoint lookup_key k o : option V :=
  match o with
  | [] => None
  | (k', v) :: o' => if String.eqb k k' then Some v else lookup_key k o'
  end.

Definition has_key k o : bool :=
  match lookup_key k o with Some _ => true | None => false end.

Fixpoint replace_key k v o : list (string * V) :=
  match o with
  | [] => []
  | (k', v') :: o' =>
      if String.eqb k k' then (k', v) :: o'
      else (k', v') :: replace_key k v o'
  end.

(** CreateDataProperty: overwrite in place, or append a new own entry. *)
Definition define_key k v o : list (string * V) :=
  if has_key k o then replace_key k v o else o ++ [(k, v)].

(** The assignment [o[k] = v] on an object whose prototype is
    [Object.prototype]: under the name [__proto__] it reaches the inherited
    setter, which replaces the prototype when [v] is an object and does
    nothing otherwise; no own entry is created under that name. *)
Definition assign_key k v o : list (string * V) :=
  if String.eqb k "__proto__" then o else define_key k v o.

(** [{...a, ...b}] *)
Definition spread (a b : list (string * V)) : list (string * V) :=
  fold_left (fun acc e => define_key (fst e) (snd e) acc) (a ++ b) [].

(** [delete o[k]] *)
Definition delete_key k o : list (string * V) :=
  List.filter (fun e => negb (String.eqb k (fst e))) o.
End Entries.

(** [Array.prototype.includes] on strings. *)
Definition includes (l : list string) (s : string) : bool :=
  existsb (String.eqb s) l.

(** Rest of an object pattern: the entries whose key is not bound by name. *)
Definition rest_entries (bound : list string) (o : obj) : obj :=
  List.filter (fun e => negb (includes bound (fst e))) o.

Fixpoint forEach {A} (f : A → result unit) (l : list A) : result unit :=
  match l with
  | [] => Ok tt
  | x :: l' =>
      match f x with
      | Ok _ => forEach f l'
      | Throw e => Throw e
      end
  end.

(** [reduce] with a callback that may throw. *)
Fixpoint reduce {A B} (f : B → A → result B) (l : list A) (acc : B)
  : result B :=
  match l with
  | [] => Ok acc
  | x :: l' =>
      match f acc x with
      | Ok acc' => reduce f l' acc'
      | Throw e => Throw e
      end
  end.

(** ** Conversion to number

    [StringToNumber] follows the StringNumericLiteral grammar: surrounding
    white space is dropped, the empty string is 0, a [0x], [0o] or [0b]
    prefix selects the radix, and otherwise an optional sign is followed by
    [Infinity] or by a decimal literal with optional fraction and exponent.
    The value of the literal is rounded to binary64, at any number of
    digits, as Node does. *)

(** StrWhiteSpaceChar, by code point: the white space characters (tab,
    vertical tab, form feed, the byte order mark and the space separators of
    Unicode) and the line terminators. *)
Definition is_white (n : N) : bool :=
  ((9 <=? n) && (n <=? 13) || (n =? 32) || (n =? 160) || (n =? 5760)
   || (8192 <=? n) && (n <=? 8202) || (n =? 8232) || (n =? 8233)
   || (n =? 8239) || (n =? 8287) || (n =? 12288) || (n =? 65279))%N.

Definition continuation (c : ascii) : bool :=
  let n := N_of_ascii c in ((128 <=? n) && (n <? 192))%N.

(** The code point a character of one, two or three bytes encodes; every
    character of [is_white] is below U+10000. *)
Definition code_point (bytes : list ascii) : option N :=
  match bytes with
  | [a] =>
      let n := N_of_ascii a in if (n <? 128)%N then Some n else None
  | [a; b] =>
      let n := N_of_ascii a in
      if ((194 <=? n) && (n <? 224))%N && continuation b
      then Some ((n - 192) * 64 + (N_of_ascii b - 128))%N
      else None
  | [a; b; c] =>
      let n := N_of_ascii a in
      if ((224 <=? n) && (n <? 240))%N && continuation b && continuation c
      then Some ((n - 224) * 4096 + (N_of_ascii b - 128) * 64
                 + (N_of_ascii c - 128))%N
      else None
  | _ => None
  end.

Definition white_char (bytes : list ascii) : bool :=
  match code_point bytes with
  | Some n => is_white n
  | None => false
  end.

Definition digit_of (radix : Z) (c : ascii) : option Z :=
  let n := Z.of_nat (nat_of_ascii c) in
  let d :=
    if (48 <=? n)%Z && (n <=? 57)%Z then Some (n - 48)%Z
    else if (97 <=? n)%Z && (n <=? 102)%Z then Some (n - 87)%Z
    else if (65 <=? n)%Z && (n <=? 70)%Z then Some (n - 55)%Z
    else None in
  match d with
  | Some v => if (v <? radix)%Z then Some v else None
  | None => None
  end.

(** Reads the longest run of digits: the accumulated value, the number of
    digits read and the remaining characters. *)
Fixpoint read_digits (radix acc : Z) (count : nat) (l : list ascii)
  : Z * nat * list ascii :=
  match l with
  | [] => (acc, count, [])
  | c :: l' =>
      match digit_of radix c with
      | Some d => read_digits radix (acc * radix + d)%Z (S count) l'
      | None => (acc, count, l)
      end
  end.

(** Drops the white space a list of bytes starts with. *)
Fixpoint drop_white (l : list ascii) : list ascii :=
  match l with
  | a :: l1 =>
      if white_char [a] then drop_white l1
      else
        match l1 with
        | b :: l2 =>
            if white_char [a; b] then drop_white l2
            else
              match l2 with
              | c :: l3 => if white_char [a; b; c] then drop_white l3 else l
              | [] => l
              end
        | [] => l
        end
  | [] => []
  end.

(** Drops the white space a list of bytes ends with, on the reversed
    list. *)
Fixpoint drop_white_end (l : list ascii) : list ascii :=
  match l with
  | c :: l1 =>
      if white_char [c] then drop_white_end l1
      else
        match l1 with
        | b :: l2 =>
            if white_char [b; c] then drop_white_end l2
            else
              match l2 with
              | a :: l3 =>
                  if white_char [a; b; c] then drop_white_end l3 else l
              | [] => l
              end
        | [] => l
        end
  | [] => []
  end.

Definition trim (l : list ascii) : list ascii :=
  rev (drop_white_end (rev (drop_white l))).

(** The number nearest to [m * 10 ^ e], negated when [neg]; [m] is not
    negative, and a literal of value zero keeps its sign. *)
Definition scale10 (neg : bool) (m e : Z) : number :=
  let s := if neg then (- m)%Z else m in
  if (m =? 0)%Z then zero neg
  else if (0 <=? e)%Z then binary64 (Q2Qc (inject_Z (s * 10 ^ e)))
  else binary64 (Q2Qc (s # Z.to_pos (10 ^ (- e)))).

Definition radix_literal (radix : Z) (l : list ascii) : number :=
  match read_digits radix 0 0 l with
  | (v, S _, []) => binary64 (Q2Qc (inject_Z v))
  | _ => NaN
  end.

Definition exponent_part (l : list ascii) : option Z :=
  let '(neg, l') :=
    match l with
    | "+"%char :: r => (false, r)
    | "-"%char :: r => (true, r)
    | _ => (false, l)
    end in
  match read_digits 10 0 0 l' with
  | (v, S _, []) => Some (if neg : bool then (- v)%Z else v)
  | _ => None
  end.

Definition decimal_literal (l : list ascii) : option (Z * Z) :=
  let '(ip, ni, r1) := read_digits 10 0 0 l in
  let '(m, nf, r2) :=
    match r1 with
    | "."%char :: r => read_digits 10 ip 0 r
    | _ => (ip, 0%nat, r1)
    end in
  match (ni + nf)%nat with
  | O => None
  | S _ =>
      match r2 with
      | [] => Some (m, (- Z.of_nat nf)%Z)
      | c :: r3 =>
          if Ascii.eqb c "e" || Ascii.eqb c "E" then
            match exponent_part r3 with
            | Some e => Some (m, (e - Z.of_nat nf)%Z)
            | None => None
            end
          else None
      end
  end.

Definition signed_literal (neg : bool) (l : list ascii) : number :=
  if String.eqb (string_of_list_ascii l) "Infinity" then
    (if neg then NegInf else PosInf)
  else
    match decimal_literal l with
    | Some (m, e) => scale10 neg m e
    | None => NaN
    end.

Definition radix_of (c : ascii) : option Z :=
  if Ascii.eqb c "x" || Ascii.eqb c "X" then Some 16%Z
  else if Ascii.eqb c "o" || Ascii.eqb c "O" then Some 8%Z
  else if Ascii.eqb c "b" || Ascii.eqb c "B" then Some 2%Z
  else None.

(** A leading [0x], [0o] or [0b]: the radix and what follows the prefix. *)
Definition radix_prefix (l : list ascii) : option (Z * list ascii) :=
  match l with
  | c :: c' :: r =>
      if Ascii.eqb c "0" then
        match radix_of c' with
        | Some radix => Some (radix, r)
        | None => None
        end
      else None
  | _ => None
  end.

Definition StringToNumber (s : string) : number :=
  match trim (list_ascii_of_string s) with
  | [] => num 0
  | (c :: r) as l =>
      match radix_prefix l with
      | Some (radix, digits) => radix_literal radix digits
      | None =>
          if Ascii.eqb c "+" then signed_literal false r
          else if Ascii.eqb c "-" then signed_literal true r
          else signed_literal false l
      end
  end.

(** Whether the conversion of a value to a primitive completes.  A plain
    object prints through the inherited [toString], unless it has an own
    entry of that name: a decoded value is never callable, so the conversion
    then ends in a TypeError.  An array joins the strings of its elements. *)
Fixpoint converts (v : value) : bool :=
  match v with
  | VArr l => forallb converts l
  | VObj o => negb (has_key "toString" o)
  | _ => true
  end.

(** The number a value converts to, when the conversion completes.  An array
    converts through its string form: the empty array is the empty string, a
    one-element array is the string of its element (empty for [null]), and a
    longer one holds a comma, which no numeric literal admits; a number
    in an array is printed and read again, which gives the number back
    except that the negative zero prints as [0].  A plain object prints as
    [[object Object]]. *)
Fixpoint ToNumber (v : value) : number :=
  match v with
  | VNull => num 0
  | VBool b => if b then num 1 else num 0
  | VNum n => n
  | VStr s => StringToNumber s
  | VArr [] => num 0
  | VArr [x] =>
      match x with
      | VNull => num 0
      | VBool _ => NaN
      | VNum NegZero => num 0
      | VNum n => n
      | VStr s => StringToNumber s
      | VArr _ => ToNumber x
      | VObj _ => NaN
      end
  | VArr _ => NaN
  | VObj _ => NaN
  end.

(** [Number(v)] *)
Definition Number (v : value) : result number :=
  if converts v then Ok (ToNumber v) else Throw TypeError.

(** ToBoolean *)
Definition truthy (v : value) : bool :=
  match v with
  | VNull => false
  | VBool b => b
  | VNum NaN => false
  | VNum n => negb (is_zero n)
  | VStr s => negb (String.eqb s "")
  | VArr _ | VObj _ => true
  end.

(** [v || d], with [None] for [undefined]. *)
Definition or_else (v : option value) (d : value) : value :=
  match v with
  | Some v => if truthy v then v else d
  | None => d
  end.

(** ** Constants of [query3.constant] *)

(** Modelled from the spec: [query3.constant.ts] is not among the sources;
    the spec gives 20 as the default limit, and so does the README. *)
Definition DefaultLimit : value := VNum (num 20).

(** Modelled from the spec: [query3.constant.ts] is not among the sources;
    the spec gives 0 as the default offset, and so does the README. *)
Definition DefaultOffset : value := VNum (num 0).

(** Modelled from the spec: [query3.constant.ts] is not among the sources;
    the spec lists these operators as the built-in allow-list. *)
Definition DefaultAllowedOperators : list string :=
  ["$gte"; "$lte"; "$eq"; "$gt"; "$lt"; "$in"; "$ne"; "$nin"; "$regex";
   "$exists"].

(** ** Types of [query3.type] *)

Record Query3Options : Type := {
  populate : option value;
  omitFields_opt : option (list string);
  queryMongoose : option obj;
  allowedOperators : option (list string);
}.

Record ParseQueryResult : Type := {
  filter : obj;
  limit : number;
  offset : number;
  sort : value;
  count : value;
  justOne : value;
  cacheTimeMs : number;
}.

Record PaginationResult : Type := {
  totalRows : number;
  totalPages : number;
}.

(** ** The store of records and the collaborator *)

(** A reference into the store. *)
Abbreviation loc := nat.

(** What a field of a stored record holds: plain data, or a reference to
    another cell. *)
Inductive fvalue : Type :=
| FData (v : value)
| FRef (l : loc).

Inductive cell : Type :=
| CRec (fields : list (string * fvalue))
| CArr (elems : list loc).

(** A call received by the model: [countDocuments(filter)], or the chain
    [find(filter).skip(n).limit(n).sort(s).populate(p).lean().exec()]. *)
Inductive call : Type :=
| CountDocuments (f : obj)
| Find (f : obj) (skip lim : number) (srt : value) (pop : option value).

Record world : Type := {
  heap : list cell;
  calls : list call;
}.

(** The answers of the mongoose model; a rejected promise is a [Throw]. *)
Record Model : Type := {
  countDocuments : obj → result number;
  find_exec : obj → number → number → value → option value → result loc;
}.

Record QueryResult : Type := {
  records : loc;
  pagination : PaginationResult;
}.

(** Computations over the world that may throw. *)
Definition M (A : Type) : Type := world → result A * world.

Definition ret {A} (a : A) : M A := fun w => (Ok a, w).

Definition bind {A B} (c : M A) (k : A → M B) : M B :=
  fun w =>
    match c w with
    | (Ok a, w') => k a w'
    | (Throw e, w') => (Throw e, w')
    end.

Definition lift {A} (r : result A) : M A := fun w => (r, w).

Declare Scope world_scope.
Delimit Scope world_scope with world.
Notation "x <~ c ;;; k" := (bind c (fun x => k))
  (at level 100, c at next level, right associativity) : world_scope.

(** An awaited call of the model: logged, then answered. *)
Definition invoke {A} (c : call) (answer : result A) : M A :=
  fun w => (answer, {| heap := heap w; calls := calls w ++ [c] |}).

Definition alloc (c : cell) : M loc :=
  fun w => (Ok (List.length (heap w)),
            {| heap := heap w ++ [c]; calls := calls w |}).

(** The own entries of the cell a reference points to. *)
Definition cell_entries (c : option cell) : list (string * fvalue) :=
  match c with
  | Some (CRec fs) => fs
  | Some (CArr ls) => indexed 0 (map FRef ls)
  | None => []
  end.

(** [{ ...item }]: a new record holding the entries of [item]. *)
Definition copy_record (item : loc) : M loc :=
  fun w => alloc (CRec (spread [] (cell_entries (heap w !! item)))) w.

Definition delete_in_cell (field : string) (c : cell) : cell :=
  match c with
  | CRec fs => CRec (delete_key field fs)
  | CArr _ => c
  end.

(** [delete result[field]] *)
Definition delete_field (r : loc) (field : string) : M unit :=
  fun w => (Ok tt, {| heap := alter (delete_in_cell field) r (heap w);
                      calls := calls w |}).

Fixpoint forEach_M {A} (f : A → M unit) (l : list A) : M unit :=
  match l with
  | [] => ret tt
  | x :: l' => (_ <~ f x ;;; forEach_M f l')%world
  end.

Fixpoint map_M {A B} (f : A → M B) (l : list A) : M (list B) :=
  match l with
  | [] => ret []
  | x :: l' => (y <~ f x ;;; ys <~ map_M f l' ;;; ret (y :: ys))%world
  end.

(** [omitFields(data, fields)], the same text in both revisions. *)
Definition omitFields (data : loc) (fields : list string) : M loc :=
  fun w =>
    match heap w !! data with
    | Some (CArr items) =>
        (outs <~ map_M (fun item =>
                   result <~ copy_record item ;;;
                   _ <~ forEach_M (delete_field result) fields ;;;
                   ret result) items ;;;
         alloc (CArr outs))%world w
    | _ => (Throw TypeError, w)
    end.

(** The error [validateOperators] throws for [operator]. *)
Definition not_allowed (operator : string) : exn :=
  Error ("Operator '" +:+ operator +:+ "' is not allowed.").

(** The keys bound by name when the query is taken apart. *)
Definition reserved_keys : list string :=
  ["limit"; "offset"; "sort"; "count"; "justOne"].

(** ** The revision decoding with [JSON.parse] *)

Module Json.

Definition validateOperators (query : obj) (allowedOperators : list string)
  : result unit :=
  forEach (fun '(key, value) =>
    if typeof_object value then
      (keys <- Object_keys value ;;;
       forEach (fun operator =>
         if negb (includes allowedOperators operator)
         then Throw (not_allowed operator)
         else Ok tt) keys)%result
    else Ok tt) query.

Section Query3.
(** [JSON.parse] on query strings: a mapping, or a thrown error. *)
Variable JSON_parse : string → result obj.
Variable model : Model.

Definition parseQueryString (queryString : string)
    (options : Query3Options) : result ParseQueryResult :=
  (query <- JSON_parse queryString ;;;
   let limit := default DefaultLimit (lookup_key "limit" query) in
   let offset := default DefaultOffset (lookup_key "offset" query) in
   let sort := lookup_key "sort" query in
   let justOne := default (VBool false) (lookup_key "justOne" query) in
   let count := default (VBool false) (lookup_key "count" query) in
   let filters :=
     rest_entries ["limit"; "offset"; "sort"; "justOne"; "count"] query in
   let allowedOperators :=
     default DefaultAllowedOperators (allowedOperators options) in
   _ <- validateOperators filters allowedOperators ;;;
   let parsedFilters :=
     fold_left (fun acc '(key, value) =>
       assign_key key
         (if typeof_object value
          then VObj (spread [] (own_entries value))
          else value) acc) filters [] in
   limit <- Number limit ;;;
   offset <- Number offset ;;;
   Ok {| filter := parsedFilters;
         limit := limit;
         offset := offset;
         sort := or_else sort (VObj []);
         count := count;
         justOne := justOne;
         cacheTimeMs := num 0 |})%result.

Definition query (queryString : string) (options : Query3Options)
  : M QueryResult :=
  (parsed <~ lift (parseQueryString queryString options) ;;;
   let combinedFilter :=
     spread (filter parsed) (default [] (queryMongoose options)) in
   totalRows <~ invoke (CountDocuments combinedFilter)
                  (countDocuments model combinedFilter) ;;;
   let totalPages := Math_ceil (js_div totalRows (limit parsed)) in
   records <~ invoke
       (Find combinedFilter (offset parsed) (limit parsed) (sort parsed)
          (populate options))
       (find_exec model combinedFilter (offset parsed) (limit parsed)
          (sort parsed) (populate options)) ;;;
   records' <~ match omitFields_opt options with
               | Some fields => omitFields records fields
               | None => ret records
               end ;;;
   ret {| records := records';
          pagination := {| totalRows := totalRows;
                           totalPages := totalPages |} |})%world.
End Query3.

End Json.

(** ** The revision decoding with [qs.parse] *)

Module Flat.

Definition validateOperators (query : obj) (allowedOperators : list string)
  : result unit :=
  forEach (fun '(key, value) =>
    if typeof_object value && negb (is_null value) then
      (keys <- Object_keys value ;;;
       forEach (fun operator =>
         if negb (includes allowedOperators operator)
         then Throw (not_allowed operator)
         else Ok tt) keys)%result
    else Ok tt) query.

(** [typeof v === 'string' && v.startsWith('{')] *)
Definition json_like (v : value) : option string :=
  match v with
  | VStr (String "{" _ as s) => Some s
  | _ => None
  end.

(** [isNaN(Number(v)) ? v : Number(v)] *)
Definition coerce (v : value) : result value :=
  (n <- Number v ;;; Ok (if isNaN n then v else VNum n))%result.

(** [v === 'true'] *)
Definition is_true_string (v : option value) : bool :=
  match v with
  | Some (VStr s) => String.eqb s "true"
  | _ => false
  end.

Section Query3.
(** [qs.parse] with [ignoreQueryPrefix] and [depth: 5]. *)
Variable qs_parse : string → obj.
(** [JSON.parse] on strings that start with a brace: a mapping, or a
    thrown error. *)
Variable JSON_parse : string → result obj.
Variable model : Model.

Definition parseQueryString (queryString : string)
    (options : Query3Options) : result ParseQueryResult :=
  let parsedQuery := qs_parse queryString in
  (limit <-
     Number (or_else (lookup_key "limit" parsedQuery) DefaultLimit) ;;;
   offset <-
     Number (or_else (lookup_key "offset" parsedQuery) DefaultOffset) ;;;
   let sort := or_else (lookup_key "sort" parsedQuery) (VObj []) in
   let count := is_true_string (lookup_key "count" parsedQuery) in
   let justOne := is_true_string (lookup_key "justOne" parsedQuery) in
   filters <-
     reduce (fun acc '(key, value) =>
       match json_like value with
       | Some s =>
           parsed <- JSON_parse s ;;; Ok (assign_key key (VObj parsed) acc)
       | None =>
           if typeof_object value && negb (is_null value) then
             sub <- reduce (fun subAcc '(subKey, subValue) =>
                      coerced <- coerce subValue ;;;
                      Ok (assign_key subKey coerced subAcc))
                    (own_entries value) [] ;;;
             Ok (assign_key key (VObj sub) acc)
           else
             coerced <- coerce value ;;; Ok (assign_key key coerced acc)
       end)
       (List.filter (fun e =>
          negb (includes ["limit"; "offset"; "sort"; "count"; "justOne"]
                  (fst e))) parsedQuery) [] ;;;
   let allowedOperators :=
     default DefaultAllowedOperators (allowedOperators options) in
   _ <- validateOperators filters allowedOperators ;;;
   Ok {| filter := filters;
         limit := limit;
         offset := offset;
         sort := sort;
         count := VBool count;
         justOne := VBool justOne;
         cacheTimeMs := num 0 |})%result.

Definition query (queryString : string) (options : Query3Options)
  : M QueryResult :=
  (parsed <~ lift (parseQueryString queryString options) ;;;
   let combinedFilter :=
     spread (filter parsed) (default [] (queryMongoose options)) in
   totalRows <~ invoke (CountDocuments combinedFilter)
                  (countDocuments model combinedFilter) ;;;
   let totalPages := Math_ceil (js_div totalRows (limit parsed)) in
   records <~ invoke
       (Find combinedFilter (offset parsed) (limit parsed) (sort parsed)
          (populate options))
       (find_exec model combinedFilter (offset parsed) (limit parsed)
          (sort parsed) (populate options)) ;;;
   records' <~ match omitFields_opt options with
               | Some fields => omitFields records fields
               | None => ret records
               end ;;;
   ret {| records := records';
          pagination := {| totalRows := totalRows;
                           totalPages := totalPages |} |})%world.
End Query3.

End Flat.

(** * Vocabulary of the statements *)

(** ** Operator validation *)

(** The keys found one level inside a filter value: the own keys of a value
    whose [typeof] is ['object'] (the indices, for an array), none otherwise. *)
Definition nested_keys (v : value) : list string :=
  if typeof_object v then map fst (own_entries v) else [].

(** The keys one level deep in a filter, in the order they are visited. *)
Definition operator_keys (q : obj) : list string :=
  flat_map (fun e => nested_keys (snd e)) q.

Definition allowed_in (allowed : list string) (operator : string) : Prop :=
  includes allowed operator = true.

(** No field of the filter is bound to [null]. *)
Definition null_free (q : obj) : Prop :=
  Forall (fun e => is_null (snd e) = false) q.

(** What validation can see of an entry: whether the value is [null], and
    the keys one level inside it. *)
Definition level_one (e : string * value) : bool * list string :=
  (is_null (snd e), nested_keys (snd e)).

(** The check applied to the keys of one value. *)
Definition check_keys (allowed : list string) (keys : list string)
  : result unit :=
  forEach (fun operator =>
    if negb (includes allowed operator)
    then Throw (not_allowed operator)
    else Ok tt) keys.

Definition first_disallowed (allowed keys : list string) : option string :=
  List.find (fun operator => negb (includes allowed operator)) keys.

(** ** Sample inputs *)

Definition no_options : Query3Options :=
  {| populate := None; omitFields_opt := None; queryMongoose := None;
     allowedOperators := None |}.

Definition gte_lte : list string := ["$gte"; "$lte"].

Definition age_adult : obj := [("age", VObj [("$gte", VNum (num 18))])].

Definition age_invalid : obj :=
  [("age", VObj [("$invalidOperator", VNum (num 30))])].

Definition name_invalid : obj :=
  [("name", VObj [("$invalidOperator", VNum (num 30))])].

Definition tags_array : obj := [("tags", VArr [VStr "a"])].

Definition invalid_then_null : obj :=
  [("age", VObj [("$invalidOperator", VNum (num 30))]); ("name", VNull)].

Definition name_null : obj :=
  [("age", VObj [("$gte", VNum (num 18))]); ("name", VNull)].

Definition age_deep : obj :=
  [("age", VObj [("$gte", VObj [("$where", VStr "1")])])].

(** ** Vocabulary for [query] *)

(** The extra filter of the options; [{...undefined}] adds nothing. *)
Definition extra_filter (options : Query3Options) : obj :=
  default [] (queryMongoose options).

(** The part of [query] that follows parsing, the same text in both
    revisions. *)
Definition after_parse (model : Model) (options : Query3Options)
    (parsed : ParseQueryResult) : M QueryResult :=
  (let combinedFilter :=
     spread (filter parsed) (default [] (queryMongoose options)) in
   totalRows <~ invoke (CountDocuments combinedFilter)
                  (countDocuments model combinedFilter) ;;;
   let totalPages := Math_ceil (js_div totalRows (limit parsed)) in
   records <~ invoke
       (Find combinedFilter (offset parsed) (limit parsed) (sort parsed)
          (populate options))
       (find_exec model combinedFilter (offset parsed) (limit parsed)
          (sort parsed) (populate options)) ;;;
   records' <~ match omitFields_opt options with
               | Some fields => omitFields records fields
               | None => ret records
               end ;;;
   ret {| records := records';
          pagination := {| totalRows := totalRows;
                           totalPages := totalPages |} |})%world.

(** The calls [query] adds to the log once parsing has succeeded, with the
    filter they carry: every key reads as in the extra filter where the extra
    filter binds it, and as in the parsed filter elsewhere. *)
Definition passes_merged_filter (model : Model) (options : Query3Options)
    (parsed : ParseQueryResult) (w w' : world) : Prop :=
  ∃ combinedFilter : obj,
    (∀ k, lookup_key k combinedFilter =
          match lookup_key k (extra_filter options) with
          | Some v => Some v
          | None => lookup_key k (filter parsed)
          end) ∧
    calls w' =
      calls w ++
      CountDocuments combinedFilter ::
      match countDocuments model combinedFilter with
      | Ok _ => [Find combinedFilter (offset parsed) (limit parsed)
                   (sort parsed) (populate options)]
      | Throw _ => []
      end.

(** The pagination of a completed query against the parsed limit. *)
Definition pagination_of (parsed : ParseQueryResult) (res : QueryResult)
  : Prop :=
  totalPages (pagination res) =
    Math_ceil (js_div (totalRows (pagination res)) (limit parsed)) ∧
  (totalRows (pagination res) = num 0 →
   positive_number (limit parsed) →
   totalPages (pagination res) = num 0).

(** A model that counts and finds nothing, over a store holding one empty
    array. *)
Definition empty_model : Model :=
  {| countDocuments := fun _ => Ok (num 0);
     find_exec := fun _ _ _ _ _ => Ok 0%nat |}.

Definition empty_world : world := {| heap := [CArr []]; calls := [] |}.

Definition json_of (o : obj) : string → result obj := fun _ => Ok o.

Definition qs_of (o : obj) : string → obj := fun _ => o.

Definition json_fails : string → result obj :=
  fun _ => Throw (SyntaxError "Unexpected end of JSON input").

Definition limit_zero : obj := [("limit", VNum (num 0))].

Definition limit_zero_string : obj := [("limit", VStr "0")].

Definition is_active : Query3Options :=
  {| populate := None; omitFields_opt := None;
     queryMongoose := Some [("isActive", VBool true)];
     allowedOperators := None |}.

Definition only_gte_lte : Query3Options :=
  {| populate := None; omitFields_opt := None; queryMongoose := None;
     allowedOperators := Some gte_lte |}.

(** ** Vocabulary for [parseQueryString] *)

Definition is_decimal_digit (c : ascii) : bool :=
  let n := nat_of_ascii c in (48 <=? n)%nat && (n <=? 57)%nat.

Fixpoint decimal_digits (s : string) (acc : Z) : option Z :=
  match s with
  | EmptyString => Some acc
  | String c s' =>
      if is_decimal_digit c
      then decimal_digits s' (acc * 10 + (Z.of_nat (nat_of_ascii c) - 48))%Z
      else None
  end.

(** The integer a non-empty string of decimal digits denotes. *)
Definition decimal_value (s : string) : option Z :=
  match s with
  | EmptyString => None
  | _ => decimal_digits s 0
  end.

(** A reading [o.k] that is [undefined] or converts to [false]. *)
Definition absent_or_falsy (v : option value) : Prop :=
  match v with
  | None => True
  | Some v => truthy v = false
  end.

(** A reading [o.k] that is present and converts to [false], the negative
    zero apart: one of [0], [null], [false] and the empty string, for a
    decoded value. *)
Definition present_falsy (v : option value) : Prop :=
  ∃ x, v = Some x ∧ truthy x = false ∧ x ≠ VNum NaN ∧ x ≠ VNum NegZero.

(** A reading [o.k] that is a string of decimal digits denoting [z]. *)
Definition numeric_string (v : option value) (z : Z) : Prop :=
  ∃ s, v = Some (VStr s) ∧ decimal_value s = Some z.

Definition limit_string : obj := [("limit", VStr "5"); ("offset", VStr "10")].

Definition limit_fraction : obj := [("limit", VStr "1.5")].

Definition proto_filter : obj := [("__proto__", VNum (num 1))].

(** ** Vocabulary for [omitFields] *)

(** The entries whose key is none of the fields. *)
Definition omit_entries (fields : list string) (fs : list (string * fvalue))
  : list (string * fvalue) :=
  List.filter (fun e => negb (includes fields (fst e))) fs.

(** The entries of the record a reference points to. *)
Definition record_at (w : world) (l : loc) : list (string * fvalue) :=
  cell_entries (heap w !! l).

(** The records of the array a reference points to, in order. *)
Definition records_at (w : world) (data : loc)
  : option (list (list (string * fvalue))) :=
  match heap w !! data with
  | Some (CArr items) => Some (map (record_at w) items)
  | _ => None
  end.

(** The references all point into the store. *)
Definition allocated (w : world) (items : list loc) : Prop :=
  Forall (fun l => (l < List.length (heap w))%nat) items.

Definition users_world : world :=
  {| heap :=
       [CArr [1; 2]%nat;
        CRec [("name", FData (VStr "A")); ("password", FData (VStr "x"));
              ("age", FData (VNum (num 1)))];
        CRec [("name", FData (VStr "B")); ("friend", FRef 1%nat)]];
     calls := [] |}.

(** ** The scenarios of the test suite *)

Definition john_jane : world :=
  {| heap :=
       [CArr [1; 2]%nat;
        CRec [("name", FData (VStr "John Doe")); ("age", FData (VNum (num 30)))];
        CRec [("name", FData (VStr "Jane Doe")); ("age", FData (VNum (num 25)))]];
     calls := [] |}.

(** A model that counts [rows] documents and finds the array at 0. *)
Definition mock_model (rows : Z) : Model :=
  {| countDocuments := fun _ => Ok (num rows);
     find_exec := fun _ _ _ _ _ => Ok 0%nat |}.

Definition adults_by_age : obj :=
  [("limit", VNum (num 5)); ("offset", VNum (num 0));
   ("sort", VObj [("age", VNum (num (-1)))]);
   ("age", VObj [("$gte", VNum (num 18))])].

(** What [qs.parse] yields for the same query after [qs.stringify]: every
    leaf is a string. *)
Definition adults_by_age_qs : obj :=
  [("limit", VStr "5"); ("offset", VStr "0");
   ("sort", VObj [("age", VStr "-1")]);
   ("age", VObj [("$gte", VStr "18")])].

Definition role_without_age : Query3Options :=
  {| populate := Some (VArr [VObj [("path", VStr "role")]]);
     omitFields_opt := Some ["age"];
     queryMongoose := None;
     allowedOperators := None |}.

Definition second_page : obj :=
  [("limit", VNum (num 1)); ("offset", VNum (num 1));
   ("sort", VObj [("age", VNum (num (-1)))])].

(** ** Further vocabulary *)

(** A value that is no object: a boolean, a number or a string. *)
Definition is_literal (v : value) : bool := negb (typeof_object v).

(** The allow-list a call validates against. *)
Definition effective_allow_list (options : Query3Options) : list string :=
  default DefaultAllowedOperators (allowedOperators options).

Definition name_and_age : obj :=
  [("name", VStr "bob"); ("age", VNum (num 30)); ("active", VBool true)].

Definition gte_only : list string := ["$gte"].

(** The value the JSON revision stores for a filter value: a shallow copy of
    an object, the value itself otherwise. *)
Definition Json_entry_value (v : value) : value :=
  if typeof_object v then VObj (spread [] (own_entries v)) else v.

(** The value the flat revision stores for a decoded value: the decoding of
    a string that starts with a brace, an object of converted leaves for an
    object, the converted value otherwise. *)
Definition Flat_entry_value (JSON_parse : string → result obj) (v : value)
  : result value :=
  match Flat.json_like v with
  | Some s => (parsed <- JSON_parse s ;;; Ok (VObj parsed))%result
  | None =>
      if typeof_object v && negb (is_null v) then
        (sub <- reduce (fun subAcc '(subKey, subValue) =>
                  coerced <- Flat.coerce subValue ;;;
                  Ok (assign_key subKey coerced subAcc))
                (own_entries v) [] ;;;
         Ok (VObj sub))%result
      else Flat.coerce v
  end.

(** A decoded value that the JSON revision stores as it is: a literal, or a
    mapping with distinct keys. *)
Definition stored_verbatim (v : value) : Prop :=
  match v with
  | VObj o => NoDup (map fst o)
  | VArr _ | VNull => False
  | _ => True
  end.

Definition bob_query : obj :=
  [("limit", VNum (num 5)); ("name", VStr "bob");
   ("age", VObj [("$gte", VNum (num 18))])].

(** What [qs.parse] yields for the parameters [zip=02139],
    [id=9007199254740993], [name=bob], [limit=5], [age[$gte]=18],
    [age[$in][0]=7], [age[$nin][0]=1], [age[$nin][1]=2],
    [home[$ne][zip]=02139] and [owner={}]. *)
Definition zip_query : obj :=
  [("zip", VStr "02139"); ("id", VStr "9007199254740993");
   ("name", VStr "bob"); ("limit", VStr "5");
   ("age", VObj [("$gte", VStr "18"); ("$in", VArr [VStr "7"]);
                 ("$nin", VArr [VStr "1"; VStr "2"])]);
   ("home", VObj [("$ne", VObj [("zip", VStr "02139")])]);
   ("owner", VStr "{}")].

(** The filter [query] sends to the model. *)
Definition combined_filter (options : Query3Options)
    (parsed : ParseQueryResult) : obj :=
  spread (filter parsed) (extra_filter options).

(** The call of [find] that [query] makes. *)
Definition find_call (options : Query3Options) (parsed : ParseQueryResult)
  : call :=
  Find (combined_filter options parsed) (offset parsed) (limit parsed)
    (sort parsed) (populate options).

(** The answer of the model to that call. *)
Definition find_answer (model : Model) (options : Query3Options)
    (parsed : ParseQueryResult) : result loc :=
  find_exec model (combined_filter options parsed) (offset parsed)
    (limit parsed) (sort parsed) (populate options).

(** How a run of [query] ends when the model fails: with the error of the
    count and no call of [find], or with the error of [find] after both
    calls; the store is as it was. *)
Definition propagates_model_failure (model : Model) (options : Query3Options)
    (parsed : ParseQueryResult) (w : world) (e : exn)
    (run : result QueryResult * world) : Prop :=
  (countDocuments model (combined_filter options parsed) = Throw e →
   run = (Throw e,
          {| heap := heap w;
             calls := calls w ++
                      [CountDocuments (combined_filter options parsed)] |})) ∧
  (∀ rows,
     countDocuments model (combined_filter options parsed) = Ok rows →
     find_answer model options parsed = Throw e →
     run = (Throw e,
            {| heap := heap w;
               calls := calls w ++
                        [CountDocuments (combined_filter options parsed);
                         find_call options parsed] |})).

(** How a run of [query] ends when both calls succeed and no field is to be
    omitted: with the array the model found, the pagination computed from
    the count, and the store as it was. *)
Definition returns_found_array (model : Model) (options : Query3Options)
    (parsed : ParseQueryResult) (w : world)
    (run : result QueryResult * world) : Prop :=
  ∀ rows found,
    countDocuments model (combined_filter options parsed) = Ok rows →
    find_answer model options parsed = Ok found →
    run = (Ok {| records := found;
                 pagination :=
                   {| totalRows := rows;
                      totalPages :=
                        Math_ceil (js_div rows (limit parsed)) |} |},
           {| heap := heap w;
              calls := calls w ++
                       [CountDocuments (combined_filter options parsed);
                        find_call options parsed] |}).

(** How a run of [query] ends when both calls succeed and fields are to be
    omitted from an array of allocated records: with a new array of as many
    records, none of which has an omitted field, every cell of the store
    being as it was. *)
Definition returns_trimmed_records (model : Model) (options : Query3Options)
    (parsed : ParseQueryResult) (w : world) (fields : list string)
    (run : result QueryResult * world) : Prop :=
  ∀ rows found items,
    countDocuments model (combined_filter options parsed) = Ok rows →
    find_answer model options parsed = Ok found →
    heap w !! found = Some (CArr items) →
    allocated w items →
    ∃ res rs,
      run.1 = Ok res ∧
      totalRows (pagination res) = rows ∧
      heap w !! records res = None ∧
      records_at run.2 (records res) = Some rs ∧
      List.length rs = List.length items ∧
      (∀ r field, In r rs → In field fields → lookup_key field r = None) ∧
      (∀ l c, heap w !! l = Some c → heap run.2 !! l = Some c).

Definition count_fails : Model :=
  {| countDocuments := fun _ => Throw (Error "connection lost");
     find_exec := fun _ _ _ _ _ => Ok 0%nat |}.

Definition find_fails : Model :=
  {| countDocuments := fun _ => Ok (num 2);
     find_exec := fun _ _ _ _ _ => Throw (Error "connection lost") |}.

Definition without_password : Query3Options :=
  {| populate := None; omitFields_opt := Some ["password"];
     queryMongoose := None; allowedOperators := None |}.

(** The records of an array all have distinct keys. *)
Definition well_keyed (w : world) (items : list loc) : Prop :=
  Forall (fun item => NoDup (map fst (record_at w item))) items.

(** No record of an array has any of the fields. *)
Definition without_fields (w : world) (fields : list string)
    (items : list loc) : Prop :=
  Forall (fun item =>
    Forall (fun e => includes fields (fst e) = false) (record_at w item))
    items.

(** The pages of a completed query cover its rows: with a parsed limit of
    [l] rows a page and [r] rows counted, both integers below [2 ^ 53], the
    number of pages is the least integer [p] with [r <= p * l]. *)
Definition pages_cover_rows (parsed : ParseQueryResult) (res : QueryResult)
  : Prop :=
  ∀ l r : Z,
    limit parsed = num l →
    (0 < l < 2 ^ 53)%Z →
    totalRows (pagination res) = num r →
    (0 ≤ r < 2 ^ 53)%Z →
    ∃ p : Z,
      totalPages (pagination res) = num p ∧
      (r <= p * l)%Z ∧ ((p - 1) * l < r)%Z.

(** With a parsed limit of 0 the number of pages is not a number when no
    row is counted and is infinite when some row is, with the sign of the
    zero. *)
Definition pages_of_zero_limit (parsed : ParseQueryResult)
    (res : QueryResult) : Prop :=
  ∀ r : Z,
    totalRows (pagination res) = num r →
    (limit parsed = num 0 →
     (r = 0%Z → totalPages (pagination res) = NaN) ∧
     ((0 < r)%Z → totalPages (pagination res) = PosInf)) ∧
    (limit parsed = NegZero →
     (r = 0%Z → totalPages (pagination res) = NaN) ∧
     ((0 < r)%Z → totalPages (pagination res) = NegInf)).

Definition three_per_page : obj := [("limit", VNum (num 3))].

Definition limit_negative_zero : obj := [("limit", VStr "-0")].

Definition limit_abc : obj := [("limit", VStr "abc")].

Definition index_allowed : Query3Options :=
  {| populate := None; omitFields_opt := None; queryMongoose := None;
     allowedOperators := Some ["0"] |}.

(** ** Vocabulary for numbers *)

(** U+00A0 and U+FEFF in UTF-8. *)
Definition no_break_space : string :=
  String (ascii_of_nat 194) (String (ascii_of_nat 160) "").

Definition byte_order_mark : string :=
  String (ascii_of_nat 239)
    (String (ascii_of_nat 187) (String (ascii_of_nat 191) "")).

(** The number a binary64 value of the Standard Library's specification of
    floating-point arithmetic denotes. *)
Definition of_spec_float (x : spec_float) : number :=
  match x with
  | S754_zero s => zero s
  | S754_infinity s => infinity s
  | S754_nan => NaN
  | S754_finite s m e =>
      Fin (Q2Qc (Qred (((if s then Z.neg m else Z.pos m) * pow2 e)%Z
                       # Z.to_pos (pow2 (- e)))))
  end.

Definition number_eqb (a b : number) : bool :=
  match a, b with
  | NaN, NaN | PosInf, PosInf | NegInf, NegInf | NegZero, NegZero => true
  | Fin p, Fin q => Qc_eq_bool p q
  | _, _ => false
  end.

(** Binary64 values of every class: zeros, infinities, NaN and, with either
    sign, the least subnormal number and three times it, the least normal
    number, 1, 2, 3, the number nearest to 0.1, [2 ^ 53 - 1] and the
    greatest finite number. *)
Definition sample_doubles : list spec_float :=
  [S754_zero false; S754_zero true; S754_infinity false;
   S754_infinity true; S754_nan] ++
  flat_map (fun s =>
    [S754_finite s 1 (-1074);
     S754_finite s 3 (-1074);
     S754_finite s 4503599627370496 (-1074);
     S754_finite s 4503599627370496 (-52);
     S754_finite s 4503599627370496 (-51);
     S754_finite s 6755399441055744 (-51);
     S754_finite s 7205759403792794 (-56);
     S754_finite s 9007199254740991 0;
     S754_finite s 9007199254740991 971])
    [false; true].

(** * Properties *)

(** ** Operator validation *)

Lemma check_keys_find allowed keys :
  check_keys allowed keys =
  match first_disallowed allowed keys with
  | Some operator => Throw (not_allowed operator)
  | None => Ok tt
  end.
Proof.
  unfold check_keys, first_disallowed.
  induction keys as [|k keys IH]; simpl; [reflexivity|].
  destruct (includes allowed k); simpl; [exact IH | reflexivity].
Qed.

Lemma check_keys_app allowed ks1 ks2 :
  check_keys allowed (ks1 ++ ks2) =
  match check_keys allowed ks1 with
  | Ok _ => check_keys allowed ks2
  | Throw e => Throw e
  end.
Proof.
  unfold check_keys.
  induction ks1 as [|k ks1 IH]; simpl; [reflexivity|].
  destruct (includes allowed k); simpl; [exact IH | reflexivity].
Qed.

Lemma Flat_entry_check allowed (v : value) :
  (if typeof_object v && negb (is_null v)
   then (keys <- Object_keys v ;;; check_keys allowed keys)%result
   else Ok tt) = check_keys allowed (nested_keys v).
Proof. destruct v; reflexivity. Qed.

Lemma Json_entry_check allowed (v : value) :
  (if typeof_object v
   then (keys <- Object_keys v ;;; check_keys allowed keys)%result
   else Ok tt) =
  if is_null v then Throw TypeError else check_keys allowed (nested_keys v).
Proof. destruct v; reflexivity. Qed.

Lemma Flat_validate_cons allowed k v q :
  Flat.validateOperators ((k, v) :: q) allowed =
  match check_keys allowed (nested_keys v) with
  | Ok _ => Flat.validateOperators q allowed
  | Throw e => Throw e
  end.
Proof.
  unfold Flat.validateOperators at 1. simpl.
  fold (check_keys allowed). rewrite Flat_entry_check. reflexivity.
Qed.

Lemma Json_validate_cons allowed k v q :
  Json.validateOperators ((k, v) :: q) allowed =
  if is_null v then Throw TypeError
  else match check_keys allowed (nested_keys v) with
       | Ok _ => Json.validateOperators q allowed
       | Throw e => Throw e
       end.
Proof.
  unfold Json.validateOperators at 1. simpl.
  fold (check_keys allowed). rewrite Json_entry_check.
  destruct (is_null v); reflexivity.
Qed.

(** The flat revision visits the keys one level deep in order and stops at
    the first one outside the allow-list. *)
Lemma Flat_validate_keys allowed q :
  Flat.validateOperators q allowed = check_keys allowed (operator_keys q).
Proof.
  induction q as [|[k v] q IH]; [reflexivity|].
  rewrite Flat_validate_cons. unfold operator_keys. simpl.
  rewrite check_keys_app. fold (operator_keys q). rewrite IH. reflexivity.
Qed.

(** So does the JSON revision, on a filter without [null]. *)
Lemma Json_validate_keys allowed q :
  null_free q →
  Json.validateOperators q allowed = check_keys allowed (operator_keys q).
Proof.
  induction 1 as [|[k v] q Hv Hq IH]; [reflexivity|].
  rewrite Json_validate_cons. simpl in Hv. rewrite Hv.
  unfold operator_keys. simpl. rewrite check_keys_app.
  fold (operator_keys q). rewrite IH. reflexivity.
Qed.

Lemma check_keys_allowed allowed keys :
  Forall (allowed_in allowed) keys → check_keys allowed keys = Ok tt.
Proof.
  unfold check_keys.
  induction 1 as [|k keys Hk _ IH]; simpl; [reflexivity|].
  unfold allowed_in in Hk. rewrite Hk. exact IH.
Qed.

Lemma check_keys_first allowed pre operator post :
  Forall (allowed_in allowed) pre →
  includes allowed operator = false →
  check_keys allowed (pre ++ operator :: post) = Throw (not_allowed operator).
Proof.
  intros Hpre Hop. rewrite check_keys_app, (check_keys_allowed _ _ Hpre).
  unfold check_keys. simpl. rewrite Hop. reflexivity.
Qed.

Lemma check_keys_ok_inv allowed keys :
  check_keys allowed keys = Ok tt → Forall (allowed_in allowed) keys.
Proof.
  unfold check_keys, allowed_in.
  induction keys as [|k keys IH]; simpl; [constructor|].
  destruct (includes allowed k) eqn:Hk; simpl; [|discriminate].
  intros H. constructor; auto.
Qed.

(** ** Objects as entry lists *)

Section EntryFacts.
Context {V : Type}.
Implicit Types (o a b l acc : list (string * V)) (k : string) (v : V).

Lemma lookup_key_app k a b :
  lookup_key k (a ++ b) =
  match lookup_key k a with
  | Some v => Some v
  | None => lookup_key k b
  end.
Proof.
  induction a as [|[k' v'] a IH]; simpl; [reflexivity|].
  destruct (String.eqb k k'); [reflexivity | exact IH].
Qed.

Lemma lookup_key_None k o : lookup_key k o = None ↔ ¬ In k (map fst o).
Proof.
  induction o as [|[k' v'] o IH]; simpl; [tauto|].
  destruct (String.eqb_spec k k') as [->|Hne].
  - split; [discriminate | intros H; destruct H; auto].
  - rewrite IH. split; [intros H [Heq|Hin]; congruence | tauto].
Qed.

Lemma lookup_key_In k v o :
  NoDup (map fst o) → (lookup_key k o = Some v ↔ In (k, v) o).
Proof.
  induction o as [|[k' v'] o IH]; simpl; intros Hnd.
  - split; [discriminate | tauto].
  - apply NoDup_cons in Hnd as [Hk' Hnd].
    destruct (String.eqb_spec k k') as [->|Hne].
    + split.
      * intros [= ->]. by left.
      * intros [[= ->]|Hin]; [reflexivity|].
        exfalso. apply Hk'. apply list_elem_of_In.
        apply in_map_iff. by exists (k', v).
    + rewrite (IH Hnd). split; [tauto|].
      intros [[= -> ->]|Hin]; [congruence | exact Hin].
Qed.

Lemma lookup_key_rev k o :
  NoDup (map fst o) → lookup_key k (rev o) = lookup_key k o.
Proof.
  intros Hnd.
  assert (Hnd' : NoDup (map fst (rev o))).
  { rewrite map_rev, <- Permutation_rev. exact Hnd. }
  destruct (lookup_key k o) as [v|] eqn:Ho.
  - apply (lookup_key_In _ _ _ Hnd'). apply in_rev. rewrite rev_involutive.
    by apply (lookup_key_In _ _ _ Hnd).
  - apply lookup_key_None. rewrite map_rev, <- in_rev.
    by apply lookup_key_None.
Qed.

Lemma map_fst_replace_key k v o :
  map fst (replace_key k v o) = map fst o.
Proof.
  induction o as [|[k' v'] o IH]; simpl; [reflexivity|].
  destruct (String.eqb k k'); simpl; [reflexivity | by rewrite IH].
Qed.

Lemma lookup_replace_key k' k v o :
  lookup_key k' (replace_key k v o) =
  if String.eqb k' k
  then (if has_key k o then Some v else None)
  else lookup_key k' o.
Proof.
  unfold has_key.
  induction o as [|[k0 v0] o IH]; simpl.
  - by destruct (String.eqb k' k).
  - destruct (String.eqb_spec k k0) as [->|Hne]; simpl.
    + destruct (String.eqb k' k0); reflexivity.
    + rewrite IH. destruct (String.eqb_spec k' k) as [->|Hne'].
      * destruct (String.eqb_spec k k0); [congruence | reflexivity].
      * reflexivity.
Qed.

Lemma lookup_define_key k' k v o :
  lookup_key k' (define_key k v o) =
  if String.eqb k' k then Some v else lookup_key k' o.
Proof.
  unfold define_key. destruct (has_key k o) eqn:Hk.
  - rewrite lookup_replace_key, Hk. reflexivity.
  - rewrite lookup_key_app. simpl. unfold has_key in Hk.
    destruct (String.eqb_spec k' k) as [->|Hne].
    + destruct (lookup_key k o); [discriminate | reflexivity].
    + destruct (lookup_key k' o); reflexivity.
Qed.

Lemma has_key_false k o : has_key k o = false ↔ ¬ In k (map fst o).
Proof.
  rewrite <- lookup_key_None. unfold has_key.
  destruct (lookup_key k o); split; congruence.
Qed.

Lemma NoDup_define_key k v o :
  NoDup (map fst o) → NoDup (map fst (define_key k v o)).
Proof.
  intros Hnd. unfold define_key. destruct (has_key k o) eqn:Hk.
  - by rewrite map_fst_replace_key.
  - rewrite map_app. simpl. apply NoDup_app. split; [exact Hnd|].
    split; [|apply NoDup_singleton].
    intros x Hx Hx'. apply list_elem_of_In in Hx.
    apply list_elem_of_In in Hx'. destruct Hx' as [<-|[]].
    by apply has_key_false in Hk.
Qed.

Lemma NoDup_assign_key k v o :
  NoDup (map fst o) → NoDup (map fst (assign_key k v o)).
Proof.
  unfold assign_key. destruct (String.eqb k "__proto__"); [done|].
  apply NoDup_define_key.
Qed.

Lemma lookup_fold_define l acc k :
  lookup_key k (fold_left (fun acc e => define_key (fst e) (snd e) acc) l acc) =
  match lookup_key k (rev l) with
  | Some v => Some v
  | None => lookup_key k acc
  end.
Proof.
  revert acc. induction l as [|[k0 v0] l IH]; intros acc; simpl.
  - reflexivity.
  - rewrite IH, lookup_key_app, lookup_define_key. simpl.
    destruct (lookup_key k (rev l)); [reflexivity|].
    destruct (String.eqb k k0); reflexivity.
Qed.

Lemma NoDup_fold_define l acc :
  NoDup (map fst acc) →
  NoDup (map fst (fold_left (fun acc e => define_key (fst e) (snd e) acc)
                    l acc)).
Proof.
  revert acc. induction l as [|e l IH]; intros acc Hnd; simpl; [done|].
  apply IH. by apply NoDup_define_key.
Qed.

(** The merge [{...a, ...b}] reads as [b] where [b] binds the key and as [a]
    elsewhere. *)
Lemma lookup_spread a b k :
  NoDup (map fst a) → NoDup (map fst b) →
  lookup_key k (spread a b) =
  match lookup_key k b with
  | Some v => Some v
  | None => lookup_key k a
  end.
Proof.
  intros Ha Hb. unfold spread.
  rewrite lookup_fold_define, rev_app_distr, lookup_key_app.
  rewrite (lookup_key_rev _ _ Ha), (lookup_key_rev _ _ Hb). simpl.
  destruct (lookup_key k b); [reflexivity|].
  destruct (lookup_key k a); reflexivity.
Qed.

Lemma NoDup_spread a b : NoDup (map fst (spread a b)).
Proof. unfold spread. apply NoDup_fold_define. simpl. constructor. Qed.

(** Copying an object with distinct keys yields the same entries. *)
Lemma fold_define_fresh l acc :
  NoDup (map fst (acc ++ l)) →
  fold_left (fun acc e => define_key (fst e) (snd e) acc) l acc = acc ++ l.
Proof.
  revert acc. induction l as [|[k v] l IH]; intros acc Hnd; simpl.
  - by rewrite app_nil_r.
  - assert (Hk : has_key k acc = false).
    { apply has_key_false. intros Hin.
      rewrite map_app in Hnd. apply NoDup_app in Hnd as (_ & Hdisj & _).
      apply (Hdisj k); [by apply list_elem_of_In | simpl; left]. }
    unfold define_key at 2. rewrite Hk.
    rewrite IH; rewrite <- app_assoc; [reflexivity | exact Hnd].
Qed.

Lemma spread_copy o : NoDup (map fst o) → spread [] o = o.
Proof. intros Hnd. unfold spread. simpl. by apply (fold_define_fresh o []). Qed.

End EntryFacts.

(** ** Numbers *)

Lemma pow2_split (e : Z) :
  ∃ u v : Z, (0 ≤ u)%Z ∧ (0 ≤ v)%Z ∧ pow2 (- e) = (2 ^ u)%Z ∧
             pow2 e = (2 ^ v)%Z ∧ (v - u = e)%Z.
Proof.
  unfold pow2. destruct (Z.le_gt_cases 0 e) as [He|He].
  - exists 0%Z, e. rewrite (Z.max_l 0 (- e)), (Z.max_r 0 e) by lia.
    repeat split; lia.
  - exists (- e)%Z, 0%Z. rewrite (Z.max_r 0 (- e)), (Z.max_l 0 e) by lia.
    repeat split; lia.
Qed.

Lemma pow2_pos (e : Z) : (0 < pow2 e)%Z.
Proof. unfold pow2. apply Z.pow_pos_nonneg; lia. Qed.

(** The exponent of the binade, for positive [a] and [b]. *)
Lemma binade_spec (a b : Z) :
  (0 < a)%Z → (0 < b)%Z →
  (2 ^ 52 * (b * pow2 (binade a b)) ≤ a * pow2 (- binade a b) ∧
   a * pow2 (- binade a b) < 2 ^ 53 * (b * pow2 (binade a b)))%Z.
Proof.
  intros Ha Hb.
  destruct (Z.log2_spec a Ha) as [Hla Hua], (Z.log2_spec b Hb) as [Hlb Hub].
  pose proof (Z.log2_nonneg a) as Hna. pose proof (Z.log2_nonneg b) as Hnb.
  set (la := Z.log2 a) in *. set (lb := Z.log2 b) in *.
  rewrite Z.pow_succ_r in Hua, Hub by assumption.
  (* bounds at the first guess *)
  assert (Hguess : ∀ u v : Z, (0 ≤ u)%Z → (0 ≤ v)%Z →
            (v - u = la - lb - 53)%Z →
            (2 ^ 52 * (b * 2 ^ v) ≤ a * 2 ^ u ∧
             a * 2 ^ u < 2 ^ 54 * (b * 2 ^ v))%Z).
  { intros u v Hu Hv Huv.
    assert (Hpu : (0 < 2 ^ u)%Z) by (apply Z.pow_pos_nonneg; lia).
    assert (Hpv : (0 < 2 ^ v)%Z) by (apply Z.pow_pos_nonneg; lia).
    assert (Heq : (2 ^ la * 2 ^ u = 2 ^ 53 * (2 ^ lb * 2 ^ v))%Z).
    { rewrite <- !Z.pow_add_r by lia. f_equal. lia. }
    change (2 ^ 54)%Z with (2 * 2 ^ 53)%Z.
    change (2 ^ 53)%Z with (2 * 2 ^ 52)%Z in Heq |- *.
    set (k := (2 ^ 52)%Z) in *. assert (0 < k)%Z by (unfold k; lia).
    revert Heq Hla Hua Hlb Hub Hpu Hpv.
    generalize (2 ^ la)%Z (2 ^ lb)%Z (2 ^ u)%Z (2 ^ v)%Z.
    intros A B U V Heq Hla Hua Hlb Hub HU HV. split.
    - apply Z.le_trans with (A * U)%Z; [|nia].
      rewrite Heq. nia.
    - apply Z.lt_le_trans with (2 * A * U)%Z; [nia|].
      replace (2 * A * U)%Z with (2 * (A * U))%Z by ring. rewrite Heq. nia. }
  unfold binade. fold la lb. set (e := (la - lb - 53)%Z).
  destruct (pow2_split e) as (u & v & Hu & Hv & Hpu & Hpv & Huv).
  destruct (Hguess u v Hu Hv Huv) as [Hlow Hupp].
  destruct (Z.ltb_spec (a * pow2 (- e)) (2 ^ 53 * (b * pow2 e))) as [Hlt|Hge].
  - rewrite Hpu, Hpv in *. by split.
  - rewrite Hpu, Hpv in Hge.
    destruct (pow2_split (e + 1)) as (u' & v' & Hu' & Hv' & -> & -> & Huv').
    assert (Hpos : (0 < 2 ^ u)%Z) by (apply Z.pow_pos_nonneg; lia).
    assert (Hshift : (2 ^ (u + v') = 2 * 2 ^ (u' + v))%Z).
    { replace (u + v')%Z with (1 + (u' + v))%Z by lia.
      rewrite (Z.pow_add_r 2 1) by lia. reflexivity. }
    rewrite !Z.pow_add_r in Hshift by lia.
    assert (Hposu' : (0 < 2 ^ u')%Z) by (apply Z.pow_pos_nonneg; lia).
    assert (Hposv : (0 < 2 ^ v)%Z) by (apply Z.pow_pos_nonneg; lia).
    assert (Hposv' : (0 < 2 ^ v')%Z) by (apply Z.pow_pos_nonneg; lia).
    change (2 ^ 54)%Z with (2 * 2 ^ 53)%Z in Hupp.
    change (2 ^ 53)%Z with (2 * 2 ^ 52)%Z in Hge, Hupp |- *.
    set (k := (2 ^ 52)%Z) in *. assert (0 < k)%Z by (unfold k; lia).
    split.
    + apply (Z.mul_le_mono_pos_r _ _ (2 ^ u)); [lia|].
      (* k * (b * 2^v') * 2^u = k * b * 2 * 2^u' * 2^v *)
      replace (k * (b * 2 ^ v') * 2 ^ u)%Z
        with (k * b * (2 ^ u * 2 ^ v'))%Z by ring.
      rewrite Hshift.
      replace (a * 2 ^ u' * 2 ^ u)%Z with (a * 2 ^ u * 2 ^ u')%Z by ring.
      replace (k * b * (2 * (2 ^ u' * 2 ^ v)))%Z
        with (2 * k * (b * 2 ^ v) * 2 ^ u')%Z by ring.
      apply Z.mul_le_mono_nonneg_r; lia.
    + apply (Z.mul_lt_mono_pos_r (2 ^ u)); [lia|].
      replace (2 * k * (b * 2 ^ v') * 2 ^ u)%Z
        with (2 * k * b * (2 ^ u * 2 ^ v'))%Z by ring.
      rewrite Hshift.
      replace (a * 2 ^ u' * 2 ^ u)%Z with (a * 2 ^ u * 2 ^ u')%Z by ring.
      replace (2 * k * b * (2 * (2 ^ u' * 2 ^ v)))%Z
        with (2 * (2 * k) * (b * 2 ^ v) * 2 ^ u')%Z by ring.
      apply Z.mul_lt_mono_pos_r; lia.
Qed.

Lemma round_half_even_spec (n d : Z) :
  (0 < d)%Z →
  (2 * n - d ≤ 2 * (round_half_even n d * d) ≤ 2 * n + d)%Z.
Proof.
  intros Hd. unfold round_half_even.
  pose proof (Z.div_mod n d ltac:(lia)) as Hn.
  pose proof (Z.mod_pos_bound n d Hd) as Hr.
  destruct (Z.compare_spec (2 * (n mod d)) d) as [Heq|Hlt|Hgt];
    [destruct (Z.even (n / d))| |]; nia.
Qed.

Lemma round_half_even_1 (n : Z) : round_half_even n 1 = n.
Proof.
  unfold round_half_even. rewrite Z.mod_1_r, Z.div_1_r. reflexivity.
Qed.

Lemma Qc_of_Z (z : Z) : (Q2Qc (inject_Z z) : Q) = inject_Z z.
Proof. simpl. apply Qred_identity. simpl. apply Z.gcd_1_r. Qed.

Lemma Q2Qc_eq (x y : Q) : (x == y)%Q → Q2Qc x = Q2Qc y.
Proof. intros Hxy. by apply Q2Qc_eq_iff. Qed.

Lemma Qc_sign_pos (l : Z) : (0 < l)%Z → Qc_sign (Q2Qc (inject_Z l)) = Gt.
Proof.
  intros Hl. unfold Qc_sign. apply Qcgt_alt. unfold Qclt. simpl.
  rewrite !Qred_correct. unfold Qlt. simpl. lia.
Qed.

(** A natural number up to [2 ^ 53] is a binary64 value. *)
Lemma binary64_integer (z : Z) :
  (0 ≤ z ≤ 2 ^ 53)%Z → binary64 (Q2Qc (inject_Z z)) = num z.
Proof.
  intros Hz. unfold binary64. rewrite Qc_of_Z. simpl.
  destruct z as [|a|a]; [reflexivity| |lia].
  destruct (Z.eq_dec (Z.pos a) (2 ^ 53)) as [Heq|Hne].
  { injection Heq as ->. vm_compute. reflexivity. }
  unfold round_magnitude.
  destruct (binade_spec (Z.pos a) 1) as [Hlow Hupp]; [lia..|].
  set (e := binade (Z.pos a) 1) in *.
  destruct (pow2_split e) as (u & v & Hu & Hv & Hpu & Hpv & Huv).
  rewrite Hpu, Hpv in Hlow, Hupp.
  assert (Hposu : (0 < 2 ^ u)%Z) by (apply Z.pow_pos_nonneg; lia).
  assert (Hposv : (0 < 2 ^ v)%Z) by (apply Z.pow_pos_nonneg; lia).
  assert (Hv0 : v = 0%Z).
  { destruct (Z.eq_dec v 0) as [|Hv0]; [done|exfalso].
    assert (Hu0 : u = 0%Z).
    { unfold pow2 in Hpu, Hpv.
      destruct (Z.le_gt_cases e 0) as [He|He].
      - rewrite (Z.max_l 0 e) in Hpv by lia.
        apply (Z.pow_inj_r 2) in Hpv; lia.
      - rewrite (Z.max_l 0 (- e)) in Hpu by lia.
        apply (Z.pow_inj_r 2) in Hpu; lia. }
    subst u. assert (2 ^ 1 ≤ 2 ^ v)%Z by (apply Z.pow_le_mono_r; lia).
    change (2 ^ 1)%Z with 2%Z in *. change (2 ^ 53)%Z with (2 * 2 ^ 52)%Z in *.
    change (2 ^ 0)%Z with 1%Z in *. nia. }
  subst v. change (2 ^ 0)%Z with 1%Z in *.
  assert (Hu53 : (u < 53)%Z).
  { apply (Z.pow_lt_mono_r_iff 2); [lia..|]. nia. }
  assert (He : (e = - u)%Z) by lia.
  rewrite (Z.max_l e) by lia. rewrite Hpu, Hpv, Z.mul_1_r, round_half_even_1.
  destruct (Z.eqb_spec (Z.pos a * 2 ^ u) 0) as [|_]; [lia|].
  destruct (Z.ltb_spec 971 e) as [|_]; [lia|].
  destruct (Z.eqb_spec e 971) as [|_]; [lia|]. simpl orb. cbv iota.
  unfold num. f_equal. apply Q2Qc_eq. rewrite Qred_correct.
  unfold Qeq. simpl Qnum. simpl Qden. rewrite Z2Pos.id by lia. ring.
Qed.

Lemma Qceiling_unique (m d p : Z) :
  (0 < d)%Z → ((p - 1) * d < m)%Z → (m ≤ p * d)%Z →
  Qceiling (m # Z.to_pos d) = p.
Proof.
  intros Hd Hlt Hle.
  pose proof (Qle_ceiling (m # Z.to_pos d)) as H1.
  pose proof (Qceiling_lt (m # Z.to_pos d)) as H2.
  revert H1 H2. generalize (Qceiling (m # Z.to_pos d)). intros c.
  unfold Qle, Qlt. simpl. rewrite Z2Pos.id by lia. nia.
Qed.

Lemma js_div_finite (p q : Qc) :
  is_zero (Fin p) = false → is_zero (Fin q) = false →
  js_div (Fin p) (Fin q) = binary64 (p / q)%Qc.
Proof. intros Hp Hq. unfold js_div. by rewrite Hp, Hq. Qed.

Lemma js_div_zero (q : Qc) :
  is_zero (Fin q) = false →
  js_div (num 0) (Fin q) = zero (negative (Fin q)).
Proof. intros Hq. unfold js_div. rewrite Hq. reflexivity. Qed.

(** Division of a count by a limit, both integers below [2 ^ 53]: the
    rounded quotient has the ceiling of the exact one. *)
Lemma ceil_div_bounds (r l : Z) :
  (0 < l < 2 ^ 53)%Z → (0 ≤ r < 2 ^ 53)%Z →
  ∃ p, Math_ceil (js_div (num r) (num l)) = num p ∧
       ((p - 1) * l < r ≤ p * l)%Z.
Proof.
  intros Hl Hr.
  assert (Hsl : Qc_sign (Q2Qc (inject_Z l)) = Gt) by (apply Qc_sign_pos; lia).
  assert (Hzl : is_zero (num l) = false).
  { unfold is_zero, num. by rewrite Hsl. }
  destruct (Z.eq_dec r 0) as [->|Hr0].
  { exists 0%Z. split; [|lia]. unfold num at 2. rewrite js_div_zero by done.
    simpl negative. by rewrite Hsl. }
  assert (Hzr : is_zero (num r) = false).
  { unfold is_zero, num. by rewrite Qc_sign_pos by lia. }
  unfold num at 1 2. rewrite js_div_finite by done.
  set (x := (Q2Qc (inject_Z r) / Q2Qc (inject_Z l))%Qc).
  assert (Hx : (x == inject_Z r / inject_Z l)%Q).
  { unfold x, Qcdiv, Qcmult, Qcinv. simpl. by rewrite !Qred_correct. }
  clearbody x. destruct l as [|l'|l']; [lia| |lia].
  unfold Qeq, Qdiv, Qmult, Qinv in Hx. simpl in Hx.
  set (a := Qnum x) in *. set (b := Z.pos (Qden x)) in *.
  assert (Hb : (0 < b)%Z) by (unfold b; lia).
  assert (Hab : (a * Z.pos l' = r * b)%Z) by lia.
  clear Hx. set (l := Z.pos l') in *.
  assert (Ha : (0 < a)%Z) by nia.
  unfold binary64. fold a b. destruct a as [|a'|a'] eqn:Ea; [lia| |lia].
  rewrite <- Ea in *. clear Ea a'.
  unfold round_magnitude.
  destruct (binade_spec a b Ha Hb) as [Hlow Hupp].
  set (e := binade a b) in *. unfold pow2 in Hlow, Hupp.
  assert (He0 : (e ≤ 0)%Z).
  { destruct (Z.le_gt_cases e 0) as [|He]; [done|exfalso].
    rewrite (Z.max_r 0 e), (Z.max_l 0 (- e)) in Hlow by lia.
    assert (2 ^ 1 ≤ 2 ^ e)%Z by (apply Z.pow_le_mono_r; lia).
    change (2 ^ 1)%Z with 2%Z in *. change (2 ^ 0)%Z with 1%Z in *.
    change (2 ^ 53)%Z with (2 * 2 ^ 52)%Z in *.
    set (k := (2 ^ 52)%Z) in *. assert (0 < k)%Z by (unfold k; lia).
    revert Hlow H. generalize (2 ^ e)%Z. intros E Hlow HE.
    assert (k * (b * E) * l ≤ r * b)%Z by nia.
    assert (k * E * l ≤ r)%Z by nia. nia. }
  rewrite (Z.max_l 0 e), (Z.max_r 0 (- e)) in Hlow, Hupp by lia.
  change (2 ^ 0)%Z with 1%Z in *.
  assert (He : (-1074 ≤ e)%Z).
  { destruct (Z.le_gt_cases (-1074) e) as [|He]; [done|exfalso].
    assert (2 ^ 106 ≤ 2 ^ (- e))%Z by (apply Z.pow_le_mono_r; lia).
    change (2 ^ 106)%Z with (2 ^ 53 * 2 ^ 53)%Z in *.
    set (k := (2 ^ 53)%Z) in *. assert (0 < k)%Z by (unfold k; lia).
    revert Hupp H. generalize (2 ^ (- e))%Z. intros E Hupp HE.
    assert (a * E * l < k * (b * 1) * l)%Z by nia.
    assert (r * E < k * l)%Z by nia. nia. }
  rewrite (Z.max_l e) by lia. unfold pow2.
  rewrite (Z.max_l 0 e), (Z.max_r 0 (- e)) by lia.
  change (2 ^ 0)%Z with 1%Z.
  assert (HE : (0 < 2 ^ (- e))%Z) by (apply Z.pow_pos_nonneg; lia).
  set (E := (2 ^ (- e))%Z) in *.
  pose proof (round_half_even_spec (a * E) (b * 1) ltac:(lia)) as Hm.
  set (m := round_half_even (a * E) (b * 1)) in *.
  set (p := (- (- r / l))%Z).
  assert (Hp : ((p - 1) * l < r ≤ p * l)%Z).
  { pose proof (Z.div_mod (- r) l ltac:(lia)).
    pose proof (Z.mod_pos_bound (- r) l ltac:(lia)). unfold p. nia. }
  assert (Hp1 : (1 ≤ p)%Z) by nia.
  assert (HEl : (l < 2 * E)%Z).
  { change (2 ^ 52)%Z with 4503599627370496%Z in Hlow.
    change (2 ^ 53)%Z with 9007199254740992%Z in *.
    assert (4503599627370496 * (b * 1) * l ≤ r * b * E)%Z by nia.
    assert (4503599627370496 * l ≤ r * E)%Z by nia. nia. }
  assert (Hupper : (m ≤ p * E)%Z).
  { assert (a * l ≤ p * l * b)%Z by nia.
    assert (a ≤ p * b)%Z by nia.
    assert (2 * (m * b) ≤ 2 * (p * E) * b + b)%Z by nia. nia. }
  assert (Hlower : ((p - 1) * E < m)%Z).
  { assert (Hdelta : (b ≤ (a - (p - 1) * b) * l)%Z) by nia.
    assert (b * l < 2 * E * b)%Z by nia.
    assert (b * l < 2 * E * ((a - (p - 1) * b) * l))%Z by nia.
    assert (b < 2 * E * (a - (p - 1) * b))%Z by nia.
    assert (2 * ((p - 1) * E) * b < 2 * (m * b))%Z by nia. nia. }
  exists p. split; [|exact Hp].
  destruct (Z.eqb_spec m 0) as [|_]; [nia|].
  destruct (Z.ltb_spec 971 e) as [|_]; [lia|].
  destruct (Z.eqb_spec e 971) as [|_]; [lia|]. simpl orb. cbv iota.
  unfold Math_ceil.
  assert (Hceil : Qceiling (Q2Qc (Qred ((m * 1) # Z.to_pos E))) = p).
  { simpl this. rewrite !Qred_correct, Z.mul_1_r.
    apply Qceiling_unique; lia. }
  rewrite Hceil. destruct (Z.eqb_spec p 0) as [|_]; [lia|]. reflexivity.
Qed.

(** A positive integer divided by a zero: the infinity of the sign of the
    zero. *)
Lemma js_div_by_zero (r : Z) :
  (0 < r)%Z →
  js_div (num r) (num 0) = PosInf ∧ js_div (num r) NegZero = NegInf.
Proof.
  intros Hr. unfold js_div, num, is_zero, negative.
  rewrite (Qc_sign_pos r Hr). split; reflexivity.
Qed.

(** C1, refuted as stated.  The error names the operator only: the same
    disallowed operator under the fields [age] and [name] raises one and the
    same error in both revisions, so no field can be read off it.  Moreover a
    filter without any nested mapping, whose only value is an array, is
    rejected for the index of the array. *)
Lemma validateOperators_error_names_no_field :
  (Flat.validateOperators age_invalid gte_lte
     = Throw (Error "Operator '$invalidOperator' is not allowed.") ∧
   Flat.validateOperators name_invalid gte_lte
     = Throw (Error "Operator '$invalidOperator' is not allowed.") ∧
   Json.validateOperators age_invalid gte_lte
     = Throw (Error "Operator '$invalidOperator' is not allowed.") ∧
   Json.validateOperators name_invalid gte_lte
     = Throw (Error "Operator '$invalidOperator' is not allowed.")) ∧
  (Forall (fun e => ∀ o, snd e ≠ VObj o) tags_array ∧
   Flat.validateOperators tags_array gte_lte
     = Throw (Error "Operator '0' is not allowed.") ∧
   Json.validateOperators tags_array gte_lte
     = Throw (Error "Operator '0' is not allowed.")).
Proof.
  split; [repeat split; reflexivity|].
  split; [|split; reflexivity].
  repeat constructor. simpl. discriminate.
Qed.

(** C1, as amended.  When every key one level inside the values of the
    filter (the keys of nested mappings and the indices of arrays) is on the
    allow-list, [validateOperators] returns without error; when some key one
    level deep is not, it throws at the first such key in visiting order, and
    the message of the error holds that exact key.  The field is not part of
    the error.  For the JSON revision this is stated on filters that bind no
    field to [null]. *)
Theorem validateOperators_allow_list (q : obj) (allowed : list string) :
  (Forall (allowed_in allowed) (operator_keys q) →
   Flat.validateOperators q allowed = Ok tt ∧
   (null_free q → Json.validateOperators q allowed = Ok tt)) ∧
  (∀ pre operator post,
     operator_keys q = pre ++ operator :: post →
     Forall (allowed_in allowed) pre →
     includes allowed operator = false →
     Flat.validateOperators q allowed
       = Throw (Error ("Operator '" +:+ operator +:+ "' is not allowed.")) ∧
     (null_free q →
      Json.validateOperators q allowed
        = Throw (Error ("Operator '" +:+ operator +:+ "' is not allowed.")))).
Proof.
  split.
  - intros Hall. split.
    + rewrite Flat_validate_keys. by apply check_keys_allowed.
    + intros Hnull. rewrite Json_validate_keys by done.
      by apply check_keys_allowed.
  - intros pre operator post Hkeys Hpre Hop. split.
    + rewrite Flat_validate_keys, Hkeys. by apply check_keys_first.
    + intros Hnull. rewrite Json_validate_keys, Hkeys by done.
      by apply check_keys_first.
Qed.

Lemma validateOperators_allow_list_witness :
  (Flat.validateOperators age_adult gte_lte = Ok tt ∧
   Json.validateOperators age_adult gte_lte = Ok tt) ∧
  (Flat.validateOperators age_invalid gte_lte
     = Throw (Error "Operator '$invalidOperator' is not allowed.") ∧
   Json.validateOperators age_invalid gte_lte
     = Throw (Error "Operator '$invalidOperator' is not allowed.")).
Proof.
  split.
  - destruct (validateOperators_allow_list age_adult gte_lte) as [Hok _].
    destruct Hok as [Hflat Hjson].
    + repeat constructor.
    + split; [exact Hflat | apply Hjson; repeat constructor].
  - destruct (validateOperators_allow_list age_invalid gte_lte) as [_ Hbad].
    destruct (Hbad [] "$invalidOperator" []) as [Hflat Hjson];
      [reflexivity | constructor | reflexivity |].
    split; [exact Hflat | apply Hjson; repeat constructor].
Defined.

(** C7, refuted as stated.  The filter [tags_array] holds no nested mapping,
    its only value being an array, and yet the index ["0"] of that array is
    checked against the allow-list, in both revisions; parsing a decoded
    input that binds [tags] to that array fails for this reason. *)
Lemma validateOperators_checks_array_index :
  Forall (fun e => ∀ o, snd e ≠ VObj o) tags_array ∧
  Flat.validateOperators tags_array gte_lte
    = Throw (Error "Operator '0' is not allowed.") ∧
  Json.validateOperators tags_array gte_lte
    = Throw (Error "Operator '0' is not allowed.") ∧
  Json.parseQueryString (json_of tags_array) "" only_gte_lte
    = Throw (Error "Operator '0' is not allowed.") ∧
  Flat.parseQueryString (qs_of tags_array) json_fails "" only_gte_lte
    = Throw (Error "Operator '0' is not allowed.").
Proof.
  split; [|repeat split; reflexivity].
  repeat constructor. simpl. discriminate.
Qed.

(** C7, as amended.  Validation looks exactly one level inside each value of
    the filter.  It succeeds exactly when every own key of every value whose
    [typeof] is ['object'] (a nested mapping, or an array, whose indices are
    its keys) is on the allow-list; and its outcome is the same on any two
    filters that agree on those keys entry by entry, whatever the top-level
    field names are and whatever stands below the keys, so that neither a
    field name nor a key two or more levels deep is ever checked.  For the
    JSON revision the first part is stated on filters that bind no field to
    [null]. *)
Theorem validateOperators_one_level (q : obj) (allowed : list string) :
  (Flat.validateOperators q allowed = Ok tt
     ↔ Forall (allowed_in allowed) (operator_keys q)) ∧
  (null_free q →
   (Json.validateOperators q allowed = Ok tt
      ↔ Forall (allowed_in allowed) (operator_keys q))) ∧
  (∀ q' : obj,
     map level_one q = map level_one q' →
     Flat.validateOperators q allowed = Flat.validateOperators q' allowed ∧
     Json.validateOperators q allowed = Json.validateOperators q' allowed).
Proof.
  split; [|split].
  - rewrite Flat_validate_keys. split.
    + apply check_keys_ok_inv.
    + apply check_keys_allowed.
  - intros Hnull. rewrite Json_validate_keys by done. split.
    + apply check_keys_ok_inv.
    + apply check_keys_allowed.
  - revert allowed. induction q as [|[k v] q IH]; intros allowed [|[k' v'] q'] Heq;
      try discriminate; [done|].
    simpl in Heq. injection Heq as Hnull Hkeys Hrest.
    rewrite !Flat_validate_cons, !Json_validate_cons, Hnull, Hkeys.
    destruct (IH allowed q' Hrest) as [-> ->]. done.
Qed.

Lemma validateOperators_one_level_witness :
  Json.validateOperators age_deep gte_lte = Ok tt ∧
  Flat.validateOperators age_adult gte_lte
    = Flat.validateOperators age_deep gte_lte.
Proof.
  split.
  - destruct (validateOperators_one_level age_deep gte_lte) as (_ & Hjson & _).
    apply Hjson; repeat constructor.
  - destruct (validateOperators_one_level age_adult gte_lte) as (_ & _ & Hsame).
    apply (Hsame age_deep). reflexivity.
Defined.

(** C10, refuted as stated.  The filter [invalid_then_null] binds [name] to
    [null], but a disallowed operator is met first: the JSON revision raises
    the operator error, not a TypeError, and the flat revision does not
    return without error. *)
Lemma validateOperators_operator_error_before_null :
  In ("name", VNull) invalid_then_null ∧
  Json.validateOperators invalid_then_null gte_lte
    = Throw (Error "Operator '$invalidOperator' is not allowed.") ∧
  Flat.validateOperators invalid_then_null gte_lte
    = Throw (Error "Operator '$invalidOperator' is not allowed.").
Proof. split; [right; left; reflexivity | split; reflexivity]. Qed.

(** C10, as amended.  The JSON revision of [validateOperators] is not total:
    on every filter that binds some field to [null], with no disallowed key
    one level deep in the entries before that field, it throws a TypeError;
    whereas the flat revision, which guards [value !== null], returns without
    error on the same filter when the entries after the field hold no
    disallowed key either. *)
Theorem validateOperators_null (pre post : obj) (field : string)
    (allowed : list string) :
  Forall (allowed_in allowed) (operator_keys pre) →
  Json.validateOperators (pre ++ (field, VNull) :: post) allowed
    = Throw TypeError ∧
  (Forall (allowed_in allowed) (operator_keys post) →
   Flat.validateOperators (pre ++ (field, VNull) :: post) allowed = Ok tt).
Proof.
  intros Hpre. split.
  - induction pre as [|[k v] pre IH]; simpl.
    + by rewrite Json_validate_cons.
    + rewrite Json_validate_cons.
      destruct (is_null v) eqn:Hv; [reflexivity|].
      unfold operator_keys in Hpre. simpl in Hpre.
      apply Forall_app in Hpre as [Hv_keys Hpre_keys].
      rewrite (check_keys_allowed _ _ Hv_keys). by apply IH.
  - intros Hpost. rewrite Flat_validate_keys. apply check_keys_allowed.
    unfold operator_keys. rewrite flat_map_app. simpl.
    apply Forall_app. split; [exact Hpre | exact Hpost].
Qed.

Lemma validateOperators_null_witness :
  Json.validateOperators name_null gte_lte = Throw TypeError ∧
  Flat.validateOperators name_null gte_lte = Ok tt.
Proof.
  destruct (validateOperators_null age_adult [] "name" gte_lte)
    as [Hjson Hflat].
  - repeat constructor.
  - split; [exact Hjson | apply Hflat; constructor].
Defined.

(** ** The query façade *)

Lemma Json_query_after_parse JSON_parse model queryString options :
  Json.query JSON_parse model queryString options =
  bind (lift (Json.parseQueryString JSON_parse queryString options))
       (after_parse model options).
Proof. reflexivity. Qed.

Lemma Flat_query_after_parse qs_parse JSON_parse model queryString options :
  Flat.query qs_parse JSON_parse model queryString options =
  bind (lift (Flat.parseQueryString qs_parse JSON_parse queryString options))
       (after_parse model options).
Proof. reflexivity. Qed.

(** [omitFields] works on the store only. *)
Lemma forEach_M_calls {A} (f : A → M unit) (l : list A) (w : world) :
  (∀ x w, calls (f x w).2 = calls w) →
  calls (forEach_M f l w).2 = calls w.
Proof.
  intros Hf. revert w. induction l as [|x l IH]; intros w; simpl; [done|].
  unfold bind. specialize (Hf x w). destruct (f x w) as [[[]|e] w1]; simpl in *.
  - by rewrite IH.
  - done.
Qed.

Lemma map_M_calls {A B} (f : A → M B) (l : list A) (w : world) :
  (∀ x w, calls (f x w).2 = calls w) →
  calls (map_M f l w).2 = calls w.
Proof.
  intros Hf. revert w. induction l as [|x l IH]; intros w; simpl; [done|].
  unfold bind. specialize (Hf x w). destruct (f x w) as [[y|e] w1]; simpl in *.
  - specialize (IH w1). destruct (map_M f l w1) as [[ys|e] w2]; simpl in *;
      congruence.
  - done.
Qed.

Lemma omitFields_calls data fields w :
  calls (omitFields data fields w).2 = calls w.
Proof.
  unfold omitFields.
  destruct (heap w !! data) as [[fs|items]|]; try reflexivity.
  unfold bind.
  pose proof (map_M_calls (fun item =>
    (result <~ copy_record item ;;;
     _ <~ forEach_M (delete_field result) fields ;;; ret result)%world)
    items w) as Hmap.
  destruct (map_M _ items w) as [[outs|e] w1]; simpl in *.
  - apply Hmap. intros item w0. unfold bind, copy_record, alloc. simpl.
    match goal with |- context [forEach_M ?f ?l ?w] =>
      pose proof (forEach_M_calls f l w) as Hdel;
      destruct (forEach_M f l w) as [[[]|e] w2] end; simpl in *;
      apply Hdel; reflexivity.
  - apply Hmap. intros item w0. unfold bind, copy_record, alloc. simpl.
    match goal with |- context [forEach_M ?f ?l ?w] =>
      pose proof (forEach_M_calls f l w) as Hdel;
      destruct (forEach_M f l w) as [[[]|e'] w2] end; simpl in *;
      apply Hdel; reflexivity.
Qed.

Lemma after_parse_calls model options parsed w :
  let combinedFilter := spread (filter parsed) (extra_filter options) in
  calls (after_parse model options parsed w).2 =
    calls w ++
    CountDocuments combinedFilter ::
    match countDocuments model combinedFilter with
    | Ok _ => [Find combinedFilter (offset parsed) (limit parsed)
                 (sort parsed) (populate options)]
    | Throw _ => []
    end.
Proof.
  intros cf. unfold after_parse, bind, invoke. fold (extra_filter options).
  fold cf. simpl.
  destruct (countDocuments model cf) as [rows|e]; simpl; [|reflexivity].
  destruct (find_exec model cf _ _ _ _) as [recs|e]; simpl.
  - destruct (omitFields_opt options) as [fields|]; simpl.
    + match goal with |- context [omitFields ?d ?f ?w] =>
        pose proof (omitFields_calls d f w) as Homit;
        destruct (omitFields d f w) as [[r|e] w1] end; simpl in *;
        rewrite Homit, <- app_assoc; reflexivity.
    + rewrite <- app_assoc. reflexivity.
  - rewrite <- app_assoc. reflexivity.
Qed.

Lemma after_parse_ok model options parsed w res w' :
  after_parse model options parsed w = (Ok res, w') →
  ∃ rows,
    countDocuments model (spread (filter parsed) (extra_filter options))
      = Ok rows ∧
    pagination res =
      {| totalRows := rows;
         totalPages := Math_ceil (js_div rows (limit parsed)) |}.
Proof.
  unfold after_parse, bind, invoke. fold (extra_filter options). simpl.
  destruct (countDocuments model _) as [rows|e]; simpl; [|discriminate].
  destruct (find_exec model _ _ _ _ _) as [recs|e]; simpl; [|discriminate].
  destruct (omitFields_opt options) as [fields|]; simpl.
  - destruct (omitFields recs fields _) as [[r|e] w1]; [|discriminate].
    intros [= <- <-]. by exists rows.
  - intros [= <- <-]. by exists rows.
Qed.

Lemma ceil_zero_div (lim : number) :
  positive_number lim → Math_ceil (js_div (num 0) lim) = num 0.
Proof.
  destruct lim as [| | | |q]; intros Hpos; simpl in Hpos; try contradiction;
    [reflexivity|].
  rewrite js_div_zero by (unfold is_zero; by rewrite Hpos).
  unfold negative. rewrite Hpos. reflexivity.
Qed.

Lemma after_parse_pagination model options parsed w res w' :
  after_parse model options parsed w = (Ok res, w') →
  pagination_of parsed res.
Proof.
  intros Hrun. apply after_parse_ok in Hrun as (rows & _ & Hpag).
  unfold pagination_of. rewrite Hpag. simpl. split; [reflexivity|].
  intros -> Hpos. by apply ceil_zero_div.
Qed.

Lemma bind_lift_ok {A B} (r : result A) (k : A → M B) w b w' :
  bind (lift r) k w = (Ok b, w') → ∃ a, r = Ok a ∧ k a w = (Ok b, w').
Proof.
  unfold bind, lift. destruct r as [a|e]; [|discriminate]. by exists a.
Qed.

(** ** Parsing *)

Lemma decimal_digit_facts (c : ascii) :
  is_decimal_digit c = true →
  digit_of 10 c = Some (Z.of_nat (nat_of_ascii c) - 48)%Z ∧
  white_char [c] = false ∧
  Ascii.eqb c "0" && negb (Ascii.eqb c "0") = false ∧
  radix_of c = None ∧
  Ascii.eqb c "+" = false ∧
  Ascii.eqb c "-" = false ∧
  Ascii.eqb c "I" = false.
Proof.
  destruct c as [[] [] [] [] [] [] [] []]; intros H;
    try discriminate H; repeat split; reflexivity.
Qed.

Lemma read_decimal_digits (s : string) (acc : Z) (count : nat) (z : Z) :
  decimal_digits s acc = Some z →
  read_digits 10 acc count (list_ascii_of_string s)
    = (z, (count + String.length s)%nat, []).
Proof.
  revert acc count. induction s as [|c s IH]; intros acc count; simpl.
  - intros [= ->]. by rewrite Nat.add_0_r.
  - destruct (is_decimal_digit c) eqn:Hc; [|discriminate].
    destruct (decimal_digit_facts c Hc) as (-> & _). intros Hs.
    rewrite (IH _ (S count) Hs). f_equal. f_equal. lia.
Qed.

Lemma decimal_digits_all (s : string) (acc z : Z) :
  decimal_digits s acc = Some z →
  Forall (fun c => is_decimal_digit c = true) (list_ascii_of_string s).
Proof.
  revert acc. induction s as [|c s IH]; intros acc; simpl; [constructor|].
  destruct (is_decimal_digit c) eqn:Hc; [|discriminate].
  intros Hs. constructor; [done | by eapply IH].
Qed.

(** A decimal digit is no byte of a white space character. *)
Lemma digit_not_white (c : ascii) :
  is_decimal_digit c = true →
  white_char [c] = false ∧
  (∀ b, white_char [c; b] = false) ∧
  (∀ a b, white_char [c; a; b] = false) ∧
  (∀ b, white_char [b; c] = false) ∧
  (∀ a b, white_char [a; b; c] = false).
Proof.
  destruct c as [[] [] [] [] [] [] [] []]; intros H; try discriminate H;
    repeat split; intros; unfold white_char, code_point; simpl;
    rewrite ?andb_false_r; reflexivity.
Qed.

Lemma drop_white_digit (c : ascii) (l : list ascii) :
  is_decimal_digit c = true → drop_white (c :: l) = c :: l.
Proof.
  intros Hc. destruct (digit_not_white c Hc) as (H1 & H2 & H3 & _).
  simpl. rewrite H1. destruct l as [|b [|a l]]; [done|by rewrite H2|].
  by rewrite H2, H3.
Qed.

Lemma drop_white_end_digit (c : ascii) (l : list ascii) :
  is_decimal_digit c = true → drop_white_end (c :: l) = c :: l.
Proof.
  intros Hc. destruct (digit_not_white c Hc) as (H1 & _ & _ & H2 & H3).
  simpl. rewrite H1. destruct l as [|b [|a l]]; [done|by rewrite H2|].
  by rewrite H2, H3.
Qed.

Lemma trim_digits (l : list ascii) :
  Forall (fun c => is_decimal_digit c = true) l → trim l = l.
Proof.
  intros Hl. unfold trim.
  assert (Hdrop : drop_white l = l).
  { destruct Hl as [|c l Hc _]; [done | by apply drop_white_digit]. }
  rewrite Hdrop.
  assert (Hrev : Forall (fun c => is_decimal_digit c = true) (rev l)).
  { apply List.Forall_forall. intros c Hc. apply in_rev in Hc.
    by apply (proj1 (List.Forall_forall _ _) Hl). }
  assert (Hend : drop_white_end (rev l) = rev l).
  { destruct Hrev as [|c r Hc _]; [done | by apply drop_white_end_digit]. }
  rewrite Hend. apply rev_involutive.
Qed.

Lemma Number_string (s : string) : Number (VStr s) = Ok (StringToNumber s).
Proof. reflexivity. Qed.

Lemma decimal_digits_nonneg (s : string) (acc z : Z) :
  decimal_digits s acc = Some z → (0 ≤ acc)%Z → (0 ≤ z)%Z.
Proof.
  revert acc. induction s as [|c s IH]; intros acc; simpl.
  - by intros [= ->].
  - destruct (is_decimal_digit c) eqn:Hc; [|discriminate].
    intros Hs Hacc. apply (IH _ Hs).
    unfold is_decimal_digit in Hc. apply andb_prop in Hc as [Hc _].
    apply Nat.leb_le in Hc. lia.
Qed.

(** A string of decimal digits that denotes an integer of at most [2 ^ 53]
    converts to that integer. *)
Lemma StringToNumber_decimal (s : string) (z : Z) :
  decimal_value s = Some z → (z ≤ 2 ^ 53)%Z → StringToNumber s = num z.
Proof.
  destruct s as [|c s]; [discriminate|]. unfold decimal_value.
  intros Hs Hz.
  pose proof (decimal_digits_nonneg _ _ _ Hs ltac:(lia)) as Hz0.
  unfold StringToNumber.
  rewrite (trim_digits _ (decimal_digits_all _ _ _ Hs)).
  pose proof (read_decimal_digits _ 0 0 _ Hs) as Hread.
  simpl in Hs. destruct (is_decimal_digit c) eqn:Hc; [|discriminate].
  destruct (decimal_digit_facts c Hc) as (_ & _ & _ & _ & Hplus & Hminus & HI).
  change (list_ascii_of_string (String c s))
    with (c :: list_ascii_of_string s) in *.
  assert (Hprefix : radix_prefix (c :: list_ascii_of_string s) = None).
  { destruct s as [|c' s]; simpl; [reflexivity|].
    destruct (Ascii.eqb c "0"); [|reflexivity].
    simpl in Hs. destruct (is_decimal_digit c') eqn:Hc'; [|discriminate].
    by destruct (decimal_digit_facts c' Hc') as (_ & _ & _ & -> & _). }
  cbv iota beta. rewrite Hprefix, Hplus, Hminus.
  unfold signed_literal.
  assert (Hinf : String.eqb
            (string_of_list_ascii (c :: list_ascii_of_string s))
            "Infinity" = false).
  { simpl. by rewrite HI. }
  rewrite Hinf. unfold decimal_literal. rewrite Hread.
  change (- Z.of_nat 0)%Z with 0%Z. cbn [Nat.add String.length].
  unfold scale10. destruct (Z.eqb_spec z 0) as [->|_]; [reflexivity|].
  change (0 <=? 0)%Z with true. cbv iota.
  change (10 ^ 0)%Z with 1%Z. rewrite Z.mul_1_r.
  apply binary64_integer. lia.
Qed.

Lemma reduce_pure {A B} (g : B → A → B) (l : list A) (acc : B) :
  reduce (fun acc x => Ok (g acc x)) l acc = Ok (fold_left g l acc).
Proof. revert acc. induction l as [|x l IH]; intros acc; simpl; auto. Qed.

Lemma reduce_invariant {A B} (P : B → Prop) (f : B → A → result B) l acc r :
  (∀ acc x acc', P acc → f acc x = Ok acc' → P acc') →
  P acc → reduce f l acc = Ok r → P r.
Proof.
  intros Hstep. revert acc. induction l as [|x l IH]; intros acc Hacc; simpl.
  - by intros [= <-].
  - destruct (f acc x) as [acc'|e] eqn:Hf; [|discriminate].
    apply IH. by eapply Hstep.
Qed.

Lemma keys_define_key {V} (k' k : string) (v : V) (o : list (string * V)) :
  In k' (map fst (define_key k v o)) ↔ k' = k ∨ In k' (map fst o).
Proof.
  unfold define_key. destruct (has_key k o) eqn:Hk.
  - rewrite map_fst_replace_key. split; [tauto|].
    intros [->|Hin]; [|exact Hin].
    destruct (in_dec String.string_dec k (map fst o)) as [Hin|Hnot];
      [exact Hin|].
    apply has_key_false in Hnot. congruence.
  - rewrite map_app, in_app_iff. simpl. split.
    + intros [Hin|[<-|[]]]; auto.
    + intros [->|Hin]; auto.
Qed.

Lemma keys_assign_key {V} (k' k : string) (v : V) (o : list (string * V)) :
  In k' (map fst (assign_key k v o)) ↔
  (k' = k ∧ k ≠ "__proto__") ∨ In k' (map fst o).
Proof.
  unfold assign_key. destruct (String.eqb_spec k "__proto__") as [->|Hne].
  - split; [tauto|]. intros [[_ Hne]|Hin]; [congruence | exact Hin].
  - rewrite keys_define_key. split; [|tauto].
    intros [->|Hin]; auto.
Qed.

(** The own keys of an object filled by assignments, entry after entry. *)
Lemma reduce_assign_keys {A} (key_of : A → string)
    (f : obj → A → result obj) (l : list A) (acc r : obj) :
  (∀ acc x acc', f acc x = Ok acc' → ∃ v, acc' = assign_key (key_of x) v acc) →
  reduce f l acc = Ok r →
  ∀ k, In k (map fst r) ↔
       In k (map fst acc) ∨ (In k (map key_of l) ∧ k ≠ "__proto__").
Proof.
  intros Hstep. revert acc. induction l as [|x l IH]; intros acc; simpl.
  - intros [= <-] k. tauto.
  - destruct (f acc x) as [acc'|e] eqn:Hf; [|discriminate].
    destruct (Hstep _ _ _ Hf) as [v ->]. intros Hred k.
    rewrite (IH _ Hred k), keys_assign_key. split.
    + intros [[[-> Hne]|Hin]|[Hin Hne]]; auto.
    + intros [Hin|[[<-|Hin] Hne]]; auto.
Qed.

Lemma in_rest_entries (bound : list string) (o : obj) (k : string) :
  In k (map fst (rest_entries bound o)) ↔
  In k (map fst o) ∧ includes bound k = false.
Proof.
  unfold rest_entries. rewrite !in_map_iff. split.
  - intros ([k' v] & <- & Hin). apply filter_In in Hin as [Hin Hb].
    simpl in *. apply negb_true_iff in Hb. split; [|exact Hb].
    by exists (k', v).
  - intros [([k' v] & <- & Hin) Hb]. exists (k', v). split; [done|].
    apply filter_In. split; [exact Hin|]. simpl in *. by rewrite Hb.
Qed.

Lemma Json_parse_ok JSON_parse queryString options parsed :
  Json.parseQueryString JSON_parse queryString options = Ok parsed →
  ∃ query,
    JSON_parse queryString = Ok query ∧
    Json.validateOperators
      (rest_entries ["limit"; "offset"; "sort"; "justOne"; "count"] query)
      (default DefaultAllowedOperators (allowedOperators options)) = Ok tt ∧
    filter parsed =
      fold_left (fun acc '(key, value) =>
        assign_key key
          (if typeof_object value
           then VObj (spread [] (own_entries value))
           else value) acc)
        (rest_entries ["limit"; "offset"; "sort"; "justOne"; "count"] query)
        [] ∧
    Number (default DefaultLimit (lookup_key "limit" query))
      = Ok (limit parsed) ∧
    Number (default DefaultOffset (lookup_key "offset" query))
      = Ok (offset parsed).
Proof.
  unfold Json.parseQueryString, rbind.
  destruct (JSON_parse queryString) as [query|e]; [|discriminate].
  destruct (Json.validateOperators _ _) as [[]|e] eqn:Hval; [|discriminate].
  destruct (Number (default DefaultLimit _)) as [lim|e] eqn:Hlim;
    [|discriminate].
  destruct (Number (default DefaultOffset _)) as [off|e] eqn:Hoff;
    [|discriminate].
  intros [= <-]. exists query. simpl. auto.
Qed.

Lemma Json_parsed_filter_keys JSON_parse queryString options parsed query :
  JSON_parse queryString = Ok query →
  Json.parseQueryString JSON_parse queryString options = Ok parsed →
  ∀ k, In k (map fst (filter parsed)) ↔
       In k (map fst query) ∧ includes reserved_keys k = false
       ∧ k ≠ "__proto__".
Proof.
  intros Hquery Hparse.
  apply Json_parse_ok in Hparse as (query' & Hquery' & _ & Hfilter & _).
  assert (query' = query) as -> by congruence. intros k.
  match type of Hfilter with
  | _ = fold_left ?g ?l ?a => pose proof (reduce_pure g l a) as Hred
  end.
  rewrite <- Hfilter in Hred.
  eapply (reduce_assign_keys fst) with (k := k) in Hred as ->.
  - assert (Hsame : includes ["limit"; "offset"; "sort"; "justOne"; "count"] k
                    = includes reserved_keys k).
    { unfold includes, reserved_keys. simpl.
      destruct (k =? "limit")%string, (k =? "offset")%string,
        (k =? "sort")%string, (k =? "justOne")%string,
        (k =? "count")%string; reflexivity. }
    rewrite in_rest_entries, Hsame. simpl. tauto.
  - intros acc [key value] acc' [= <-]. eauto.
Qed.

Lemma Flat_parse_ok qs_parse JSON_parse queryString options parsed :
  Flat.parseQueryString qs_parse JSON_parse queryString options = Ok parsed →
  ∃ step,
    (∀ acc e acc', step acc e = Ok acc' →
                   ∃ v, acc' = assign_key (fst e) v acc) ∧
    reduce step
      (List.filter (fun e => negb (includes
         ["limit"; "offset"; "sort"; "count"; "justOne"] (fst e)))
         (qs_parse queryString)) [] = Ok (filter parsed) ∧
    Flat.validateOperators (filter parsed)
      (default DefaultAllowedOperators (allowedOperators options)) = Ok tt ∧
    Number (or_else (lookup_key "limit" (qs_parse queryString))
              DefaultLimit) = Ok (limit parsed) ∧
    Number (or_else (lookup_key "offset" (qs_parse queryString))
              DefaultOffset) = Ok (offset parsed).
Proof.
  unfold Flat.parseQueryString, rbind.
  destruct (Number (or_else _ DefaultLimit)) as [lim|e] eqn:Hlim;
    [|discriminate].
  destruct (Number (or_else _ DefaultOffset)) as [off|e] eqn:Hoff;
    [|discriminate].
  match goal with |- context [reduce ?f ?l ?acc] =>
    destruct (reduce f l acc) as [filters|e] eqn:Hred; [|discriminate];
    intros Hparse; exists f end.
  destruct (Flat.validateOperators _ _) as [[]|e] eqn:Hval; [|discriminate].
  injection Hparse as <-. simpl. split; [|auto].
  intros acc [key value] acc'. simpl.
  destruct (Flat.json_like value) as [s|].
  - destruct (JSON_parse s) as [o|e]; [|discriminate]. intros [= <-]. eauto.
  - destruct (typeof_object value && negb (is_null value)).
    + destruct (reduce _ (own_entries value) _) as [sub|e]; [|discriminate].
      intros [= <-]. eauto.
    + unfold Flat.coerce, rbind.
      destruct (Number value) as [n|e]; [|discriminate].
      intros [= <-]. eauto.
Qed.

Lemma Flat_parsed_filter_keys qs_parse JSON_parse queryString options parsed :
  Flat.parseQueryString qs_parse JSON_parse queryString options = Ok parsed →
  ∀ k, In k (map fst (filter parsed)) ↔
       In k (map fst (qs_parse queryString))
       ∧ includes reserved_keys k = false ∧ k ≠ "__proto__".
Proof.
  intros Hparse.
  apply Flat_parse_ok in Hparse as (step & Hstep & Hred & _). intros k.
  rewrite (reduce_assign_keys fst step _ [] _ Hstep Hred k).
  rewrite !in_map_iff. split.
  - intros [(? & _ & [])|[([k' v] & <- & Hin) Hne]].
    apply filter_In in Hin as [Hin Hb].
    split; [|split; [|exact Hne]].
    + by exists (k', v).
    + apply negb_true_iff in Hb. exact Hb.
  - intros (([k' v] & <- & Hin) & Hb & Hne). right. split; [|exact Hne].
    exists (k', v). split; [done|].
    apply filter_In. split; [exact Hin|].
    apply negb_true_iff. exact Hb.
Qed.

Lemma Json_parsed_filter_NoDup JSON_parse queryString options parsed :
  Json.parseQueryString JSON_parse queryString options = Ok parsed →
  NoDup (map fst (filter parsed)).
Proof.
  intros Hparse.
  apply Json_parse_ok in Hparse as (query & _ & _ & Hfilter & _).
  match type of Hfilter with
  | _ = fold_left ?g ?l ?a => pose proof (reduce_pure g l a) as Hred
  end.
  rewrite <- Hfilter in Hred.
  apply (reduce_invariant (fun o : obj => NoDup (map fst o))) in Hred;
    [exact Hred | | constructor].
  intros acc [key value] acc' Hacc [= <-]. by apply NoDup_assign_key.
Qed.

Lemma Flat_parsed_filter_NoDup qs_parse JSON_parse queryString options parsed :
  Flat.parseQueryString qs_parse JSON_parse queryString options = Ok parsed →
  NoDup (map fst (filter parsed)).
Proof.
  intros Hparse.
  apply Flat_parse_ok in Hparse as (step & Hstep & Hred & _).
  apply (reduce_invariant (fun o : obj => NoDup (map fst o))) in Hred;
    [exact Hred | | constructor].
  intros acc e acc' Hacc Hdone. destruct (Hstep _ _ _ Hdone) as [v ->].
  by apply NoDup_assign_key.
Qed.

(** ** Field omission on the store *)

Lemma omit_entries_nil fs : omit_entries [] fs = fs.
Proof.
  unfold omit_entries. induction fs as [|e fs IH]; simpl in *; [done|].
  by rewrite IH.
Qed.

Lemma filter_filter_bool {A} (p q : A → bool) (l : list A) :
  List.filter p (List.filter q l) = List.filter (fun x => q x && p x) l.
Proof.
  induction l as [|x l IH]; simpl; [done|].
  destruct (q x) eqn:Hq; simpl; [|exact IH].
  destruct (p x); by rewrite IH.
Qed.

Lemma omit_entries_cons field fields fs :
  omit_entries (field :: fields) fs = omit_entries fields (delete_key field fs).
Proof.
  unfold omit_entries, delete_key. rewrite filter_filter_bool.
  apply filter_ext. intros [k v]. unfold includes. simpl.
  rewrite (String.eqb_sym field k). by rewrite negb_orb.
Qed.

Lemma fold_delete_omit fields fs :
  fold_left (fun fs field => delete_key field fs) fields fs
  = omit_entries fields fs.
Proof.
  revert fs. induction fields as [|field fields IH]; intros fs; simpl.
  - by rewrite omit_entries_nil.
  - by rewrite IH, omit_entries_cons.
Qed.

Lemma omit_entries_idem fields fs :
  omit_entries fields (omit_entries fields fs) = omit_entries fields fs.
Proof.
  unfold omit_entries. rewrite filter_filter_bool.
  apply filter_ext. intros e. by destruct (negb (includes fields e.1)).
Qed.

Lemma NoDup_omit_entries fields fs :
  NoDup (map fst fs) → NoDup (map fst (omit_entries fields fs)).
Proof.
  unfold omit_entries. induction fs as [|[k v] fs IH]; simpl; [done|].
  intros Hnd. apply NoDup_cons in Hnd as [Hk Hnd].
  destruct (negb (includes fields k)); simpl; [|by apply IH].
  apply NoDup_cons. split; [|by apply IH].
  intros Hin. apply Hk. apply list_elem_of_In in Hin.
  apply list_elem_of_In. apply in_map_iff in Hin as (e & He & Hin).
  apply filter_In in Hin as [Hin _]. apply in_map_iff. by exists e.
Qed.

(** Deleting the fields of the record allocated last. *)
Lemma forEach_delete_last (h : list cell) cs fields fs :
  forEach_M (delete_field (List.length h)) fields
    {| heap := h ++ [CRec fs]; calls := cs |}
  = (Ok tt, {| heap := h ++ [CRec (omit_entries fields fs)]; calls := cs |}).
Proof.
  rewrite <- fold_delete_omit.
  revert fs. induction fields as [|field fields IH]; intros fs; simpl.
  - reflexivity.
  - unfold bind, delete_field. simpl.
    replace (List.length h) with (List.length h + 0)%nat at 1 by lia.
    rewrite alter_app_r. simpl. apply IH.
Qed.

(** One round of the callback of [map]: a copy of the record is allocated,
    then stripped of the fields. *)
Lemma copy_and_delete (h : list cell) cs fields item :
  (result <~ copy_record item ;;;
   _ <~ forEach_M (delete_field result) fields ;;;
   ret result)%world {| heap := h; calls := cs |}
  = (Ok (List.length h),
     {| heap := h ++ [CRec (omit_entries fields
                              (spread [] (cell_entries (h !! item))))];
        calls := cs |}).
Proof.
  unfold bind, copy_record, alloc. simpl.
  rewrite forEach_delete_last. reflexivity.
Qed.

Lemma map_M_alloc (f : loc → M loc) (g : loc → cell) (h0 : list cell) cs
    (items : list loc) :
  (∀ item news,
     (item < List.length h0)%nat →
     f item {| heap := h0 ++ news; calls := cs |}
     = (Ok (List.length (h0 ++ news)),
        {| heap := (h0 ++ news) ++ [g item]; calls := cs |})) →
  Forall (fun l => (l < List.length h0)%nat) items →
  ∀ news,
    map_M f items {| heap := h0 ++ news; calls := cs |}
    = (Ok (seq (List.length (h0 ++ news)) (List.length items)),
       {| heap := (h0 ++ news) ++ map g items; calls := cs |}).
Proof.
  intros Hf. induction 1 as [|item items Hitem _ IH]; intros news; simpl.
  - by rewrite app_nil_r.
  - unfold bind. rewrite (Hf item news Hitem).
    rewrite <- (app_assoc h0 news [g item]), IH.
    rewrite !length_app. simpl.
    replace (List.length h0 + (List.length news + 1))%nat
      with (S (List.length h0 + List.length news)) by lia.
    by rewrite <- !app_assoc.
Qed.

(** What [omitFields] computes on an array whose records are allocated. *)
Lemma omitFields_spec w data fields items :
  heap w !! data = Some (CArr items) →
  allocated w items →
  omitFields data fields w
  = (Ok (List.length (heap w) + List.length items)%nat,
     {| heap :=
          heap w ++
          map (fun item => CRec (omit_entries fields
                                   (spread [] (record_at w item)))) items ++
          [CArr (seq (List.length (heap w)) (List.length items))];
        calls := calls w |}).
Proof.
  intros Hdata Hitems. unfold omitFields. rewrite Hdata. unfold bind.
  destruct w as [h cs]. simpl in *.
  pose proof (map_M_alloc
    (fun item => (result <~ copy_record item ;;;
                  _ <~ forEach_M (delete_field result) fields ;;;
                  ret result)%world)
    (fun item => CRec (omit_entries fields
                         (spread [] (cell_entries (h !! item)))))
    h cs items) as Hmap.
  rewrite <- (app_nil_r h) at 1.
  rewrite Hmap; [| |exact Hitems].
  - unfold alloc. simpl. rewrite !app_nil_r, length_app, length_map.
    by rewrite <- app_assoc.
  - intros item news Hitem. rewrite copy_and_delete.
    by rewrite (lookup_app_l h news item Hitem).
Qed.

(** Reading back a block of records through consecutive references. *)
Lemma records_block (pre post : list cell) rs cs :
  map (record_at {| heap := pre ++ map CRec rs ++ post; calls := cs |})
      (seq (List.length pre) (List.length rs)) = rs.
Proof.
  revert pre. induction rs as [|r rs IH]; intros pre; simpl; [done|].
  f_equal.
  - unfold record_at. simpl. by rewrite list_lookup_middle.
  - specialize (IH (pre ++ [CRec r])).
    rewrite length_app in IH. simpl in IH.
    replace (List.length pre + 1)%nat with (S (List.length pre)) in IH by lia.
    rewrite <- app_assoc in IH. exact IH.
Qed.

(** ** The embedding against the test suite *)

(** [should parse query string correctly], JSON revision: the two records
    come back without [age], the pagination is 2 rows on 1 page, and the
    model is asked for [{age: {$gte: 18}}] with skip 0, limit 5 and the
    requested sort. *)
Example test_parse_query_string :
  ∃ w',
    Json.query (json_of adults_by_age) (mock_model 2) "" role_without_age
      john_jane
    = (Ok {| records := 5%nat;
             pagination := {| totalRows := num 2; totalPages := num 1 |} |},
       w') ∧
    records_at w' 5%nat
      = Some [[("name", FData (VStr "John Doe"))];
              [("name", FData (VStr "Jane Doe"))]] ∧
    calls w'
      = [CountDocuments age_adult;
         Find age_adult (num 0) (num 5) (VObj [("age", VNum (num (-1)))])
           (Some (VArr [VObj [("path", VStr "role")]]))].
Proof. eexists. split; [vm_compute; reflexivity|]. split; reflexivity. Qed.

(** [should handle pagination and sorting correctly], JSON revision: 3 rows
    with a limit of 1 make 3 pages, and the model is asked for the extra
    filter [{isActive: true}]. *)
Example test_pagination_and_sorting :
  ∃ w',
    Json.query (json_of second_page) (mock_model 3) "" is_active john_jane
    = (Ok {| records := 0%nat;
             pagination := {| totalRows := num 3; totalPages := num 3 |} |},
       w') ∧
    calls w'
      = [CountDocuments [("isActive", VBool true)];
         Find [("isActive", VBool true)] (num 1) (num 1)
           (VObj [("age", VNum (num (-1)))]) None].
Proof. eexists. split; [vm_compute; reflexivity | reflexivity]. Qed.

(** [should return empty records if no documents found]: no row, limit 10,
    no page. *)
Example test_no_documents :
  ∃ w',
    Json.query
      (json_of [("limit", VNum (num 10)); ("offset", VNum (num 0))])
      empty_model "" no_options empty_world
    = (Ok {| records := 0%nat;
             pagination := {| totalRows := num 0; totalPages := num 0 |} |},
       w').
Proof. eexists. vm_compute. reflexivity. Qed.

(** [should validate operators and throw error for invalid ones], flat
    revision. *)
Example test_invalid_operator :
  Flat.query (qs_of age_invalid) json_fails empty_model "" only_gte_lte
    empty_world
  = (Throw (Error "Operator '$invalidOperator' is not allowed."),
     empty_world).
Proof. reflexivity. Qed.

(** [should parse query string and execute query correctly], flat revision:
    the string leaves are converted, and the model is asked for
    [{age: {$gte: 18}}]. *)
Example test_flat_query :
  ∃ w',
    Flat.query (qs_of adults_by_age_qs) json_fails (mock_model 2) ""
      no_options john_jane
    = (Ok {| records := 0%nat;
             pagination := {| totalRows := num 2; totalPages := num 1 |} |},
       w') ∧
    calls w'
      = [CountDocuments age_adult;
         Find age_adult (num 0) (num 5) (VObj [("age", VStr "-1")]) None].
Proof. eexists. split; [vm_compute; reflexivity | reflexivity]. Qed.

(** ** The arithmetic against the specification of binary64 *)

(** Division agrees with [SFdiv], the division of the Standard Library's
    specification of IEEE 754 arithmetic at precision 53 and maximal
    exponent 1024, on every pair of the sample values: exact quotients,
    rounding up and down, ties, overflow, gradual underflow and the signs of
    zeros and infinities. *)
Example test_division_against_SFdiv :
  forallb (fun x =>
    forallb (fun y =>
      number_eqb (of_spec_float (SFdiv 53 1024 x y))
                 (js_div (of_spec_float x) (of_spec_float y)))
      sample_doubles)
    sample_doubles = true.
Proof. vm_compute. reflexivity. Qed.

(** The conversion of strings: an integer of 54 bits is rounded to even,
    [1e400] overflows, the least subnormal number and half of it, the
    negative zero, a fraction, a hexadecimal literal, surrounding white
    space with the no-break space and the byte order mark, and strings
    that are no numbers. *)
Example test_string_to_number :
  StringToNumber "9007199254740993" = num 9007199254740992 ∧
  StringToNumber "9007199254740995" = num 9007199254740996 ∧
  StringToNumber "1e400" = PosInf ∧
  StringToNumber "-1e400" = NegInf ∧
  StringToNumber "5e-324" = of_spec_float (S754_finite false 1 (-1074)) ∧
  StringToNumber "2e-324" = num 0 ∧
  StringToNumber "-0" = NegZero ∧
  StringToNumber "-2e-324" = NegZero ∧
  StringToNumber "0.1"
    = of_spec_float (S754_finite false 7205759403792794 (-56)) ∧
  StringToNumber "1.5" = js_div (num 3) (num 2) ∧
  StringToNumber "0x1F" = num 31 ∧
  StringToNumber "" = num 0 ∧
  StringToNumber (no_break_space +:+ " 12 " +:+ byte_order_mark) = num 12 ∧
  StringToNumber (String (ascii_of_nat 160) "12") = NaN ∧
  StringToNumber "-Infinity" = NegInf ∧
  StringToNumber "12px" = NaN ∧
  StringToNumber "-0x10" = NaN ∧
  StringToNumber "1,5" = NaN.
Proof. vm_compute. repeat split; reflexivity. Qed.

(** [Math.ceil] of quotients: [21 / 0.7] is just above 30, a count of
    [2 ^ 55] by 3 rows a page falls one page short, and a quotient between
    -1 and 0 gives the negative zero. *)
Example test_ceil_of_quotient :
  Math_ceil (js_div (num 21) (StringToNumber "0.7")) = num 31 ∧
  Math_ceil (js_div (num (2 ^ 55)) (num 3)) = num 12009599006321322 ∧
  (12009599006321322 * 3 < 2 ^ 55)%Z ∧
  Math_ceil (js_div (num (-1)) (num 2)) = NegZero ∧
  js_div (num 5) NegZero = NegInf.
Proof. vm_compute. repeat split; reflexivity. Qed.

(** C2, refuted as stated.  With a requested limit of 0 and a count of 0 the
    query completes, in both revisions, with [totalRows = 0] and
    [totalPages = NaN], the value of [Math.ceil(0 / 0)], not 0. *)
Lemma query_total_pages_zero_limit :
  (∃ res w',
     Json.query (json_of limit_zero) empty_model "" no_options empty_world
       = (Ok res, w') ∧
     totalRows (pagination res) = num 0 ∧
     totalPages (pagination res) = NaN) ∧
  (∃ res w',
     Flat.query (qs_of limit_zero_string) json_fails empty_model "" no_options
       empty_world = (Ok res, w') ∧
     totalRows (pagination res) = num 0 ∧
     totalPages (pagination res) = NaN).
Proof.
  split; eexists _, _; (split; [vm_compute; reflexivity|]);
    split; reflexivity.
Qed.

(** C2, as amended.  For every completed query invocation, in both
    revisions, the returned pagination satisfies
    [totalPages = Math.ceil(totalRows / limit)] for the parsed limit, and
    whenever [totalRows = 0] and the parsed limit is a positive number,
    [totalPages = 0]. *)
Theorem query_total_pages JSON_parse qs_parse JSON_parse' model queryString
    options w res w' :
  (Json.query JSON_parse model queryString options w = (Ok res, w') →
   ∃ parsed,
     Json.parseQueryString JSON_parse queryString options = Ok parsed ∧
     pagination_of parsed res) ∧
  (Flat.query qs_parse JSON_parse' model queryString options w
     = (Ok res, w') →
   ∃ parsed,
     Flat.parseQueryString qs_parse JSON_parse' queryString options
       = Ok parsed ∧
     pagination_of parsed res).
Proof.
  split.
  - rewrite Json_query_after_parse. intros Hrun.
    apply bind_lift_ok in Hrun as (parsed & Hparse & Hrun).
    exists parsed. split; [exact Hparse|].
    by eapply after_parse_pagination.
  - rewrite Flat_query_after_parse. intros Hrun.
    apply bind_lift_ok in Hrun as (parsed & Hparse & Hrun).
    exists parsed. split; [exact Hparse|].
    by eapply after_parse_pagination.
Qed.

Lemma query_total_pages_witness :
  ∃ parsed,
    Json.parseQueryString (json_of age_adult) "" no_options = Ok parsed ∧
    pagination_of parsed
      {| records := 0%nat;
         pagination := {| totalRows := num 0; totalPages := num 0 |} |}.
Proof.
  destruct (query_total_pages (json_of age_adult) (qs_of age_adult) json_fails
              empty_model "" no_options empty_world
              {| records := 0%nat;
                 pagination := {| totalRows := num 0; totalPages := num 0 |} |}
              {| heap := [CArr []];
                 calls := [CountDocuments age_adult;
                           Find age_adult (num 0) (num 20) (VObj []) None] |})
    as [Hjson _].
  apply Hjson. vm_compute. reflexivity.
Defined.

(** C3, refuted as stated.  In the JSON revision the default applies to an
    absent key only: a limit of 0, which is falsy, is kept, so the parsed
    limit is 0 and not 20.  In both revisions a limit supplied as the
    numeric string [1.5] is parsed to 1.5, which is no integer. *)
Lemma parse_limit_not_default_nor_integer :
  (absent_or_falsy (lookup_key "limit" limit_zero) ∧
   ∃ parsed,
     Json.parseQueryString (json_of limit_zero) "" no_options = Ok parsed ∧
     limit parsed = num 0 ∧
     limit parsed ≠ num 20) ∧
  (∃ parsed,
     Json.parseQueryString (json_of limit_fraction) "" no_options
       = Ok parsed ∧
     limit parsed = js_div (num 3) (num 2) ∧
     ∀ z, limit parsed ≠ num z) ∧
  (∃ parsed,
     Flat.parseQueryString (qs_of limit_fraction) json_fails "" no_options
       = Ok parsed ∧
     limit parsed = js_div (num 3) (num 2) ∧
     ∀ z, limit parsed ≠ num z).
Proof.
  assert (Hfrac : ∀ z, Fin (Q2Qc (3 # 2)) ≠ num z).
  { intros z H.
    apply (f_equal (fun n => match n with
                             | Fin q => Qden q
                             | _ => 1%positive
                             end)) in H.
    unfold num in H. rewrite Qc_of_Z in H. discriminate H. }
  split; [|split].
  - split; [reflexivity|]. eexists. split; [vm_compute; reflexivity|].
    split; [reflexivity|]. simpl. intros [= H].
  - eexists. split; [vm_compute; reflexivity|].
    split; [vm_compute; reflexivity | exact Hfrac].
  - eexists. split; [vm_compute; reflexivity|].
    split; [vm_compute; reflexivity | exact Hfrac].
Qed.

(** C3, as amended.  In both revisions, when the key [limit] (respectively
    [offset]) is absent from the decoded input, the parsed spec has
    [limit = 20] (respectively [offset = 0]), and when it is a string, the
    parsed spec holds the number that string converts to: for a string of
    decimal digits that denotes an integer of at most [2 ^ 53], that
    integer.  In the flat revision the default is also taken when the value
    is falsy, the empty string included.  In the JSON revision a value that
    is present and falsy is converted like any other, which gives 0 for
    [limit] as for [offset], and the negative zero for the negative zero. *)
Theorem parse_limit_offset JSON_parse qs_parse JSON_parse' queryString
    options :
  (∀ query parsed,
     JSON_parse queryString = Ok query →
     Json.parseQueryString JSON_parse queryString options = Ok parsed →
     (lookup_key "limit" query = None → limit parsed = num 20) ∧
     (lookup_key "offset" query = None → offset parsed = num 0) ∧
     (∀ s, lookup_key "limit" query = Some (VStr s) →
           limit parsed = StringToNumber s) ∧
     (∀ s, lookup_key "offset" query = Some (VStr s) →
           offset parsed = StringToNumber s) ∧
     (∀ z, numeric_string (lookup_key "limit" query) z → (z ≤ 2 ^ 53)%Z →
           limit parsed = num z) ∧
     (∀ z, numeric_string (lookup_key "offset" query) z → (z ≤ 2 ^ 53)%Z →
           offset parsed = num z) ∧
     (present_falsy (lookup_key "limit" query) → limit parsed = num 0) ∧
     (present_falsy (lookup_key "offset" query) → offset parsed = num 0) ∧
     (lookup_key "limit" query = Some (VNum NegZero) →
      limit parsed = NegZero) ∧
     (lookup_key "offset" query = Some (VNum NegZero) →
      offset parsed = NegZero)) ∧
  (∀ parsed,
     Flat.parseQueryString qs_parse JSON_parse' queryString options
       = Ok parsed →
     (absent_or_falsy (lookup_key "limit" (qs_parse queryString)) →
      limit parsed = num 20) ∧
     (absent_or_falsy (lookup_key "offset" (qs_parse queryString)) →
      offset parsed = num 0) ∧
     (∀ s, lookup_key "limit" (qs_parse queryString) = Some (VStr s) →
           s ≠ "" → limit parsed = StringToNumber s) ∧
     (∀ s, lookup_key "offset" (qs_parse queryString) = Some (VStr s) →
           s ≠ "" → offset parsed = StringToNumber s) ∧
     (∀ z, numeric_string (lookup_key "limit" (qs_parse queryString)) z →
           (z ≤ 2 ^ 53)%Z → limit parsed = num z) ∧
     (∀ z, numeric_string (lookup_key "offset" (qs_parse queryString)) z →
           (z ≤ 2 ^ 53)%Z → offset parsed = num z)).
Proof.
  split.
  - intros query parsed Hquery Hparse.
    apply Json_parse_ok in Hparse as (query' & Hquery' & _ & _ & Hlim & Hoff).
    assert (query' = query) as -> by congruence.
    assert (Hfalsy : ∀ v d n, present_falsy v →
              Number (default d v) = Ok n → n = num 0).
    { intros v d n (x & -> & Hx & Hnan & Hneg). simpl.
      destruct x as [|[]|[| | | |q]|s|l|o]; try discriminate Hx;
        try congruence; try (by intros [= <-]).
      - simpl in Hx. apply negb_false_iff in Hx. unfold is_zero in Hx.
        destruct (Qc_sign q) eqn:Hq; try discriminate Hx.
        apply Qceq_alt in Hq. subst q. by intros [= <-].
      - simpl in Hx. apply negb_false_iff, String.eqb_eq in Hx. subst s.
        by intros [= <-]. }
    assert (Hstring : ∀ v d n s, v = Some (VStr s) →
              Number (default d v) = Ok n → n = StringToNumber s).
    { intros v d n s ->. simpl. rewrite Number_string. by intros [= <-]. }
    assert (Hdigits : ∀ v d n z, numeric_string v z → (z ≤ 2 ^ 53)%Z →
              Number (default d v) = Ok n → n = num z).
    { intros v d n z (s & Hs & Hz) Hle Hn.
      rewrite (Hstring _ _ _ _ Hs Hn). by apply StringToNumber_decimal. }
    repeat split.
    + intros Habsent. rewrite Habsent in Hlim. by injection Hlim as <-.
    + intros Habsent. rewrite Habsent in Hoff. by injection Hoff as <-.
    + intros s Hs. by eapply Hstring.
    + intros s Hs. by eapply Hstring.
    + intros z Hz Hle. by eapply Hdigits.
    + intros z Hz Hle. by eapply Hdigits.
    + intros H. by eapply Hfalsy.
    + intros H. by eapply Hfalsy.
    + intros H. rewrite H in Hlim. by injection Hlim as <-.
    + intros H. rewrite H in Hoff. by injection Hoff as <-.
  - intros parsed Hparse.
    apply Flat_parse_ok in Hparse as (_ & _ & _ & _ & Hlim & Hoff).
    assert (Hdefault : ∀ v d, absent_or_falsy v → or_else v d = d).
    { intros [v|] d; simpl; [|done]. by intros ->. }
    assert (Hstring : ∀ v d n s, v = Some (VStr s) → s ≠ "" →
              Number (or_else v d) = Ok n → n = StringToNumber s).
    { intros v d n s -> Hs. simpl.
      destruct (String.eqb_spec s "") as [|_]; [done|]. simpl.
      rewrite Number_string. by intros [= <-]. }
    assert (Hdigits : ∀ v d n z, numeric_string v z → (z ≤ 2 ^ 53)%Z →
              Number (or_else v d) = Ok n → n = num z).
    { intros v d n z (s & Hs & Hz) Hle Hn.
      assert (Hne : s ≠ "") by (intros ->; discriminate Hz).
      rewrite (Hstring _ _ _ _ Hs Hne Hn). by apply StringToNumber_decimal. }
    repeat split.
    + intros H. rewrite (Hdefault _ _ H) in Hlim. by injection Hlim as <-.
    + intros H. rewrite (Hdefault _ _ H) in Hoff. by injection Hoff as <-.
    + intros s Hs Hne. by eapply Hstring.
    + intros s Hs Hne. by eapply Hstring.
    + intros z Hz Hle. by eapply Hdigits.
    + intros z Hz Hle. by eapply Hdigits.
Qed.

Lemma parse_limit_offset_witness :
  ∃ parsed,
    Flat.parseQueryString (qs_of limit_string) json_fails "" no_options
      = Ok parsed ∧
    limit parsed = num 5 ∧ offset parsed = num 10.
Proof.
  eexists. split; [vm_compute; reflexivity|].
  destruct (parse_limit_offset (json_of limit_string) (qs_of limit_string)
              json_fails "" no_options) as [_ Hflat].
  edestruct Hflat as (_ & _ & _ & _ & Hlimit & Hoffset);
    [vm_compute; reflexivity|].
  split.
  - apply Hlimit; [|vm_compute; discriminate].
    exists "5". split; reflexivity.
  - apply Hoffset; [|vm_compute; discriminate].
    exists "10". split; reflexivity.
Defined.

(** C4, evaluated at the failing input.  The decoded input binds the single
    top-level key [__proto__], which is not reserved, to the number 1;
    parsing succeeds in the JSON revision and the parsed filter has no entry
    at all: the assignment [acc[key] = ...] that fills the filter reaches the
    inherited [__proto__] setter instead of creating an entry. *)
Theorem Json_parse_drops_proto_key :
  includes reserved_keys "__proto__" = false ∧
  In "__proto__" (map fst proto_filter) ∧
  ∃ parsed,
    Json.parseQueryString (json_of proto_filter) "" only_gte_lte = Ok parsed ∧
    filter parsed = [].
Proof.
  split; [reflexivity|]. split; [left; reflexivity|].
  eexists. split; [vm_compute; reflexivity | reflexivity].
Qed.

(** C5.  In both revisions, once parsing has succeeded, the filter passed to
    [countDocuments] and to [find] is one and the same merged filter: it
    reads every key as the extra filter [options.queryMongoose] where the
    extra filter binds it and as the parsed filter elsewhere, so it holds
    every key of both and the extra value wins on a key present in both. *)
Theorem query_merges_extra_filter JSON_parse qs_parse JSON_parse' model
    queryString options w :
  NoDup (map fst (extra_filter options)) →
  (∀ parsed,
     Json.parseQueryString JSON_parse queryString options = Ok parsed →
     passes_merged_filter model options parsed w
       (Json.query JSON_parse model queryString options w).2) ∧
  (∀ parsed,
     Flat.parseQueryString qs_parse JSON_parse' queryString options
       = Ok parsed →
     passes_merged_filter model options parsed w
       (Flat.query qs_parse JSON_parse' model queryString options w).2).
Proof.
  intros Hextra.
  assert (Hmerged : ∀ parsed,
            NoDup (map fst (filter parsed)) →
            passes_merged_filter model options parsed w
              (after_parse model options parsed w).2).
  { intros parsed Hnd.
    exists (spread (filter parsed) (extra_filter options)). split.
    - intros k. by apply lookup_spread.
    - apply after_parse_calls. }
  split; intros parsed Hparse.
  - rewrite Json_query_after_parse. unfold bind, lift. rewrite Hparse.
    apply Hmerged. by eapply Json_parsed_filter_NoDup.
  - rewrite Flat_query_after_parse. unfold bind, lift. rewrite Hparse.
    apply Hmerged. by eapply Flat_parsed_filter_NoDup.
Qed.

Lemma query_merges_extra_filter_witness :
  ∃ parsed,
    Json.parseQueryString (json_of age_adult) "" is_active = Ok parsed ∧
    passes_merged_filter empty_model is_active parsed empty_world
      (Json.query (json_of age_adult) empty_model "" is_active empty_world).2.
Proof.
  eexists. split; [vm_compute; reflexivity|].
  destruct (query_merges_extra_filter (json_of age_adult) (qs_of age_adult)
              json_fails empty_model "" is_active empty_world) as [Hjson _].
  - apply NoDup_singleton.
  - apply Hjson. vm_compute. reflexivity.
Defined.

(** C6.  In both revisions, whenever parsing or operator validation fails,
    [query] raises that very failure and leaves the world as it found it: the
    log of calls is unchanged, so neither [countDocuments] nor [find] has
    been invoked. *)
Theorem query_fails_before_any_call JSON_parse qs_parse JSON_parse' model
    queryString options w e :
  (Json.parseQueryString JSON_parse queryString options = Throw e →
   Json.query JSON_parse model queryString options w = (Throw e, w)) ∧
  (Flat.parseQueryString qs_parse JSON_parse' queryString options = Throw e →
   Flat.query qs_parse JSON_parse' model queryString options w
     = (Throw e, w)).
Proof.
  split; intros Hparse.
  - rewrite Json_query_after_parse. unfold bind, lift. by rewrite Hparse.
  - rewrite Flat_query_after_parse. unfold bind, lift. by rewrite Hparse.
Qed.

Lemma query_fails_before_any_call_witness :
  Json.query (json_of age_invalid) empty_model "" only_gte_lte empty_world
    = (Throw (Error "Operator '$invalidOperator' is not allowed."),
       empty_world) ∧
  Flat.query (qs_of age_invalid) json_fails empty_model "" only_gte_lte
    empty_world
    = (Throw (Error "Operator '$invalidOperator' is not allowed."),
       empty_world).
Proof.
  split.
  - apply (query_fails_before_any_call (json_of age_invalid)
             (qs_of age_invalid) json_fails). reflexivity.
  - apply (query_fails_before_any_call (json_of age_invalid)
             (qs_of age_invalid) json_fails). reflexivity.
Defined.

Lemma lookup_map {A B} (f : A → B) (l : list A) (i : nat) :
  map f l !! i = f <$> l !! i.
Proof.
  revert i. induction l as [|x l IH]; intros [|i]; simpl; auto.
Qed.

Lemma allocated_seq (h : list cell) cs (n len : nat) :
  (n + len ≤ List.length h)%nat →
  allocated {| heap := h; calls := cs |} (seq n len).
Proof.
  intros Hlen. apply List.Forall_forall. intros l Hl.
  apply in_seq in Hl. simpl. lia.
Qed.

(** The array [omitFields] returns: its elements are allocated and read
    back as the input records without the fields. *)
Lemma omitFields_records w data fields items :
  heap w !! data = Some (CArr items) →
  allocated w items →
  ∃ out w' outs,
    omitFields data fields w = (Ok out, w') ∧
    heap w' !! out = Some (CArr outs) ∧
    allocated w' outs ∧
    map (record_at w') outs =
      map (fun item => omit_entries fields (spread [] (record_at w item)))
        items.
Proof.
  intros Hdata Hitems.
  pose proof (omitFields_spec w data fields items Hdata Hitems) as Hrun.
  destruct w as [h cs]. simpl in Hrun.
  set (w0 := {| heap := h; calls := cs |}) in *.
  set (rs := map (fun item => omit_entries fields
                                (spread [] (record_at w0 item))) items).
  assert (Hlen : List.length rs = List.length items) by apply length_map.
  assert (Hrecs : map (fun item => CRec (omit_entries fields
                                  (spread [] (record_at w0 item)))) items
                  = map CRec rs).
  { unfold rs. by rewrite map_map. }
  rewrite Hrecs, <- Hlen in Hrun.
  eexists _, _, (seq (List.length h) (List.length rs)).
  split; [exact Hrun|]. simpl. split; [|split].
  - rewrite app_assoc. apply list_lookup_middle.
    by rewrite length_app, length_map.
  - apply allocated_seq. rewrite !length_app, length_map. simpl. lia.
  - apply records_block.
Qed.

(** C8.  [omitFields] is idempotent: on an array of allocated records, a
    second application with the same fields, to the array the first one
    returned, yields records equal, entry for entry and in the same order, to
    those the first application yielded. *)
Theorem omitFields_idempotent w data fields items :
  heap w !! data = Some (CArr items) →
  allocated w items →
  ∃ out1 w1 out2 w2 rs,
    omitFields data fields w = (Ok out1, w1) ∧
    omitFields out1 fields w1 = (Ok out2, w2) ∧
    records_at w1 out1 = Some rs ∧
    records_at w2 out2 = Some rs.
Proof.
  intros Hdata Hitems.
  destruct (omitFields_records w data fields items Hdata Hitems)
    as (out1 & w1 & outs1 & Hrun1 & Hout1 & Halloc1 & Hrs1).
  destruct (omitFields_records w1 out1 fields outs1 Hout1 Halloc1)
    as (out2 & w2 & outs2 & Hrun2 & Hout2 & _ & Hrs2).
  exists out1, w1, out2, w2, (map (record_at w1) outs1).
  split; [exact Hrun1|]. split; [exact Hrun2|].
  unfold records_at. rewrite Hout1, Hout2. split; [reflexivity|].
  rewrite Hrs2.
  rewrite <- (map_map (record_at w1)
                (fun fs => omit_entries fields (spread [] fs))).
  rewrite Hrs1, map_map. f_equal. apply map_ext. intros item.
  rewrite spread_copy; [apply omit_entries_idem|].
  apply NoDup_omit_entries, NoDup_spread.
Qed.

Lemma omitFields_idempotent_witness :
  ∃ out1 w1 out2 w2 rs,
    omitFields 0 ["password"] users_world = (Ok out1, w1) ∧
    omitFields out1 ["password"] w1 = (Ok out2, w2) ∧
    records_at w1 out1 = Some rs ∧
    records_at w2 out2 = Some rs.
Proof.
  apply (omitFields_idempotent users_world 0 ["password"] [1; 2]%nat).
  - reflexivity.
  - repeat (constructor; [simpl; lia|]). constructor.
Defined.

(** C9.  [omitFields] never mutates its input: on an array of allocated
    records, every cell the store held before the call, the input array and
    each input record among them, is the same after it, and no call is
    logged.  The array returned is new, has the length of the input, and its
    elements are pairwise distinct new records, the i-th of which holds a
    shallow copy of the i-th input record without the omitted fields. *)
Theorem omitFields_preserves_input w data fields items :
  heap w !! data = Some (CArr items) →
  allocated w items →
  ∃ out w' outs,
    omitFields data fields w = (Ok out, w') ∧
    (∀ l c, heap w !! l = Some c → heap w' !! l = Some c) ∧
    calls w' = calls w ∧
    heap w !! out = None ∧
    heap w' !! out = Some (CArr outs) ∧
    List.length outs = List.length items ∧
    NoDup outs ∧
    (∀ i item,
       items !! i = Some item →
       ∃ o, outs !! i = Some o ∧
            heap w !! o = None ∧
            heap w' !! o =
              Some (CRec (omit_entries fields
                            (spread [] (record_at w item))))).
Proof.
  intros Hdata Hitems.
  eexists _, _, (seq (List.length (heap w)) (List.length items)).
  split; [by apply omitFields_spec|]. simpl.
  split; [intros l c Hl; by apply lookup_app_l_Some|].
  split; [reflexivity|].
  split; [apply lookup_ge_None; lia|].
  split.
  { rewrite app_assoc. apply list_lookup_middle.
    by rewrite length_app, length_map. }
  split; [apply length_seq|].
  split; [apply NoDup_seq|].
  intros i item Hi. exists (List.length (heap w) + i)%nat.
  pose proof (lookup_lt_Some _ _ _ Hi) as Hlt.
  split; [by apply lookup_seq_lt|].
  split; [apply lookup_ge_None; lia|].
  rewrite lookup_app_r by lia.
  replace (List.length (heap w) + i - List.length (heap w))%nat with i by lia.
  rewrite lookup_app_l by (by rewrite length_map).
  by rewrite lookup_map, Hi.
Qed.

Lemma omitFields_preserves_input_witness :
  ∃ out w' outs,
    omitFields 0 ["password"] users_world = (Ok out, w') ∧
    (∀ l c, heap users_world !! l = Some c → heap w' !! l = Some c) ∧
    calls w' = calls users_world ∧
    heap users_world !! out = None ∧
    heap w' !! out = Some (CArr outs) ∧
    List.length outs = 2%nat ∧
    NoDup outs ∧
    (∀ i item,
       [1; 2]%nat !! i = Some item →
       ∃ o, outs !! i = Some o ∧
            heap users_world !! o = None ∧
            heap w' !! o =
              Some (CRec (omit_entries ["password"]
                            (spread [] (record_at users_world item))))).
Proof.
  apply (omitFields_preserves_input users_world 0 ["password"] [1; 2]%nat).
  - reflexivity.
  - repeat (constructor; [simpl; lia|]). constructor.
Defined.

(** * Further properties *)

(** ** Operator validation *)

Lemma check_keys_throw allowed keys e :
  check_keys allowed keys = Throw e →
  ∃ operator,
    e = not_allowed operator ∧ In operator keys ∧
    includes allowed operator = false.
Proof.
  unfold check_keys.
  induction keys as [|k keys IH]; simpl; [discriminate|].
  destruct (includes allowed k) eqn:Hk; simpl.
  - intros H. destruct (IH H) as (op & -> & Hin & Hop). eauto.
  - intros [= <-]. eauto.
Qed.

(** X1.  The errors of [validateOperators].  The flat revision throws
    nothing but the error of an operator that occurs one level deep in the
    filter and is not on the allow-list; the JSON revision throws either such
    an error or a TypeError, the latter only on a filter that binds a field
    to [null].  So a key on the allow-list is never the one rejected. *)
Theorem validateOperators_errors (q : obj) (allowed : list string) (e : exn) :
  (Flat.validateOperators q allowed = Throw e →
   ∃ operator,
     e = Error ("Operator '" +:+ operator +:+ "' is not allowed.") ∧
     In operator (operator_keys q) ∧ includes allowed operator = false) ∧
  (Json.validateOperators q allowed = Throw e →
   (e = TypeError ∧ ∃ field, In (field, VNull) q) ∨
   (∃ operator,
      e = Error ("Operator '" +:+ operator +:+ "' is not allowed.") ∧
      In operator (operator_keys q) ∧ includes allowed operator = false)).
Proof.
  split.
  - rewrite Flat_validate_keys. apply check_keys_throw.
  - induction q as [|[k v] q IH]; [discriminate|].
    rewrite Json_validate_cons.
    destruct (is_null v) eqn:Hv.
    + intros [= <-]. left. split; [reflexivity|]. exists k. left.
      by destruct v.
    + unfold operator_keys. simpl.
      destruct (check_keys allowed (nested_keys v)) as [[]|e'] eqn:Hkeys.
      * intros H. destruct (IH H) as [[-> [f Hf]]|(op & -> & Hin & Hop)].
        -- left. split; [reflexivity|]. exists f. by right.
        -- right. exists op. split; [reflexivity|]. split; [|exact Hop].
           apply in_or_app. by right.
      * intros [= <-]. right.
        destruct (check_keys_throw _ _ _ Hkeys) as (op & -> & Hin & Hop).
        exists op. split; [reflexivity|]. split; [|exact Hop].
        apply in_or_app. by left.
Qed.

Lemma validateOperators_errors_witness :
  ∃ operator,
    Error "Operator '$invalidOperator' is not allowed."
      = Error ("Operator '" +:+ operator +:+ "' is not allowed.") ∧
    In operator (operator_keys age_invalid) ∧
    includes gte_lte operator = false.
Proof.
  destruct (validateOperators_errors age_invalid gte_lte
              (Error "Operator '$invalidOperator' is not allowed."))
    as [Hflat _].
  apply Hflat. reflexivity.
Defined.

(** X2.  Validation is monotone in the allow-list: a filter accepted under
    an allow-list is accepted under every allow-list that holds at least the
    same operators, in both revisions. *)
Theorem validateOperators_monotone (q : obj) (allowed allowed' : list string) :
  (∀ operator, includes allowed operator = true →
               includes allowed' operator = true) →
  (Flat.validateOperators q allowed = Ok tt →
   Flat.validateOperators q allowed' = Ok tt) ∧
  (Json.validateOperators q allowed = Ok tt →
   Json.validateOperators q allowed' = Ok tt).
Proof.
  intros Hsub.
  assert (Hkeys : ∀ keys, check_keys allowed keys = Ok tt →
                          check_keys allowed' keys = Ok tt).
  { intros keys Hok. apply check_keys_allowed.
    apply check_keys_ok_inv in Hok.
    eapply List.Forall_impl; [|exact Hok]. intros op. apply Hsub. }
  split.
  - rewrite !Flat_validate_keys. apply Hkeys.
  - induction q as [|[k v] q IH]; [done|].
    rewrite !Json_validate_cons. destruct (is_null v); [done|].
    destruct (check_keys allowed (nested_keys v)) as [[]|e] eqn:Hv;
      [|discriminate].
    rewrite (Hkeys _ Hv). exact IH.
Qed.

Lemma validateOperators_monotone_witness :
  Flat.validateOperators age_adult gte_lte = Ok tt ∧
  Json.validateOperators age_adult gte_lte = Ok tt.
Proof.
  destruct (validateOperators_monotone age_adult gte_only gte_lte)
    as [Hflat Hjson].
  - intros operator. unfold includes. simpl.
    destruct (operator =? "$gte")%string; [reflexivity | discriminate].
  - split; [apply Hflat | apply Hjson]; reflexivity.
Defined.

(** X3.  A filter of plain equality tests is never rejected: when every
    value of the filter is a boolean, a number or a string,
    [validateOperators] returns without error whatever the allow-list is,
    the empty one included, in both revisions. *)
Theorem validateOperators_literals (q : obj) (allowed : list string) :
  Forall (fun e => is_literal (snd e) = true) q →
  Flat.validateOperators q allowed = Ok tt ∧
  Json.validateOperators q allowed = Ok tt.
Proof.
  intros Hq.
  assert (Hkeys : operator_keys q = []).
  { induction Hq as [|[k v] q Hv _ IH]; [reflexivity|].
    unfold operator_keys. simpl. fold (operator_keys q). rewrite IH.
    unfold nested_keys. simpl in Hv. unfold is_literal in Hv.
    by destruct (typeof_object v). }
  split.
  - by rewrite Flat_validate_keys, Hkeys.
  - rewrite Json_validate_keys, Hkeys; [reflexivity|].
    eapply List.Forall_impl; [|exact Hq]. intros [k v]. simpl.
    unfold is_literal. by destruct v.
Qed.

Lemma validateOperators_literals_witness :
  Flat.validateOperators name_and_age [] = Ok tt ∧
  Json.validateOperators name_and_age [] = Ok tt.
Proof.
  apply (validateOperators_literals name_and_age []).
  repeat constructor.
Defined.

(** ** Parsing *)

Lemma Json_validate_ok q allowed :
  Json.validateOperators q allowed = Ok tt →
  null_free q ∧ Forall (allowed_in allowed) (operator_keys q).
Proof.
  induction q as [|[k v] q IH]; [by split; constructor|].
  rewrite Json_validate_cons. destruct (is_null v) eqn:Hv; [discriminate|].
  destruct (check_keys allowed (nested_keys v)) as [[]|e] eqn:Hkeys;
    [|discriminate].
  intros H. destruct (IH H) as [Hnull Hall]. split.
  - by constructor.
  - unfold operator_keys. simpl. apply Forall_app. split; [|exact Hall].
    by apply check_keys_ok_inv.
Qed.

Lemma reduce_throw {A B} (f : B → A → result B) l acc e :
  reduce f l acc = Throw e → ∃ acc' x, In x l ∧ f acc' x = Throw e.
Proof.
  revert acc. induction l as [|x l IH]; intros acc; simpl; [discriminate|].
  destruct (f acc x) as [acc'|e'] eqn:Hf.
  - intros H. destruct (IH _ H) as (a & y & Hy & Hthrow). eauto.
  - intros [= <-]. eauto.
Qed.

Lemma reduce_ext {A B} (f g : B → A → result B) l acc :
  (∀ acc x, f acc x = g acc x) → reduce f l acc = reduce g l acc.
Proof.
  intros Hfg. revert acc. induction l as [|x l IH]; intros acc; simpl;
    [reflexivity|].
  rewrite Hfg. destruct (g acc x); [apply IH | reflexivity].
Qed.

Lemma Number_throw v e : Number v = Throw e → e = TypeError.
Proof. unfold Number. destruct (converts v); [discriminate|]. by intros [= <-]. Qed.

Lemma coerce_throw v e : Flat.coerce v = Throw e → e = TypeError.
Proof.
  unfold Flat.coerce, rbind. destruct (Number v) as [n|e'] eqn:Hn;
    [discriminate|].
  intros [= <-]. by eapply Number_throw.
Qed.

Lemma Flat_entry_value_throw JSON_parse v e :
  Flat_entry_value JSON_parse v = Throw e →
  (∃ s, v = VStr s ∧ JSON_parse s = Throw e) ∨ e = TypeError.
Proof.
  unfold Flat_entry_value, rbind.
  destruct (Flat.json_like v) as [s|] eqn:Hjson.
  - destruct (JSON_parse s) as [o|e'] eqn:Hs; [discriminate|].
    intros [= <-]. left. exists s. split; [|exact Hs].
    destruct v as [| | |s'| |]; try discriminate Hjson.
    destruct s' as [|c s']; [discriminate|]. simpl in Hjson.
    destruct (Ascii.ascii_dec c "{") as [->|Hne].
    + by injection Hjson as <-.
    + exfalso. revert Hjson.
      destruct c as [[] [] [] [] [] [] [] []]; try discriminate; congruence.
  - destruct (typeof_object v && negb (is_null v)).
    + destruct (reduce _ (own_entries v) _) as [sub|e'] eqn:Hred;
        [discriminate|].
      intros [= <-]. right.
      apply reduce_throw in Hred as (acc & [k x] & _ & Hstep).
      destruct (Flat.coerce x) as [c|e''] eqn:Hc; [discriminate|].
      injection Hstep as <-. by eapply coerce_throw.
    + intros H. right. by eapply coerce_throw.
Qed.

(** The flat revision fills the filter entry by entry with the stored value
    of each decoded value. *)
Lemma Flat_parse_filter qs_parse JSON_parse queryString options :
  Flat.parseQueryString qs_parse JSON_parse queryString options =
  (limit <- Number (or_else (lookup_key "limit" (qs_parse queryString))
                      DefaultLimit) ;;;
   offset <- Number (or_else (lookup_key "offset" (qs_parse queryString))
                       DefaultOffset) ;;;
   filters <- reduce (fun acc e =>
                v <- Flat_entry_value JSON_parse (snd e) ;;;
                Ok (assign_key (fst e) v acc))
              (rest_entries reserved_keys (qs_parse queryString)) [] ;;;
   _ <- Flat.validateOperators filters (effective_allow_list options) ;;;
   Ok {| filter := filters;
         limit := limit;
         offset := offset;
         sort := or_else (lookup_key "sort" (qs_parse queryString)) (VObj []);
         count := VBool (Flat.is_true_string
                           (lookup_key "count" (qs_parse queryString)));
         justOne := VBool (Flat.is_true_string
                             (lookup_key "justOne" (qs_parse queryString)));
         cacheTimeMs := num 0 |})%result.
Proof.
  unfold Flat.parseQueryString, rbind, effective_allow_list, rest_entries,
    reserved_keys.
  destruct (Number (or_else _ DefaultLimit)); [|reflexivity].
  destruct (Number (or_else _ DefaultOffset)); [|reflexivity].
  match goal with
  | |- match reduce ?f ?l ?a with _ => _ end
       = match reduce ?g ?l ?a with _ => _ end =>
      rewrite (reduce_ext f g l a); [reflexivity|]
  end.
  intros acc [key value]. unfold Flat_entry_value, rbind. simpl.
  destruct (Flat.json_like value) as [s|].
  - by destruct (JSON_parse s).
  - destruct (typeof_object value && negb (is_null value)).
    + by destruct (reduce _ (own_entries value) _).
    + by destruct (Flat.coerce value).
Qed.

Lemma validateOperators_errors_aux_json q allowed e :
  Json.validateOperators q allowed = Throw e →
  e = TypeError ∨
  ∃ operator, e = not_allowed operator ∧ includes allowed operator = false.
Proof.
  induction q as [|[k v] q IH]; [discriminate|].
  rewrite Json_validate_cons. destruct (is_null v); [intros [= <-]; by left|].
  destruct (check_keys allowed (nested_keys v)) as [[]|e'] eqn:Hkeys.
  - exact IH.
  - intros [= <-]. right.
    destruct (check_keys_throw _ _ _ Hkeys) as (op & -> & _ & Hop). eauto.
Qed.

(** X4.  The failures of parsing.  When [parseQueryString] fails, the
    failure is one of three: the error thrown by [JSON.parse] (on the query
    string in the JSON revision, on a value that starts with a brace in the
    flat revision, where the value is one of the decoded input), a TypeError,
    or the error of an operator that is not on the allow-list of the call. *)
Theorem parseQueryString_errors JSON_parse qs_parse JSON_parse' queryString
    options e :
  (Json.parseQueryString JSON_parse queryString options = Throw e →
   JSON_parse queryString = Throw e ∨ e = TypeError ∨
   ∃ operator,
     e = Error ("Operator '" +:+ operator +:+ "' is not allowed.") ∧
     includes (effective_allow_list options) operator = false) ∧
  (Flat.parseQueryString qs_parse JSON_parse' queryString options = Throw e →
   (∃ k s, In (k, VStr s) (qs_parse queryString) ∧
           JSON_parse' s = Throw e) ∨
   e = TypeError ∨
   ∃ operator,
     e = Error ("Operator '" +:+ operator +:+ "' is not allowed.") ∧
     includes (effective_allow_list options) operator = false).
Proof.
  split.
  - unfold Json.parseQueryString, rbind. fold (effective_allow_list options).
    destruct (JSON_parse queryString) as [query|e'] eqn:Hq;
      [|intros [= <-]; by left].
    destruct (Json.validateOperators _ _) as [[]|e'] eqn:Hval.
    + destruct (Number (default DefaultLimit _)) as [lim|e'] eqn:Hlim.
      * destruct (Number (default DefaultOffset _)) as [off|e'] eqn:Hoff;
          [discriminate|].
        intros [= <-]. right. left. by eapply Number_throw.
      * intros [= <-]. right. left. by eapply Number_throw.
    + intros [= <-]. right.
      destruct (validateOperators_errors_aux_json _ _ _ Hval)
        as [->|(op & -> & Hop)]; [by left|].
      right. by exists op.
  - rewrite Flat_parse_filter. unfold rbind.
    destruct (Number (or_else _ DefaultLimit)) as [lim|e'] eqn:Hlim;
      [|intros [= <-]; right; left; by eapply Number_throw].
    destruct (Number (or_else _ DefaultOffset)) as [off|e'] eqn:Hoff;
      [|intros [= <-]; right; left; by eapply Number_throw].
    destruct (reduce _ _ _) as [filters|e'] eqn:Hred.
    + destruct (Flat.validateOperators _ _) as [[]|e'] eqn:Hval;
        [discriminate|].
      intros [= <-]. right. right.
      rewrite Flat_validate_keys in Hval.
      destruct (check_keys_throw _ _ _ Hval) as (op & -> & _ & Hop).
      by exists op.
    + intros [= <-].
      apply reduce_throw in Hred as (acc & [k v] & Hin & Hstep).
      simpl in Hstep.
      destruct (Flat_entry_value JSON_parse' v) as [x|e''] eqn:Hv;
        [discriminate|].
      injection Hstep as <-.
      destruct (Flat_entry_value_throw _ _ _ Hv) as [(s & -> & Hs)| ->].
      * left. exists k, s. split; [|exact Hs].
        by apply filter_In in Hin as [Hin _].
      * right. by left.
Qed.

Lemma parseQueryString_errors_witness :
  json_fails "" = Throw (SyntaxError "Unexpected end of JSON input") ∨
  SyntaxError "Unexpected end of JSON input" = TypeError ∨
  ∃ operator,
    SyntaxError "Unexpected end of JSON input"
      = Error ("Operator '" +:+ operator +:+ "' is not allowed.") ∧
    includes (effective_allow_list no_options) operator = false.
Proof.
  destruct (parseQueryString_errors json_fails (qs_of age_adult) json_fails ""
              no_options (SyntaxError "Unexpected end of JSON input"))
    as [Hjson _].
  apply Hjson. reflexivity.
Defined.

Lemma in_define_key {V} (e : string * V) k v (o : list (string * V)) :
  In e (define_key k v o) → e = (k, v) ∨ In e o.
Proof.
  unfold define_key. destruct (has_key k o).
  - induction o as [|[k' v'] o IH]; simpl; [tauto|].
    destruct (String.eqb_spec k k') as [->|Hne]; simpl.
    + intros [<-|Hin]; auto.
    + intros [<-|Hin]; [auto|]. destruct (IH Hin); auto.
  - rewrite in_app_iff. simpl. intros [Hin|[<-|[]]]; auto.
Qed.

Lemma in_assign_key {V} (e : string * V) k v (o : list (string * V)) :
  In e (assign_key k v o) → e = (k, v) ∨ In e o.
Proof.
  unfold assign_key. destruct (String.eqb k "__proto__"); [auto|].
  apply in_define_key.
Qed.

Lemma keys_spread {V} (a b : list (string * V)) k :
  In k (map fst (spread a b)) → In k (map fst (a ++ b)).
Proof.
  unfold spread.
  assert (H : ∀ l acc : list (string * V),
            In k (map fst (fold_left
                    (fun acc e => define_key (fst e) (snd e) acc) l acc)) →
            In k (map fst acc) ∨ In k (map fst l)).
  { induction l as [|[k' v'] l IH]; intros acc; simpl; [auto|].
    intros Hin. destruct (IH _ Hin) as [Hacc|Hl]; [|auto].
    apply keys_define_key in Hacc as [->|Hacc]; auto. }
  intros Hin. destruct (H _ _ Hin) as [[]|Hl]. exact Hl.
Qed.

Lemma operator_keys_forall (P : string → Prop) (q : obj) :
  Forall P (operator_keys q) ↔
  ∀ k v, In (k, v) q → Forall P (nested_keys v).
Proof.
  unfold operator_keys. induction q as [|[k v] q IH]; simpl.
  - split; [intros _ k v [] | constructor].
  - rewrite Forall_app, IH. split.
    + intros [Hv Hq] k' v' [[= <- <-]|Hin]; [exact Hv | by eapply Hq].
    + intros H. split; [by apply (H k v); left|].
      intros k' v' Hin. apply (H k' v'). by right.
Qed.

Lemma nested_keys_entry_value (P : string → Prop) (v : value) :
  Forall P (nested_keys v) → Forall P (nested_keys (Json_entry_value v)).
Proof.
  unfold Json_entry_value, nested_keys.
  destruct (typeof_object v) eqn:Hv; [|by rewrite Hv]. simpl.
  intros Hall. apply List.Forall_forall. intros k Hk.
  apply keys_spread in Hk. simpl in Hk.
  by apply (proj1 (List.Forall_forall _ _) Hall).
Qed.

(** X5.  After a successful parse, every key one level inside a value of
    the parsed filter is on the allow-list of the call:
    [options.allowedOperators] when it is given, the default list
    otherwise.  This holds in both revisions. *)
Theorem parsed_filter_operators_allowed JSON_parse qs_parse JSON_parse'
    queryString options :
  (∀ parsed,
     Json.parseQueryString JSON_parse queryString options = Ok parsed →
     Forall (allowed_in (effective_allow_list options))
       (operator_keys (filter parsed))) ∧
  (∀ parsed,
     Flat.parseQueryString qs_parse JSON_parse' queryString options
       = Ok parsed →
     Forall (allowed_in (effective_allow_list options))
       (operator_keys (filter parsed))).
Proof.
  split; intros parsed Hparse.
  - apply Json_parse_ok in Hparse as (query & _ & Hval & Hfilter & _).
    fold (effective_allow_list options) in Hval.
    apply Json_validate_ok in Hval as [_ Hall]. rewrite Hfilter.
    revert Hall.
    generalize (rest_entries ["limit"; "offset"; "sort"; "justOne"; "count"]
                  query).
    intros l Hl.
    assert (Hacc : Forall (allowed_in (effective_allow_list options))
                     (operator_keys (@nil (string * value))))
      by constructor.
    revert Hacc. generalize (@nil (string * value)) at 1 3.
    induction l as [|[key v] l IH]; intros acc Hacc; simpl; [exact Hacc|].
    pose proof (proj1 (operator_keys_forall _ _) Hl) as Hl'.
    apply IH.
    + apply operator_keys_forall. intros k' v' Hin.
      apply (Hl' k' v'). by right.
    + apply operator_keys_forall. intros k' v' Hin.
      apply in_assign_key in Hin as [[= -> ->]|Hin].
      * apply (nested_keys_entry_value _ v). apply (Hl' key v). by left.
      * by apply (proj1 (operator_keys_forall _ _) Hacc k' v').
  - apply Flat_parse_ok in Hparse as (_ & _ & _ & Hval & _).
    fold (effective_allow_list options) in Hval.
    rewrite Flat_validate_keys in Hval. by apply check_keys_ok_inv.
Qed.

Lemma parsed_filter_operators_allowed_witness :
  ∃ parsed,
    Json.parseQueryString (json_of age_adult) "" only_gte_lte = Ok parsed ∧
    Forall (allowed_in gte_lte) (operator_keys (filter parsed)).
Proof.
  eexists. split; [vm_compute; reflexivity|].
  destruct (parsed_filter_operators_allowed (json_of age_adult)
              (qs_of age_adult) json_fails "" only_gte_lte) as [Hjson _].
  apply Hjson. vm_compute. reflexivity.
Defined.

(** X6.  The keys of the parsed filter.  After a successful parse, in both
    revisions, a key belongs to the parsed filter exactly when it is a
    top-level key of the decoded input, is none of the five reserved keys
    (compared as they are spelt, case included) and is not [__proto__];
    in particular no reserved key ever reaches the filter. *)
Theorem parsed_filter_keys JSON_parse qs_parse JSON_parse' queryString
    options :
  (∀ query parsed,
     JSON_parse queryString = Ok query →
     Json.parseQueryString JSON_parse queryString options = Ok parsed →
     ∀ k, In k (map fst (filter parsed)) ↔
          In k (map fst query) ∧ includes reserved_keys k = false
          ∧ k ≠ "__proto__") ∧
  (∀ parsed,
     Flat.parseQueryString qs_parse JSON_parse' queryString options
       = Ok parsed →
     ∀ k, In k (map fst (filter parsed)) ↔
          In k (map fst (qs_parse queryString))
          ∧ includes reserved_keys k = false ∧ k ≠ "__proto__").
Proof.
  split.
  - intros query parsed Hquery Hparse.
    by eapply Json_parsed_filter_keys.
  - intros parsed Hparse. by eapply Flat_parsed_filter_keys.
Qed.

Lemma parsed_filter_keys_witness :
  ∃ parsed,
    Json.parseQueryString (json_of bob_query) "" no_options = Ok parsed ∧
    In "name" (map fst (filter parsed)) ∧
    ¬ In "limit" (map fst (filter parsed)).
Proof.
  eexists. split; [vm_compute; reflexivity|].
  destruct (parsed_filter_keys (json_of bob_query) (qs_of bob_query)
              json_fails "" no_options) as [Hjson _].
  split.
  - apply (Hjson bob_query); [reflexivity | vm_compute; reflexivity |].
    split; [right; left; reflexivity|]. split; [reflexivity | discriminate].
  - intros Hin.
    apply (Hjson bob_query) in Hin as (_ & Hres & _);
      [discriminate Hres | reflexivity | vm_compute; reflexivity].
Defined.

Lemma lookup_assign_key {V} k k' (v : V) (o : list (string * V)) :
  k ≠ k' → lookup_key k (assign_key k' v o) = lookup_key k o.
Proof.
  intros Hne. unfold assign_key.
  destruct (String.eqb k' "__proto__"); [reflexivity|].
  rewrite lookup_define_key.
  by destruct (String.eqb_spec k k').
Qed.

Lemma lookup_assign_key_eq {V} k (v : V) (o : list (string * V)) :
  k ≠ "__proto__" → lookup_key k (assign_key k v o) = Some v.
Proof.
  intros Hne. unfold assign_key.
  destruct (String.eqb_spec k "__proto__"); [done|].
  by rewrite lookup_define_key, String.eqb_refl.
Qed.

Lemma reduce_assign_lookup_other {A} (key_of : A → string)
    (g : A → result value) (l : list A) (acc r : obj) (k : string) :
  reduce (fun acc x => v <- g x ;;; Ok (assign_key (key_of x) v acc))%result
    l acc = Ok r →
  ¬ In k (map key_of l) →
  lookup_key k r = lookup_key k acc.
Proof.
  revert acc. induction l as [|x l IH]; intros acc; simpl.
  - by intros [= <-].
  - unfold rbind at 1. destruct (g x) as [v|e]; [|discriminate].
    intros Hred Hk. rewrite (IH _ Hred); [|tauto].
    apply lookup_assign_key. intros ->. tauto.
Qed.

(** Reading back what a reduction of assignments stored under a key. *)
Lemma reduce_assign_lookup {A} (key_of : A → string)
    (g : A → result value) (l : list A) (acc r : obj) (x : A) :
  reduce (fun acc x => v <- g x ;;; Ok (assign_key (key_of x) v acc))%result
    l acc = Ok r →
  NoDup (map key_of l) →
  In x l →
  key_of x ≠ "__proto__" →
  ∃ v, g x = Ok v ∧ lookup_key (key_of x) r = Some v.
Proof.
  revert acc. induction l as [|y l IH]; intros acc; simpl; [tauto|].
  unfold rbind at 1. destruct (g y) as [v|e] eqn:Hy; [|discriminate].
  intros Hred Hnd [->|Hin] Hproto.
  - exists v. split; [exact Hy|].
    apply NoDup_cons in Hnd as [Hx _].
    rewrite (reduce_assign_lookup_other _ _ _ _ _ _ Hred).
    + by apply lookup_assign_key_eq.
    + intros Hin. apply Hx. by apply list_elem_of_In.
  - apply NoDup_cons in Hnd as [_ Hnd]. by eapply IH.
Qed.

Lemma NoDup_keys_filter {V} (p : string * V → bool) (o : list (string * V)) :
  NoDup (map fst o) → NoDup (map fst (List.filter p o)).
Proof.
  induction o as [|e o IH]; simpl; [done|].
  intros Hnd. apply NoDup_cons in Hnd as [He Hnd].
  destruct (p e); simpl; [|by apply IH].
  apply NoDup_cons. split; [|by apply IH].
  intros Hin. apply He. apply list_elem_of_In in Hin.
  apply list_elem_of_In. apply in_map_iff in Hin as (e' & He' & Hin).
  apply filter_In in Hin as [Hin _]. apply in_map_iff. by exists e'.
Qed.

Lemma rest_entries_reserved (o : obj) :
  rest_entries ["limit"; "offset"; "sort"; "justOne"; "count"] o
  = rest_entries reserved_keys o.
Proof.
  unfold rest_entries. apply filter_ext. intros [k v].
  unfold includes, reserved_keys. simpl.
  destruct (k =? "limit")%string, (k =? "offset")%string,
    (k =? "sort")%string, (k =? "justOne")%string,
    (k =? "count")%string; reflexivity.
Qed.

Lemma lookup_rest_entries (bound : list string) (o : obj) k v :
  NoDup (map fst o) →
  lookup_key k o = Some v →
  includes bound k = false →
  In (k, v) (rest_entries bound o).
Proof.
  intros Hnd Hk Hb. apply filter_In. split.
  - by apply (lookup_key_In _ _ _ Hnd).
  - simpl. by rewrite Hb.
Qed.

Lemma Json_entry_value_verbatim v : stored_verbatim v → Json_entry_value v = v.
Proof.
  destruct v as [| | | | |o]; simpl; try tauto.
  intros Hnd. unfold Json_entry_value. simpl. by rewrite spread_copy.
Qed.

Lemma fold_assign_fresh (l acc : obj) :
  NoDup (map fst (acc ++ l)) →
  Forall (fun e => fst e ≠ "__proto__" ∧ stored_verbatim (snd e)) l →
  fold_left (fun acc '(key, value) =>
    assign_key key
      (if typeof_object value
       then VObj (spread [] (own_entries value))
       else value) acc) l acc = acc ++ l.
Proof.
  revert acc. induction l as [|[k v] l IH]; intros acc Hnd Hl; simpl.
  - by rewrite app_nil_r.
  - apply Forall_cons in Hl as [[Hk Hv] Hl]. simpl in Hk, Hv.
    fold (Json_entry_value v). rewrite (Json_entry_value_verbatim _ Hv).
    assert (Hfresh : has_key k acc = false).
    { apply has_key_false. intros Hin.
      rewrite map_app in Hnd. apply NoDup_app in Hnd as (_ & Hdisj & _).
      apply (Hdisj k); [by apply list_elem_of_In | simpl; left]. }
    unfold assign_key, define_key.
    destruct (String.eqb_spec k "__proto__"); [done|]. rewrite Hfresh.
    rewrite IH; [by rewrite <- app_assoc | by rewrite <- app_assoc | exact Hl].
Qed.

(** X7.  The JSON revision stores the filter verbatim.  When the decoded
    input has distinct keys, none of them [__proto__], and every value under
    a key that is not reserved is a literal or a mapping with distinct keys,
    the parsed filter is the list of the entries that are not reserved, in
    their order and with their values: no value is converted. *)
Theorem Json_filter_verbatim JSON_parse queryString options query parsed :
  JSON_parse queryString = Ok query →
  Json.parseQueryString JSON_parse queryString options = Ok parsed →
  NoDup (map fst query) →
  ¬ In "__proto__" (map fst query) →
  Forall (fun e => stored_verbatim (snd e)) (rest_entries reserved_keys query) →
  filter parsed = rest_entries reserved_keys query.
Proof.
  intros Hquery Hparse Hnd Hproto Hvalues.
  apply Json_parse_ok in Hparse as (query' & Hquery' & _ & -> & _).
  assert (query' = query) as -> by congruence.
  rewrite rest_entries_reserved.
  apply (fold_assign_fresh _ []); simpl.
  - by apply NoDup_keys_filter.
  - apply List.Forall_forall. intros [k v] Hin. simpl. split.
    + intros ->. apply Hproto. apply in_map_iff. exists ("__proto__", v).
      split; [reflexivity|]. by apply filter_In in Hin as [Hin _].
    + by apply (proj1 (List.Forall_forall _ _) Hvalues (k, v)).
Qed.

Lemma Json_filter_verbatim_witness :
  ∃ parsed,
    Json.parseQueryString (json_of bob_query) "" no_options = Ok parsed ∧
    filter parsed
      = [("name", VStr "bob"); ("age", VObj [("$gte", VNum (num 18))])].
Proof.
  eexists. split; [vm_compute; reflexivity|].
  apply (Json_filter_verbatim (json_of bob_query) "" no_options bob_query).
  - reflexivity.
  - vm_compute. reflexivity.
  - apply (bool_decide_unpack _). vm_compute. exact I.
  - simpl. intuition discriminate.
  - unfold rest_entries, bob_query. simpl.
    constructor; [exact I|]. constructor; [apply NoDup_singleton|].
    constructor.
Defined.

Lemma Flat_parse_fields qs_parse JSON_parse queryString options parsed :
  Flat.parseQueryString qs_parse JSON_parse queryString options = Ok parsed →
  reduce (fun acc e =>
      v <- Flat_entry_value JSON_parse (snd e) ;;;
      Ok (assign_key (fst e) v acc))%result
    (rest_entries reserved_keys (qs_parse queryString)) []
    = Ok (filter parsed) ∧
  sort parsed = or_else (lookup_key "sort" (qs_parse queryString)) (VObj []) ∧
  count parsed
    = VBool (Flat.is_true_string (lookup_key "count" (qs_parse queryString))) ∧
  justOne parsed
    = VBool (Flat.is_true_string
               (lookup_key "justOne" (qs_parse queryString))) ∧
  cacheTimeMs parsed = num 0.
Proof.
  rewrite Flat_parse_filter. unfold rbind.
  destruct (Number (or_else _ DefaultLimit)); [|discriminate].
  destruct (Number (or_else _ DefaultOffset)); [|discriminate].
  destruct (reduce _ _ _) as [filters|e]; [|discriminate].
  destruct (Flat.validateOperators _ _) as [[]|e]; [|discriminate].
  intros [= <-]. simpl. auto.
Qed.

(** What the flat revision stores under a key of the decoded input. *)
Lemma Flat_stored_value qs_parse JSON_parse queryString options parsed k v :
  Flat.parseQueryString qs_parse JSON_parse queryString options = Ok parsed →
  NoDup (map fst (qs_parse queryString)) →
  lookup_key k (qs_parse queryString) = Some v →
  includes reserved_keys k = false →
  k ≠ "__proto__" →
  ∃ v', Flat_entry_value JSON_parse v = Ok v' ∧
        lookup_key k (filter parsed) = Some v'.
Proof.
  intros Hparse Hnd Hk Hres Hproto.
  apply Flat_parse_fields in Hparse as (Hred & _).
  apply (reduce_assign_lookup fst (fun e => Flat_entry_value JSON_parse (snd e))
           _ _ _ (k, v)) in Hred; [exact Hred | | | exact Hproto].
  - by apply NoDup_keys_filter.
  - by apply lookup_rest_entries.
Qed.

Lemma json_like_digit c s :
  is_decimal_digit c = true → Flat.json_like (VStr (String c s)) = None.
Proof.
  destruct c as [[] [] [] [] [] [] [] []]; intros H;
    try discriminate H; reflexivity.
Qed.

Lemma decimal_value_not_json_like s z :
  decimal_value s = Some z → Flat.json_like (VStr s) = None.
Proof.
  destruct s as [|c s]; [discriminate|]. unfold decimal_value. simpl.
  destruct (is_decimal_digit c) eqn:Hc; [|discriminate].
  intros _. by apply json_like_digit.
Qed.

Lemma coerce_string s :
  Flat.coerce (VStr s)
  = Ok (if isNaN (StringToNumber s) then VStr s
        else VNum (StringToNumber s)).
Proof. reflexivity. Qed.

(** X8.  Numeric coercion of a top-level leaf in the flat revision.  After a
    successful parse of a decoded input with distinct keys, a key that is
    neither reserved nor [__proto__] and is bound to a string that does not
    start with a brace is stored as the number [Number] makes of the string,
    unless that is NaN, and then as that very string.  For a string of
    decimal digits that denotes an integer of at most [2 ^ 53] the number is
    that integer, so that leading zeros are lost; a longer one is stored as
    the binary64 value nearest to it. *)
Theorem Flat_leaf_coercion qs_parse JSON_parse queryString options parsed
    k s :
  Flat.parseQueryString qs_parse JSON_parse queryString options = Ok parsed →
  NoDup (map fst (qs_parse queryString)) →
  lookup_key k (qs_parse queryString) = Some (VStr s) →
  includes reserved_keys k = false →
  k ≠ "__proto__" →
  (∀ z, decimal_value s = Some z → (z ≤ 2 ^ 53)%Z →
        lookup_key k (filter parsed) = Some (VNum (num z))) ∧
  (Flat.json_like (VStr s) = None →
   StringToNumber s ≠ NaN →
   lookup_key k (filter parsed) = Some (VNum (StringToNumber s))) ∧
  (Flat.json_like (VStr s) = None →
   StringToNumber s = NaN →
   lookup_key k (filter parsed) = Some (VStr s)).
Proof.
  intros Hparse Hnd Hk Hres Hproto.
  destruct (Flat_stored_value _ _ _ _ _ _ _ Hparse Hnd Hk Hres Hproto)
    as (v' & Hv' & ->).
  unfold Flat_entry_value in Hv'. repeat split.
  - intros z Hz Hle. rewrite (decimal_value_not_json_like _ _ Hz) in Hv'.
    simpl in Hv'. rewrite coerce_string in Hv'.
    rewrite (StringToNumber_decimal _ _ Hz Hle) in Hv'. simpl in Hv'.
    congruence.
  - intros Hjson Hnum. rewrite Hjson in Hv'. simpl in Hv'.
    rewrite coerce_string in Hv'.
    destruct (StringToNumber s); simpl in Hv'; congruence.
  - intros Hjson Hnan. rewrite Hjson in Hv'. simpl in Hv'.
    rewrite coerce_string, Hnan in Hv'. simpl in Hv'. congruence.
Qed.

Lemma Flat_leaf_coercion_witness :
  ∃ parsed,
    Flat.parseQueryString (qs_of zip_query) (json_of []) "" no_options
      = Ok parsed ∧
    lookup_key "zip" (filter parsed) = Some (VNum (num 2139)) ∧
    lookup_key "id" (filter parsed)
      = Some (VNum (num 9007199254740992)) ∧
    lookup_key "name" (filter parsed) = Some (VStr "bob").
Proof.
  destruct (Flat.parseQueryString (qs_of zip_query) (json_of []) ""
              no_options) as [parsed|e] eqn:Hparse;
    [|vm_compute in Hparse; discriminate Hparse].
  exists parsed. split; [reflexivity|].
  assert (Hnd : NoDup (map fst (qs_of zip_query "")))
    by (apply (bool_decide_unpack _); vm_compute; exact I).
  repeat split.
  - destruct (Flat_leaf_coercion _ _ _ _ _ "zip" "02139" Hparse Hnd)
      as (Hnum & _ & _); [reflexivity | reflexivity | discriminate |].
    apply Hnum; [reflexivity | vm_compute; discriminate].
  - destruct (Flat_leaf_coercion _ _ _ _ _ "id" "9007199254740993" Hparse
                Hnd)
      as (_ & Hnum & _); [reflexivity | reflexivity | discriminate |].
    rewrite Hnum; [vm_compute; reflexivity | reflexivity |].
    vm_compute. discriminate.
  - destruct (Flat_leaf_coercion _ _ _ _ _ "name" "bob" Hparse Hnd)
      as (_ & _ & Hstr); [reflexivity | reflexivity | discriminate |].
    apply Hstr; reflexivity.
Defined.

(** X9.  Strings that start with a brace, in the flat revision.  After a
    successful parse of a decoded input with distinct keys, a key that is
    neither reserved nor [__proto__] and is bound to a string starting with
    [{] is stored as the object [JSON.parse] decodes from that string, as it
    is decoded and without any conversion of its leaves. *)
Theorem Flat_json_like_value qs_parse JSON_parse queryString options parsed
    k s :
  Flat.parseQueryString qs_parse JSON_parse queryString options = Ok parsed →
  NoDup (map fst (qs_parse queryString)) →
  lookup_key k (qs_parse queryString) = Some (VStr (String "{" s)) →
  includes reserved_keys k = false →
  k ≠ "__proto__" →
  ∃ o, JSON_parse (String "{" s) = Ok o ∧
       lookup_key k (filter parsed) = Some (VObj o).
Proof.
  intros Hparse Hnd Hk Hres Hproto.
  destruct (Flat_stored_value _ _ _ _ _ _ _ Hparse Hnd Hk Hres Hproto)
    as (v' & Hv' & ->).
  unfold Flat_entry_value in Hv'. simpl in Hv'. unfold rbind in Hv'.
  destruct (JSON_parse (String "{" s)) as [o|e]; [|discriminate].
  injection Hv' as <-. by exists o.
Qed.

Lemma Flat_json_like_value_witness :
  ∃ parsed o,
    Flat.parseQueryString (qs_of zip_query) (json_of []) "" no_options
      = Ok parsed ∧
    json_of [] "{}" = Ok o ∧
    lookup_key "owner" (filter parsed) = Some (VObj o).
Proof.
  destruct (Flat.parseQueryString (qs_of zip_query) (json_of []) ""
              no_options) as [parsed|e] eqn:Hparse;
    [|vm_compute in Hparse; discriminate Hparse].
  assert (Hnd : NoDup (map fst (qs_of zip_query "")))
    by (apply (bool_decide_unpack _); vm_compute; exact I).
  destruct (Flat_json_like_value _ _ _ _ _ "owner" "}" Hparse Hnd)
    as (o & Ho & Hlookup); [reflexivity | reflexivity | discriminate |].
  exists parsed, o. split; [reflexivity|]. split; [exact Ho | exact Hlookup].
Defined.

(** X10.  Coercion stops one level down, in the flat revision.  After a
    successful parse of a decoded input with distinct keys, a key that is
    neither reserved nor [__proto__] and is bound to a mapping with distinct
    keys is stored as a mapping in which a string of decimal digits that
    denotes an integer of at most [2 ^ 53] has become that integer, and so
    has an array of one such string, the array being lost; an array of two
    elements or more and a mapping found one level further down are stored
    as they are, their own leaves unconverted. *)
Theorem Flat_nested_coercion qs_parse JSON_parse queryString options parsed
    k sub :
  Flat.parseQueryString qs_parse JSON_parse queryString options = Ok parsed →
  NoDup (map fst (qs_parse queryString)) →
  lookup_key k (qs_parse queryString) = Some (VObj sub) →
  includes reserved_keys k = false →
  k ≠ "__proto__" →
  NoDup (map fst sub) →
  ∃ sub',
    lookup_key k (filter parsed) = Some (VObj sub') ∧
    (∀ k2 s z,
       k2 ≠ "__proto__" →
       lookup_key k2 sub = Some (VStr s) →
       decimal_value s = Some z → (z ≤ 2 ^ 53)%Z →
       lookup_key k2 sub' = Some (VNum (num z))) ∧
    (∀ k2 s z,
       k2 ≠ "__proto__" →
       lookup_key k2 sub = Some (VArr [VStr s]) →
       decimal_value s = Some z → (z ≤ 2 ^ 53)%Z →
       lookup_key k2 sub' = Some (VNum (num z))) ∧
    (∀ k2 x y l,
       k2 ≠ "__proto__" →
       lookup_key k2 sub = Some (VArr (x :: y :: l)) →
       lookup_key k2 sub' = Some (VArr (x :: y :: l))) ∧
    (∀ k2 deep,
       k2 ≠ "__proto__" →
       lookup_key k2 sub = Some (VObj deep) →
       lookup_key k2 sub' = Some (VObj deep)).
Proof.
  intros Hparse Hnd Hk Hres Hproto Hsub.
  destruct (Flat_stored_value _ _ _ _ _ _ _ Hparse Hnd Hk Hres Hproto)
    as (v' & Hv' & ->).
  unfold Flat_entry_value in Hv'. simpl in Hv'. unfold rbind at 1 in Hv'.
  destruct (reduce _ sub _) as [sub'|e] eqn:Hred; [|discriminate].
  injection Hv' as <-. exists sub'. split; [reflexivity|].
  rewrite (reduce_ext _
             (fun acc x => v <- Flat.coerce (snd x) ;;;
                           Ok (assign_key (fst x) v acc))%result) in Hred
    by (by intros acc [k2 v2]).
  assert (Hstored : ∀ k2 v2, k2 ≠ "__proto__" →
            lookup_key k2 sub = Some v2 →
            ∃ v3, Flat.coerce v2 = Ok v3 ∧ lookup_key k2 sub' = Some v3).
  { intros k2 v2 Hk2 Hv2.
    apply (reduce_assign_lookup fst (fun x => Flat.coerce (snd x))
             _ _ _ (k2, v2)) in Hred; [exact Hred | exact Hsub | | exact Hk2].
    by apply (lookup_key_In _ _ _ Hsub). }
  repeat split.
  - intros k2 s z Hk2 Hs Hz Hle.
    destruct (Hstored _ _ Hk2 Hs) as (v3 & Hv3 & ->).
    rewrite coerce_string, (StringToNumber_decimal _ _ Hz Hle) in Hv3.
    simpl in Hv3. congruence.
  - intros k2 s z Hk2 Hs Hz Hle.
    destruct (Hstored _ _ Hk2 Hs) as (v3 & Hv3 & ->).
    change (Flat.coerce (VArr [VStr s]))
      with (Ok (if isNaN (StringToNumber s) then VArr [VStr s]
                else VNum (StringToNumber s))) in Hv3.
    rewrite (StringToNumber_decimal _ _ Hz Hle) in Hv3.
    simpl in Hv3. congruence.
  - intros k2 x y l Hk2 Hl.
    destruct (Hstored _ _ Hk2 Hl) as (v3 & Hv3 & ->).
    unfold Flat.coerce, Number, rbind in Hv3.
    destruct (converts (VArr (x :: y :: l))); [|discriminate].
    simpl in Hv3. congruence.
  - intros k2 deep Hk2 Hdeep.
    destruct (Hstored _ _ Hk2 Hdeep) as (v3 & Hv3 & ->).
    unfold Flat.coerce, Number, rbind in Hv3. simpl in Hv3.
    destruct (negb (has_key "toString" deep)); [|discriminate].
    simpl in Hv3. congruence.
Qed.

Lemma Flat_nested_coercion_witness :
  ∃ parsed age home,
    Flat.parseQueryString (qs_of zip_query) (json_of []) "" no_options
      = Ok parsed ∧
    lookup_key "age" (filter parsed) = Some (VObj age) ∧
    lookup_key "$gte" age = Some (VNum (num 18)) ∧
    lookup_key "$in" age = Some (VNum (num 7)) ∧
    lookup_key "$nin" age = Some (VArr [VStr "1"; VStr "2"]) ∧
    lookup_key "home" (filter parsed) = Some (VObj home) ∧
    lookup_key "$ne" home = Some (VObj [("zip", VStr "02139")]).
Proof.
  destruct (Flat.parseQueryString (qs_of zip_query) (json_of []) ""
              no_options) as [parsed|e] eqn:Hparse;
    [|vm_compute in Hparse; discriminate Hparse].
  assert (Hnd : NoDup (map fst (qs_of zip_query "")))
    by (apply (bool_decide_unpack _); vm_compute; exact I).
  destruct (Flat_nested_coercion _ _ _ _ _ "age"
              [("$gte", VStr "18"); ("$in", VArr [VStr "7"]);
               ("$nin", VArr [VStr "1"; VStr "2"])]
              Hparse Hnd)
    as (age & Hage & Hnum & Hone & Hmany & _);
    [reflexivity | reflexivity | discriminate
    | apply (bool_decide_unpack _); vm_compute; exact I |].
  destruct (Flat_nested_coercion _ _ _ _ _ "home"
              [("$ne", VObj [("zip", VStr "02139")])] Hparse Hnd)
    as (home & Hhome & _ & _ & _ & Hdeep);
    [reflexivity | reflexivity | discriminate | apply NoDup_singleton |].
  exists parsed, age, home. split; [reflexivity|].
  split; [exact Hage|]. split; [|split; [|split; [|split; [exact Hhome|]]]].
  - apply (Hnum "$gte" "18");
      [discriminate | reflexivity | reflexivity | vm_compute; discriminate].
  - apply (Hone "$in" "7");
      [discriminate | reflexivity | reflexivity | vm_compute; discriminate].
  - apply Hmany; [discriminate | reflexivity].
  - apply Hdeep; [discriminate | reflexivity].
Defined.

(** X11.  The conversion of a leaf in the flat revision,
    [isNaN(Number(v)) ? v : Number(v)].  When it completes, the result is
    either the value itself or a number that is not NaN, and converting the
    result again changes nothing. *)
Theorem coerce_stable (v v' : value) :
  Flat.coerce v = Ok v' →
  (v' = v ∨ ∃ n, v' = VNum n ∧ isNaN n = false) ∧
  Flat.coerce v' = Ok v'.
Proof.
  unfold Flat.coerce, rbind.
  destruct (Number v) as [n|e] eqn:Hn; [|discriminate].
  destruct (isNaN n) eqn:Hnan; intros [= <-].
  - split; [by left|]. by rewrite Hn, Hnan.
  - split; [right; by exists n|]. unfold Number. simpl. by rewrite Hnan.
Qed.

Lemma coerce_stable_witness :
  (VNum (num 18) = VStr "18" ∨
   ∃ n, VNum (num 18) = VNum n ∧ isNaN n = false) ∧
  Flat.coerce (VNum (num 18)) = Ok (VNum (num 18)).
Proof. apply (coerce_stable (VStr "18")). reflexivity. Defined.

Lemma Json_parse_fields JSON_parse queryString options parsed :
  Json.parseQueryString JSON_parse queryString options = Ok parsed →
  ∃ query,
    JSON_parse queryString = Ok query ∧
    sort parsed = or_else (lookup_key "sort" query) (VObj []) ∧
    count parsed = default (VBool false) (lookup_key "count" query) ∧
    justOne parsed = default (VBool false) (lookup_key "justOne" query) ∧
    cacheTimeMs parsed = num 0.
Proof.
  unfold Json.parseQueryString, rbind.
  destruct (JSON_parse queryString) as [query|e]; [|discriminate].
  destruct (Json.validateOperators _ _) as [[]|e]; [|discriminate].
  destruct (Number (default DefaultLimit _)); [|discriminate].
  destruct (Number (default DefaultOffset _)); [|discriminate].
  intros [= <-]. exists query. simpl. auto.
Qed.

(** X12.  Sort and flags of the parsed spec.  In both revisions the sort of
    the decoded input is passed through as it is when it is truthy and is
    the empty object when it is absent or falsy, and [cacheTimeMs] is 0.  In
    the flat revision [count] and [justOne] are booleans, true exactly when
    the decoded value is the string [true]; in the JSON revision they are
    the decoded values themselves, whatever their type, and [false] when
    absent. *)
Theorem parsed_sort_and_flags JSON_parse qs_parse JSON_parse' queryString
    options :
  (∀ query parsed,
     JSON_parse queryString = Ok query →
     Json.parseQueryString JSON_parse queryString options = Ok parsed →
     (absent_or_falsy (lookup_key "sort" query) → sort parsed = VObj []) ∧
     (∀ v, lookup_key "sort" query = Some v → truthy v = true →
           sort parsed = v) ∧
     (lookup_key "count" query = None → count parsed = VBool false) ∧
     (∀ v, lookup_key "count" query = Some v → count parsed = v) ∧
     (lookup_key "justOne" query = None → justOne parsed = VBool false) ∧
     (∀ v, lookup_key "justOne" query = Some v → justOne parsed = v) ∧
     cacheTimeMs parsed = num 0) ∧
  (∀ parsed,
     Flat.parseQueryString qs_parse JSON_parse' queryString options
       = Ok parsed →
     (absent_or_falsy (lookup_key "sort" (qs_parse queryString)) →
      sort parsed = VObj []) ∧
     (∀ v, lookup_key "sort" (qs_parse queryString) = Some v →
           truthy v = true → sort parsed = v) ∧
     (∃ b, count parsed = VBool b ∧
           (b = true ↔
            lookup_key "count" (qs_parse queryString) = Some (VStr "true"))) ∧
     (∃ b, justOne parsed = VBool b ∧
           (b = true ↔
            lookup_key "justOne" (qs_parse queryString)
              = Some (VStr "true"))) ∧
     cacheTimeMs parsed = num 0).
Proof.
  assert (Hfalsy : ∀ v d, absent_or_falsy v → or_else v d = d).
  { intros [v|] d; simpl; [|done]. by intros ->. }
  assert (Htruthy : ∀ o v d, o = Some v → truthy v = true → or_else o d = v).
  { intros o v d -> Hv. simpl. by rewrite Hv. }
  assert (Htrue : ∀ o, Flat.is_true_string o = true ↔ o = Some (VStr "true")).
  { intros [[| | |s| |]|]; simpl; split; try discriminate.
    - intros Hs. apply String.eqb_eq in Hs. by subst.
    - intros [= ->]. reflexivity. }
  split.
  - intros query parsed Hquery Hparse.
    apply Json_parse_fields in Hparse
      as (query' & Hquery' & -> & -> & -> & ->).
    assert (query' = query) as -> by congruence.
    repeat split.
    + apply Hfalsy.
    + intros v. apply Htruthy.
    + by intros ->.
    + by intros v ->.
    + by intros ->.
    + by intros v ->.
  - intros parsed Hparse.
    apply Flat_parse_fields in Hparse as (_ & -> & -> & -> & ->).
    repeat split.
    + apply Hfalsy.
    + intros v. apply Htruthy.
    + eexists. split; [reflexivity | apply Htrue].
    + eexists. split; [reflexivity | apply Htrue].
Qed.

Lemma parsed_sort_and_flags_witness :
  ∃ parsed,
    Json.parseQueryString (json_of adults_by_age) "" no_options = Ok parsed ∧
    sort parsed = VObj [("age", VNum (num (-1)))] ∧
    count parsed = VBool false.
Proof.
  destruct (Json.parseQueryString (json_of adults_by_age) "" no_options)
    as [parsed|e] eqn:Hparse; [|vm_compute in Hparse; discriminate Hparse].
  exists parsed. split; [reflexivity|].
  destruct (parsed_sort_and_flags (json_of adults_by_age)
              (qs_of adults_by_age) json_fails "" no_options) as [Hjson _].
  destruct (Hjson adults_by_age parsed) as (_ & Hsort & Hcount & _);
    [reflexivity | exact Hparse |].
  split; [apply Hsort; reflexivity | apply Hcount; reflexivity].
Defined.

(** X13.  A limit that is not numeric is neither rejected nor defaulted.
    After a successful parse, when the decoded input binds [limit]
    (respectively [offset]) to a string, non-empty in the flat revision and
    any in the JSON revision, the parsed value is what [Number] makes of
    that string, NaN included. *)
Theorem parse_limit_string JSON_parse qs_parse JSON_parse' queryString
    options :
  (∀ query parsed,
     JSON_parse queryString = Ok query →
     Json.parseQueryString JSON_parse queryString options = Ok parsed →
     (∀ s, lookup_key "limit" query = Some (VStr s) →
           limit parsed = StringToNumber s) ∧
     (∀ s, lookup_key "offset" query = Some (VStr s) →
           offset parsed = StringToNumber s)) ∧
  (∀ parsed,
     Flat.parseQueryString qs_parse JSON_parse' queryString options
       = Ok parsed →
     (∀ s, lookup_key "limit" (qs_parse queryString) = Some (VStr s) →
           s ≠ "" → limit parsed = StringToNumber s) ∧
     (∀ s, lookup_key "offset" (qs_parse queryString) = Some (VStr s) →
           s ≠ "" → offset parsed = StringToNumber s)).
Proof.
  assert (Hor : ∀ o s d, o = Some (VStr s) → s ≠ "" →
            or_else o d = VStr s).
  { intros o s d -> Hs. simpl.
    destruct (String.eqb_spec s ""); [done | reflexivity]. }
  split.
  - intros query parsed Hquery Hparse.
    apply Json_parse_ok in Hparse as (query' & Hquery' & _ & _ & Hlim & Hoff).
    assert (query' = query) as -> by congruence.
    split; intros s Hs.
    + rewrite Hs in Hlim. by injection Hlim as <-.
    + rewrite Hs in Hoff. by injection Hoff as <-.
  - intros parsed Hparse.
    apply Flat_parse_ok in Hparse as (_ & _ & _ & _ & Hlim & Hoff).
    split; intros s Hs Hne.
    + rewrite (Hor _ _ _ Hs Hne) in Hlim. by injection Hlim as <-.
    + rewrite (Hor _ _ _ Hs Hne) in Hoff. by injection Hoff as <-.
Qed.

Lemma parse_limit_string_witness :
  ∃ parsed,
    Flat.parseQueryString (qs_of limit_abc) json_fails "" no_options
      = Ok parsed ∧
    limit parsed = NaN.
Proof.
  destruct (Flat.parseQueryString (qs_of limit_abc) json_fails "" no_options)
    as [parsed|e] eqn:Hparse; [|vm_compute in Hparse; discriminate Hparse].
  exists parsed. split; [reflexivity|].
  destruct (parse_limit_string (json_of limit_abc) (qs_of limit_abc)
              json_fails "" no_options) as [_ Hflat].
  destruct (Hflat parsed Hparse) as [Hlimit _].
  apply (Hlimit "abc"); [reflexivity | discriminate].
Defined.

Lemma lookup_key_Some_In {V} k (v : V) (o : list (string * V)) :
  lookup_key k o = Some v → In (k, v) o.
Proof.
  induction o as [|[k' v'] o IH]; simpl; [discriminate|].
  destruct (String.eqb_spec k k') as [->|Hne].
  - intros [= ->]. by left.
  - intros H. right. by apply IH.
Qed.

(** X14.  Arrays as filter values.  In both revisions, a parse can succeed
    on a decoded input that binds a key that is not reserved to a non-empty
    array only when the index ["0"] is on the allow-list of the call: such a
    filter is rejected under every allow-list made of operators.  (For the
    flat revision the decoded input has distinct keys and the key is not
    [__proto__].) *)
Theorem parse_array_value_needs_index JSON_parse qs_parse JSON_parse'
    queryString options k x l :
  includes reserved_keys k = false →
  (∀ query parsed,
     JSON_parse queryString = Ok query →
     Json.parseQueryString JSON_parse queryString options = Ok parsed →
     In (k, VArr (x :: l)) query →
     includes (effective_allow_list options) "0" = true) ∧
  (∀ parsed,
     Flat.parseQueryString qs_parse JSON_parse' queryString options
       = Ok parsed →
     NoDup (map fst (qs_parse queryString)) →
     lookup_key k (qs_parse queryString) = Some (VArr (x :: l)) →
     k ≠ "__proto__" →
     includes (effective_allow_list options) "0" = true).
Proof.
  intros Hres. split.
  - intros query parsed Hquery Hparse Hin.
    apply Json_parse_ok in Hparse as (query' & Hquery' & Hval & _).
    assert (query' = query) as -> by congruence.
    fold (effective_allow_list options) in Hval.
    apply Json_validate_ok in Hval as [_ Hall].
    rewrite rest_entries_reserved in Hall.
    pose proof (proj1 (operator_keys_forall _ _) Hall k (VArr (x :: l)))
      as Hkeys.
    assert (Hrest : In (k, VArr (x :: l)) (rest_entries reserved_keys query)).
    { apply filter_In. split; [exact Hin|]. cbn [fst]. by rewrite Hres. }
    specialize (Hkeys Hrest). by apply Forall_cons in Hkeys as [H0 _].
  - intros parsed Hparse Hnd Hk Hproto.
    destruct (Flat_stored_value _ _ _ _ _ _ _ Hparse Hnd Hk Hres Hproto)
      as (v' & Hv' & Hstored).
    apply Flat_parse_ok in Hparse as (_ & _ & _ & Hval & _).
    fold (effective_allow_list options) in Hval.
    rewrite Flat_validate_keys in Hval. apply check_keys_ok_inv in Hval.
    unfold Flat_entry_value in Hv'.
    cbn [Flat.json_like typeof_object is_null andb negb] in Hv'.
    unfold rbind at 1 in Hv'.
    destruct (reduce _ (own_entries (VArr (x :: l))) _) as [sub|e] eqn:Hred;
      [|discriminate].
    injection Hv' as <-.
    pose proof (proj1 (operator_keys_forall _ _) Hval k (VObj sub)
                  (lookup_key_Some_In _ _ _ Hstored)) as Hkeys.
    unfold nested_keys in Hkeys. simpl in Hkeys.
    apply (proj1 (List.Forall_forall _ _) Hkeys "0").
    eapply (reduce_assign_keys fst) with (k := "0") in Hred as ->.
    + right. split; [left; reflexivity | discriminate].
    + intros acc [k2 v2] acc'. unfold rbind.
      destruct (Flat.coerce v2); [|discriminate]. intros [= <-]. eauto.
Qed.

Lemma parse_array_value_needs_index_witness :
  ∃ parsed,
    Json.parseQueryString (json_of tags_array) "" index_allowed = Ok parsed ∧
    includes (effective_allow_list index_allowed) "0" = true.
Proof.
  destruct (Json.parseQueryString (json_of tags_array) "" index_allowed)
    as [parsed|e] eqn:Hparse; [|vm_compute in Hparse; discriminate Hparse].
  exists parsed. split; [reflexivity|].
  destruct (parse_array_value_needs_index (json_of tags_array)
              (qs_of tags_array) json_fails "" index_allowed "tags"
              (VStr "a") []) as [Hjson _]; [reflexivity|].
  apply (Hjson tags_array parsed); [reflexivity | exact Hparse |].
  left. reflexivity.
Defined.

(** ** The query façade *)

Lemma after_parse_run model options parsed w :
  after_parse model options parsed w =
  match countDocuments model (combined_filter options parsed) with
  | Throw e =>
      (Throw e,
       {| heap := heap w;
          calls := calls w ++
                   [CountDocuments (combined_filter options parsed)] |})
  | Ok rows =>
      match find_answer model options parsed with
      | Throw e =>
          (Throw e,
           {| heap := heap w;
              calls := calls w ++
                       [CountDocuments (combined_filter options parsed);
                        find_call options parsed] |})
      | Ok found =>
          (records' <~ match omitFields_opt options with
                       | Some fields => omitFields found fields
                       | None => ret found
                       end ;;;
           ret {| records := records';
                  pagination :=
                    {| totalRows := rows;
                       totalPages :=
                         Math_ceil (js_div rows (limit parsed)) |} |})%world
            {| heap := heap w;
               calls := calls w ++
                        [CountDocuments (combined_filter options parsed);
                         find_call options parsed] |}
      end
  end.
Proof.
  unfold after_parse, bind, invoke, find_answer, find_call, combined_filter,
    extra_filter. simpl.
  destruct (countDocuments model _) as [rows|e]; simpl; [|reflexivity].
  destruct (find_exec model _ _ _ _ _) as [found|e]; simpl;
    rewrite <- app_assoc; reflexivity.
Qed.

(** X15.  Failures of the model are propagated.  In both revisions, once
    parsing has succeeded: when [countDocuments] fails, [query] fails with
    the same error, [find] is not called and the count is not retried; when
    the count succeeds and [find] fails, [query] fails with the error of
    [find] after exactly those two calls.  The store is left as it was. *)
Theorem query_propagates_model_failure JSON_parse qs_parse JSON_parse' model
    queryString options w e :
  (∀ parsed,
     Json.parseQueryString JSON_parse queryString options = Ok parsed →
     propagates_model_failure model options parsed w e
       (Json.query JSON_parse model queryString options w)) ∧
  (∀ parsed,
     Flat.parseQueryString qs_parse JSON_parse' queryString options
       = Ok parsed →
     propagates_model_failure model options parsed w e
       (Flat.query qs_parse JSON_parse' model queryString options w)).
Proof.
  assert (Hrun : ∀ parsed,
            propagates_model_failure model options parsed w e
              (after_parse model options parsed w)).
  { intros parsed. rewrite after_parse_run. split.
    - by intros ->.
    - intros rows -> Hfind. by rewrite Hfind. }
  split; intros parsed Hparse.
  - rewrite Json_query_after_parse. unfold bind, lift. rewrite Hparse.
    apply Hrun.
  - rewrite Flat_query_after_parse. unfold bind, lift. rewrite Hparse.
    apply Hrun.
Qed.

Lemma query_propagates_model_failure_witness :
  ∃ parsed,
    Json.parseQueryString (json_of age_adult) "" only_gte_lte = Ok parsed ∧
    Json.query (json_of age_adult) count_fails "" only_gte_lte empty_world
    = (Throw (Error "connection lost"),
       {| heap := heap empty_world;
          calls := calls empty_world ++
                   [CountDocuments (combined_filter only_gte_lte parsed)] |}).
Proof.
  destruct (Json.parseQueryString (json_of age_adult) "" only_gte_lte)
    as [parsed|e] eqn:Hparse; [|vm_compute in Hparse; discriminate Hparse].
  exists parsed. split; [reflexivity|].
  destruct (query_propagates_model_failure (json_of age_adult)
              (qs_of age_adult) json_fails count_fails "" only_gte_lte
              empty_world (Error "connection lost")) as [Hjson _].
  destruct (Hjson parsed Hparse) as [Hcount _].
  apply Hcount. reflexivity.
Defined.

(** X16.  A query without [omitFields].  In both revisions, once parsing
    has succeeded, when both calls of the model succeed and the options name
    no field to omit, [query] returns the very array the model found, with
    [totalRows] the count and [totalPages] computed from it, after one call
    of [countDocuments] followed by one call of [find], both with the merged
    filter, and [find] with the parsed offset, limit and sort and the
    populate option; the store is left as it was. *)
Theorem query_returns_found_array JSON_parse qs_parse JSON_parse' model
    queryString options w :
  omitFields_opt options = None →
  (∀ parsed,
     Json.parseQueryString JSON_parse queryString options = Ok parsed →
     returns_found_array model options parsed w
       (Json.query JSON_parse model queryString options w)) ∧
  (∀ parsed,
     Flat.parseQueryString qs_parse JSON_parse' queryString options
       = Ok parsed →
     returns_found_array model options parsed w
       (Flat.query qs_parse JSON_parse' model queryString options w)).
Proof.
  intros Hnone.
  assert (Hrun : ∀ parsed,
            returns_found_array model options parsed w
              (after_parse model options parsed w)).
  { intros parsed rows found Hcount Hfind.
    rewrite after_parse_run, Hcount, Hfind, Hnone. reflexivity. }
  split; intros parsed Hparse.
  - rewrite Json_query_after_parse. unfold bind, lift. rewrite Hparse.
    apply Hrun.
  - rewrite Flat_query_after_parse. unfold bind, lift. rewrite Hparse.
    apply Hrun.
Qed.

Lemma query_returns_found_array_witness :
  ∃ parsed,
    Json.parseQueryString (json_of adults_by_age) "" no_options = Ok parsed ∧
    returns_found_array (mock_model 2) no_options parsed john_jane
      (Json.query (json_of adults_by_age) (mock_model 2) "" no_options
         john_jane).
Proof.
  destruct (Json.parseQueryString (json_of adults_by_age) "" no_options)
    as [parsed|e] eqn:Hparse; [|vm_compute in Hparse; discriminate Hparse].
  exists parsed. split; [reflexivity|].
  destruct (query_returns_found_array (json_of adults_by_age)
              (qs_of adults_by_age) json_fails (mock_model 2) "" no_options
              john_jane) as [Hjson _]; [reflexivity|].
  by apply Hjson.
Defined.

Lemma lookup_omit_entries fields (fs : list (string * fvalue)) k :
  lookup_key k (omit_entries fields fs) =
  if includes fields k then None else lookup_key k fs.
Proof.
  unfold omit_entries. induction fs as [|[k' v] fs IH]; simpl.
  - by destruct (includes fields k).
  - destruct (includes fields k') eqn:Hk'; simpl.
    + rewrite IH. destruct (String.eqb_spec k k') as [->|Hne];
        [by rewrite Hk' | reflexivity].
    + rewrite IH. destruct (String.eqb_spec k k') as [->|Hne];
        [by rewrite Hk' | reflexivity].
Qed.

Lemma includes_In (l : list string) (s : string) :
  includes l s = true ↔ In s l.
Proof.
  unfold includes. rewrite existsb_exists. split.
  - intros (x & Hx & Heq). apply String.eqb_eq in Heq. by subst.
  - intros Hin. exists s. split; [exact Hin | apply String.eqb_refl].
Qed.

(** X17.  A query with [omitFields] never returns an omitted field.  In
    both revisions, once parsing has succeeded, when both calls of the model
    succeed and [find] yields an array of allocated records, [query]
    returns a new array of as many records, none of which has an entry under
    any of the fields to omit ([totalRows] being the count), and every cell
    the store held before, the records found included, is unchanged. *)
Theorem query_returns_trimmed_records JSON_parse qs_parse JSON_parse' model
    queryString options w fields :
  omitFields_opt options = Some fields →
  (∀ parsed,
     Json.parseQueryString JSON_parse queryString options = Ok parsed →
     returns_trimmed_records model options parsed w fields
       (Json.query JSON_parse model queryString options w)) ∧
  (∀ parsed,
     Flat.parseQueryString qs_parse JSON_parse' queryString options
       = Ok parsed →
     returns_trimmed_records model options parsed w fields
       (Flat.query qs_parse JSON_parse' model queryString options w)).
Proof.
  intros Hsome.
  assert (Hrun : ∀ parsed,
            returns_trimmed_records model options parsed w fields
              (after_parse model options parsed w)).
  { intros parsed rows found items Hcount Hfind Hfound Hitems.
    rewrite after_parse_run, Hcount, Hfind, Hsome. unfold bind.
    set (w1 := {| heap := heap w;
                  calls := calls w ++
                           [CountDocuments (combined_filter options parsed);
                            find_call options parsed] |}).
    destruct (omitFields_records w1 found fields items Hfound Hitems)
      as (out & w' & outs & Hrun & Hout & _ & Hrs).
    pose proof (omitFields_spec w1 found fields items Hfound Hitems) as Hspec.
    rewrite Hrun in Hspec. injection Hspec as Hout_eq Hw'.
    rewrite Hrun. simpl.
    eexists _, (map (record_at w') outs). simpl.
    split; [reflexivity|]. split; [reflexivity|].
    split; [apply lookup_ge_None; simpl; lia|].
    split; [unfold records_at; simpl; by rewrite Hout|].
    split; [by rewrite Hrs, !length_map|].
    split.
    - intros r field Hr Hfield. rewrite Hrs in Hr.
      apply in_map_iff in Hr as (item & <- & _).
      rewrite lookup_omit_entries.
      by rewrite (proj2 (includes_In fields field) Hfield).
    - intros l c Hl. rewrite Hw'. simpl. by apply lookup_app_l_Some. }
  split; intros parsed Hparse.
  - rewrite Json_query_after_parse. unfold bind, lift. rewrite Hparse.
    apply Hrun.
  - rewrite Flat_query_after_parse. unfold bind, lift. rewrite Hparse.
    apply Hrun.
Qed.

Lemma query_returns_trimmed_records_witness :
  ∃ parsed,
    Json.parseQueryString (json_of []) "" without_password = Ok parsed ∧
    returns_trimmed_records (mock_model 2) without_password parsed
      users_world ["password"]
      (Json.query (json_of []) (mock_model 2) "" without_password users_world).
Proof.
  destruct (Json.parseQueryString (json_of []) "" without_password)
    as [parsed|e] eqn:Hparse; [|vm_compute in Hparse; discriminate Hparse].
  exists parsed. split; [reflexivity|].
  destruct (query_returns_trimmed_records (json_of []) (qs_of [])
              json_fails (mock_model 2) "" without_password users_world
              ["password"]) as [Hjson _]; [reflexivity|].
  by apply Hjson.
Defined.

(** ** Field omission *)

Lemma lookup_spread_copy (fs : list (string * fvalue)) k :
  NoDup (map fst fs) → lookup_key k (spread [] fs) = lookup_key k fs.
Proof.
  intros Hnd. rewrite lookup_spread; [|constructor|exact Hnd]. simpl.
  by destruct (lookup_key k fs).
Qed.

(** X18.  What [omitFields] keeps and what it drops.  On an array of
    allocated records, the i-th record returned, read under any key, is
    undefined when the key is one of the fields and is the value of the i-th
    input record otherwise (the input record having distinct keys). *)
Theorem omitFields_lookup w data fields items :
  heap w !! data = Some (CArr items) →
  allocated w items →
  ∃ out w' rs,
    omitFields data fields w = (Ok out, w') ∧
    records_at w' out = Some rs ∧
    ∀ i item,
      items !! i = Some item →
      NoDup (map fst (record_at w item)) →
      ∃ r, rs !! i = Some r ∧
           ∀ k, lookup_key k r =
                if includes fields k then None
                else lookup_key k (record_at w item).
Proof.
  intros Hdata Hitems.
  destruct (omitFields_records w data fields items Hdata Hitems)
    as (out & w' & outs & Hrun & Hout & _ & Hrs).
  exists out, w', (map (record_at w') outs).
  split; [exact Hrun|]. split; [unfold records_at; by rewrite Hout|].
  intros i item Hi Hnd. rewrite Hrs. rewrite lookup_map, Hi. simpl.
  eexists. split; [reflexivity|]. intros k.
  rewrite lookup_omit_entries. destruct (includes fields k); [reflexivity|].
  by apply lookup_spread_copy.
Qed.

Lemma omitFields_lookup_witness :
  ∃ out w' rs,
    omitFields 0 ["password"] users_world = (Ok out, w') ∧
    records_at w' out = Some rs ∧
    ∀ i item,
      [1; 2]%nat !! i = Some item →
      NoDup (map fst (record_at users_world item)) →
      ∃ r, rs !! i = Some r ∧
           ∀ k, lookup_key k r =
                if includes ["password"] k then None
                else lookup_key k (record_at users_world item).
Proof.
  apply (omitFields_lookup users_world 0 ["password"] [1; 2]%nat).
  - reflexivity.
  - repeat (constructor; [simpl; lia|]). constructor.
Defined.

Lemma omit_entries_absent fields (fs : list (string * fvalue)) :
  Forall (fun e => includes fields (fst e) = false) fs →
  omit_entries fields fs = fs.
Proof.
  unfold omit_entries. induction 1 as [|e fs He _ IH]; simpl; [done|].
  by rewrite He, IH.
Qed.

(** X19.  Omitting fields that no record has changes nothing.  On an array
    of allocated records with distinct keys, none of which has any of the
    fields (as when the list of fields is empty), [omitFields] returns
    records equal, entry for entry and in the same order, to the input
    records; no error is raised for an absent field. *)
Theorem omitFields_absent_fields w data fields items :
  heap w !! data = Some (CArr items) →
  allocated w items →
  well_keyed w items →
  without_fields w fields items →
  ∃ out w',
    omitFields data fields w = (Ok out, w') ∧
    records_at w' out = records_at w data.
Proof.
  intros Hdata Hitems Hkeys Habsent.
  destruct (omitFields_records w data fields items Hdata Hitems)
    as (out & w' & outs & Hrun & Hout & _ & Hrs).
  exists out, w'. split; [exact Hrun|].
  unfold records_at. rewrite Hout, Hdata, Hrs. f_equal.
  apply map_ext_in. intros item Hin.
  rewrite spread_copy
    by apply (proj1 (List.Forall_forall _ _) Hkeys item Hin).
  apply omit_entries_absent.
  apply (proj1 (List.Forall_forall _ _) Habsent item Hin).
Qed.

Lemma omitFields_absent_fields_witness :
  ∃ out w',
    omitFields 0 [] users_world = (Ok out, w') ∧
    records_at w' out = records_at users_world 0.
Proof.
  apply (omitFields_absent_fields users_world 0 [] [1; 2]%nat).
  - reflexivity.
  - repeat (constructor; [simpl; lia|]). constructor.
  - repeat (constructor;
            [apply (bool_decide_unpack _); vm_compute; exact I|]).
    constructor.
  - repeat constructor.
Defined.

Lemma includes_app (l1 l2 : list string) (s : string) :
  includes (l1 ++ l2) s = includes l1 s || includes l2 s.
Proof. unfold includes. apply existsb_app. Qed.

Lemma omit_entries_app fields fields' (fs : list (string * fvalue)) :
  omit_entries fields' (omit_entries fields fs)
  = omit_entries (fields ++ fields') fs.
Proof.
  unfold omit_entries. rewrite filter_filter_bool. apply filter_ext.
  intros e. by rewrite includes_app, negb_orb.
Qed.

(** X20.  Omissions compose.  On an array of allocated records, omitting
    [fields] and then [fields'] from the result yields records equal, entry
    for entry and in the same order, to those obtained by omitting the
    fields of both lists at once. *)
Theorem omitFields_compose w data fields fields' items :
  heap w !! data = Some (CArr items) →
  allocated w items →
  ∃ out1 w1 out2 w2 out3 w3 rs,
    omitFields data fields w = (Ok out1, w1) ∧
    omitFields out1 fields' w1 = (Ok out2, w2) ∧
    omitFields data (fields ++ fields') w = (Ok out3, w3) ∧
    records_at w2 out2 = Some rs ∧
    records_at w3 out3 = Some rs.
Proof.
  intros Hdata Hitems.
  destruct (omitFields_records w data fields items Hdata Hitems)
    as (out1 & w1 & outs1 & Hrun1 & Hout1 & Halloc1 & Hrs1).
  destruct (omitFields_records w1 out1 fields' outs1 Hout1 Halloc1)
    as (out2 & w2 & outs2 & Hrun2 & Hout2 & _ & Hrs2).
  destruct (omitFields_records w data (fields ++ fields') items Hdata Hitems)
    as (out3 & w3 & outs3 & Hrun3 & Hout3 & _ & Hrs3).
  exists out1, w1, out2, w2, out3, w3, (map (record_at w3) outs3).
  split; [exact Hrun1|]. split; [exact Hrun2|]. split; [exact Hrun3|].
  unfold records_at. rewrite Hout2, Hout3. split; [|reflexivity].
  rewrite Hrs2, Hrs3.
  rewrite <- (map_map (record_at w1)
                (fun fs => omit_entries fields' (spread [] fs))).
  rewrite Hrs1, map_map. f_equal. apply map_ext. intros item.
  rewrite spread_copy by apply NoDup_omit_entries, NoDup_spread.
  apply omit_entries_app.
Qed.

Lemma omitFields_compose_witness :
  ∃ out1 w1 out2 w2 out3 w3 rs,
    omitFields 0 ["password"] users_world = (Ok out1, w1) ∧
    omitFields out1 ["age"] w1 = (Ok out2, w2) ∧
    omitFields 0 (["password"] ++ ["age"]) users_world = (Ok out3, w3) ∧
    records_at w2 out2 = Some rs ∧
    records_at w3 out3 = Some rs.
Proof.
  apply (omitFields_compose users_world 0 ["password"] ["age"] [1; 2]%nat).
  - reflexivity.
  - repeat (constructor; [simpl; lia|]). constructor.
Defined.

(** ** Pagination *)

Lemma query_ok_pages (parse : result ParseQueryResult) model options w res w' :
  bind (lift parse) (after_parse model options) w = (Ok res, w') →
  ∃ parsed,
    parse = Ok parsed ∧
    totalPages (pagination res) =
      Math_ceil (js_div (totalRows (pagination res)) (limit parsed)).
Proof.
  intros Hrun. apply bind_lift_ok in Hrun as (parsed & Hparse & Hrun).
  exists parsed. split; [exact Hparse|].
  by destruct (after_parse_pagination _ _ _ _ _ _ Hrun).
Qed.

(** X21.  The pages cover the rows.  For every completed query, in both
    revisions, when the parsed limit is a positive integer [l] and the count
    is an integer [r] that is not negative, both below [2 ^ 53],
    [totalPages] is the integer [p] with [(p - 1) * l < r <= p * l]: the
    least number of pages of [l] rows that hold [r] rows, with no page left
    empty.  The rounding of the quotient does not change its ceiling
    there. *)
Theorem query_pages_cover_rows JSON_parse qs_parse JSON_parse' model
    queryString options w res w' :
  (Json.query JSON_parse model queryString options w = (Ok res, w') →
   ∃ parsed,
     Json.parseQueryString JSON_parse queryString options = Ok parsed ∧
     pages_cover_rows parsed res) ∧
  (Flat.query qs_parse JSON_parse' model queryString options w
     = (Ok res, w') →
   ∃ parsed,
     Flat.parseQueryString qs_parse JSON_parse' queryString options
       = Ok parsed ∧
     pages_cover_rows parsed res).
Proof.
  assert (Hpages : ∀ parsed,
            totalPages (pagination res) =
              Math_ceil (js_div (totalRows (pagination res)) (limit parsed)) →
            pages_cover_rows parsed res).
  { intros parsed Htotal l r Hlimit Hl Hrows Hr.
    rewrite Htotal, Hlimit, Hrows.
    destruct (ceil_div_bounds r l Hl Hr) as (p & Hp & Hbounds).
    exists p. split; [exact Hp | lia]. }
  split.
  - rewrite Json_query_after_parse. intros Hrun.
    apply query_ok_pages in Hrun as (parsed & Hparse & Htotal).
    exists parsed. split; [exact Hparse | by apply Hpages].
  - rewrite Flat_query_after_parse. intros Hrun.
    apply query_ok_pages in Hrun as (parsed & Hparse & Htotal).
    exists parsed. split; [exact Hparse | by apply Hpages].
Qed.

Lemma query_pages_cover_rows_witness :
  ∃ parsed,
    Json.parseQueryString (json_of three_per_page) "" no_options = Ok parsed ∧
    ∃ p : Z, num 3 = num p ∧ (7 <= p * 3)%Z ∧ ((p - 1) * 3 < 7)%Z.
Proof.
  destruct (query_pages_cover_rows (json_of three_per_page)
              (qs_of three_per_page) json_fails (mock_model 7) "" no_options
              john_jane
              {| records := 0%nat;
                 pagination := {| totalRows := num 7; totalPages := num 3 |} |}
              {| heap := heap john_jane;
                 calls := [CountDocuments [];
                           Find [] (num 0) (num 3) (VObj []) None] |})
    as [Hjson _].
  destruct Hjson as (parsed & Hparse & Hpages); [vm_compute; reflexivity|].
  exists parsed. split; [exact Hparse|].
  apply (Hpages 3%Z 7%Z).
  - vm_compute in Hparse. by injection Hparse as <-.
  - split; [lia | vm_compute; reflexivity].
  - reflexivity.
  - split; [lia | vm_compute; reflexivity].
Defined.

(** X22.  A limit of 0.  For every completed query, in both revisions,
    when the parsed limit is a zero and the count is an integer,
    [totalPages] is NaN for a count of 0 and, for a positive count,
    [Infinity] when the limit is 0 and [-Infinity] when it is the negative
    zero, as for a requested limit of [-0]: it is never a finite number of
    pages. *)
Theorem query_pages_of_zero_limit JSON_parse qs_parse JSON_parse' model
    queryString options w res w' :
  (Json.query JSON_parse model queryString options w = (Ok res, w') →
   ∃ parsed,
     Json.parseQueryString JSON_parse queryString options = Ok parsed ∧
     pages_of_zero_limit parsed res) ∧
  (Flat.query qs_parse JSON_parse' model queryString options w
     = (Ok res, w') →
   ∃ parsed,
     Flat.parseQueryString qs_parse JSON_parse' queryString options
       = Ok parsed ∧
     pages_of_zero_limit parsed res).
Proof.
  assert (Hpages : ∀ parsed,
            totalPages (pagination res) =
              Math_ceil (js_div (totalRows (pagination res)) (limit parsed)) →
            pages_of_zero_limit parsed res).
  { intros parsed Htotal r Hrows. rewrite Htotal, Hrows.
    split; intros ->; (split; [by intros ->|]); intros Hr;
      destruct (js_div_by_zero r Hr) as [Hpos Hneg].
    - by rewrite Hpos.
    - by rewrite Hneg. }
  split.
  - rewrite Json_query_after_parse. intros Hrun.
    apply query_ok_pages in Hrun as (parsed & Hparse & Htotal).
    exists parsed. split; [exact Hparse | by apply Hpages].
  - rewrite Flat_query_after_parse. intros Hrun.
    apply query_ok_pages in Hrun as (parsed & Hparse & Htotal).
    exists parsed. split; [exact Hparse | by apply Hpages].
Qed.

Lemma query_pages_of_zero_limit_witness :
  (∃ parsed,
     Json.parseQueryString (json_of limit_zero) "" no_options = Ok parsed ∧
     pages_of_zero_limit parsed
       {| records := 0%nat;
          pagination := {| totalRows := num 2; totalPages := PosInf |} |}) ∧
  (∃ parsed,
     Flat.parseQueryString (qs_of limit_negative_zero) json_fails ""
       no_options = Ok parsed ∧
     limit parsed = NegZero ∧
     pages_of_zero_limit parsed
       {| records := 0%nat;
          pagination := {| totalRows := num 2; totalPages := NegInf |} |}).
Proof.
  split.
  - destruct (query_pages_of_zero_limit (json_of limit_zero)
                (qs_of limit_zero) json_fails (mock_model 2) "" no_options
                john_jane
                {| records := 0%nat;
                   pagination := {| totalRows := num 2;
                                    totalPages := PosInf |} |}
                {| heap := heap john_jane;
                   calls := [CountDocuments [];
                             Find [] (num 0) (num 0) (VObj []) None] |})
      as [Hjson _].
    apply Hjson. vm_compute. reflexivity.
  - destruct (query_pages_of_zero_limit (json_of limit_negative_zero)
                (qs_of limit_negative_zero) json_fails (mock_model 2) ""
                no_options john_jane
                {| records := 0%nat;
                   pagination := {| totalRows := num 2;
                                    totalPages := NegInf |} |}
                {| heap := heap john_jane;
                   calls := [CountDocuments [];
                             Find [] (num 0) NegZero (VObj []) None] |})
      as [_ Hflat].
    destruct Hflat as (parsed & Hparse & Hpages); [vm_compute; reflexivity|].
    exists parsed. split; [exact Hparse|]. split; [|exact Hpages].
    vm_compute in Hparse. by injection Hparse as <-.
Defined.
